(** * Agent Royale: the off-chain gaming engine and its settlement contract

    A shallow embedding of the channel engine (gaming-engine.js), the
    game plug-ins (base-game.js, slots.js, coinflip.js, lotto.js), the
    commit-reveal primitive (commit-reveal.js) and the settlement contract
    (ChannelManager.sol with BankrollManager.sol), followed by the
    properties of the specification that concern them.

    Conventions.
    - BigInt values are [Z]; BigInt division is [Z.quot] (it truncates).
    - JavaScript Numbers that the code only uses as integer counters and
      timestamps (nonce, drawId, ticket counts, Date.now()) are [Z].
    - A JavaScript [Map] that is only read and written by key is a [gmap];
      a [Map] that the code iterates is an association list in insertion
      order.
    - An action runs in the monad [M]: it reads and writes the engine state
      and either returns or throws. A throw keeps the writes made before it,
      as a JavaScript exception does.
    - Amounts that the source formats with toEth (ethers.formatEther) at the
      API boundary are kept as their wei value. *)

From Stdlib Require Import ZArith Lia QArith.
From Stdlib Require Import Init.Byte Strings.Ascii.
From stdpp Require Import gmap strings pretty list.

Open Scope Z_scope.

(** ** Bytes, hex strings and Buffer reads *)

Definition hex_digit (n : N) : ascii :=
  match n with
  | 0%N => "0" | 1%N => "1" | 2%N => "2" | 3%N => "3"
  | 4%N => "4" | 5%N => "5" | 6%N => "6" | 7%N => "7"
  | 8%N => "8" | 9%N => "9" | 10%N => "a" | 11%N => "b"
  | 12%N => "c" | 13%N => "d" | 14%N => "e" | _ => "f"
  end%char.

(** digest('hex') and toString('hex'): two lowercase digits per byte. *)
Definition hex_of_byte (b : byte) : string :=
  let n := Byte.to_N b in
  String (hex_digit (n / 16)) (String (hex_digit (n mod 16)) EmptyString).

Fixpoint hex_of_bytes (l : list byte) : string :=
  match l with
  | [] => EmptyString
  | b :: l' => hex_of_byte b +:+ hex_of_bytes l'
  end.

Definition hex_value (c : ascii) : option N :=
  let n := N_of_ascii c in
  if ((48 <=? n) && (n <=? 57))%N then Some (n - 48)%N
  else if ((97 <=? n) && (n <=? 102))%N then Some (n - 87)%N
  else if ((65 <=? n) && (n <=? 70))%N then Some (n - 55)%N
  else None.

(** Buffer.from(s, 'hex'): decodes pairs of digits and stops at the first
    pair that is not hexadecimal. *)
Fixpoint Buffer_from_hex (s : string) : list byte :=
  match s with
  | String c1 (String c2 s') =>
      match hex_value c1, hex_value c2 with
      | Some h, Some l =>
          match Byte.of_N (16 * h + l) with
          | Some b => b :: Buffer_from_hex s'
          | None => []
          end
      | _, _ => []
      end
  | _ => []
  end.

Definition byteZ (b : byte) : Z := Z.of_N (Byte.to_N b).

(** buf.readUInt32BE(off); [None] is the RangeError of a read past the end. *)
Definition readUInt32BE (buf : list byte) (off : nat) : option Z :=
  match drop off buf with
  | b0 :: b1 :: b2 :: b3 :: _ =>
      Some (byteZ b0 * 2 ^ 24 + byteZ b1 * 2 ^ 16 + byteZ b2 * 2 ^ 8 + byteZ b3)
  | _ => None
  end.

(** BigInt('0x' + hex) on the decoded bytes: the big-endian value. *)
Definition bigint_of_bytes (l : list byte) : Z :=
  fold_left (fun acc b => acc * 256 + byteZ b) l 0.

(** ** The platform the engine runs on

    Node's crypto module and the casino wallet are outside the repository.
    [sha256] is createHash('sha256').update(s).digest(), [randomBytes n] is
    the [n]-th draw of crypto.randomBytes(32) made by the process, and
    [signTypedData] is the wallet's EIP-712 signature over the ChannelState
    struct (agent, agentBalance, casinoBalance, nonce) under the engine's
    domain; [None] is a signer that throws. *)
Class Platform := {
  sha256 : string -> list byte;
  sha256_length : forall s, length (sha256 s) = 32%nat;
  randomBytes : nat -> list byte;
  signTypedData : string -> Z -> Z -> Z -> option string;
}.

(** ** commit-reveal.js *)

Module CommitReveal.
Section CommitReveal.
  Context `{Platform}.

Record proof := mkProof {
    casinoSeed : string;
    agentSeed : string;
    nonce : Z;
    resultHash : string;
  }.

Record result := mkResult {
    hash : string;
    rng : Z;
    proof_of : proof;
  }.

  (** commit(), given the bytes that randomBytes(32) returned. *)
Definition commit (rnd : list byte) : string * string :=
    let seed := hex_of_bytes rnd in
    let commitment := hex_of_bytes (sha256 seed) in
    (seed, commitment).

Definition computeResult (casinoSeed agentSeed : string) (nonce : Z) : result :=
    let input := casinoSeed +:+ ":" +:+ agentSeed +:+ ":" +:+ pretty nonce in
    let hash := hex_of_bytes (sha256 input) in
    {| hash := hash;
       rng := bigint_of_bytes (Buffer_from_hex hash);
       proof_of := mkProof casinoSeed agentSeed nonce hash |}.

Definition verify (commitment casinoSeed : string) : bool :=
    bool_decide (hex_of_bytes (sha256 casinoSeed) = commitment).

End CommitReveal.
End CommitReveal.

(** ** The engine state (gaming-engine.js and the plug-ins' own fields) *)

(** A record pushed on channel.games. *)
Inductive GameRound :=
| SlotsRound (nonce bet : Z) (reels : list Z) (multiplier payout timestamp : Z)
| CoinflipRound (nonce bet : Z) (choice result : string) (won : bool)
    (payout timestamp : Z)
| LottoRound (nonce drawId pickedNumber ticketCount cost timestamp : Z).

Record Channel := mkChannel {
  agent : string;
  agentDeposit : Z;
  casinoDeposit : Z;
  agentBalance : Z;
  casinoBalance : Z;
  nonce : Z;
  games : list GameRound;
  createdAt : Z;
}.

Record PendingCommit := mkPending {
  seed : string;
  betWei : Z;
  choice : option string;
  game : string;
  timestamp : Z;
}.

(** BaseGame._stats. *)
Record Stats := mkStats {
  totalRounds : Z;
  totalWagered : Z;
  totalPaidOut : Z;
  agentWins : Z;
  houseWins : Z;
  biggestWin : Z;
  biggestWinMultiplier : Q;
  lastPlayedAt : option Z;
}.

Definition Stats0 : Stats := mkStats 0 0 0 0 0 0 (inject_Z 0) None.

(** A Map that the code iterates: association list in insertion order. *)
Section JsMap.
  Context {K V : Type} `{EqDecision K}.

Fixpoint Map_get (k : K) (m : list (K * V)) : option V :=
    match m with
    | [] => None
    | (k', v) :: m' => if decide (k = k') then Some v else Map_get k m'
    end.

Fixpoint Map_set (k : K) (v : V) (m : list (K * V)) : list (K * V) :=
    match m with
    | [] => [(k, v)]
    | (k', v') :: m' =>
        if decide (k = k') then (k, v) :: m' else (k', v') :: Map_set k v m'
    end.

Definition Map_has (k : K) (m : list (K * V)) : bool :=
    match Map_get k m with Some _ => true | None => false end.
End JsMap.

Record Draw := mkDraw {
  drawId : Z;
  d_casinoSeed : string;
  commitment : string;
  drawTime : Z;
  tickets : list (string * list Z);
  totalPool : Z;
  winningNumber : option Z;
  drawn : bool;
  drawnAt : option Z;
}.

(** The fields of a LottoGame instance. *)
Record LottoState := mkLotto {
  draws : list (Z * Draw);
  currentDrawId : Z;
  unclaimedWinnings : gmap string Z;
  totalTicketsSold : Z;
  totalDraws : Z;
  lotto_stats : Stats;
}.

(** A GamingEngine with the three plug-ins registered (createEngine in
    test/attack-simulation.js). [rngCalls] counts the calls made to
    crypto.randomBytes, the position in the platform's random stream. *)
Record GamingEngine := mkEngine {
  channels : gmap string Channel;
  pendingCommits : gmap string PendingCommit;
  slots_stats : Stats;
  coinflip_stats : Stats;
  lotto : LottoState;
  rngCalls : nat;
}.

Definition set_channels (f : gmap string Channel -> gmap string Channel)
    (e : GamingEngine) : GamingEngine :=
  mkEngine (f (channels e)) (pendingCommits e) (slots_stats e)
    (coinflip_stats e) (lotto e) (rngCalls e).

Definition set_pendingCommits
    (f : gmap string PendingCommit -> gmap string PendingCommit)
    (e : GamingEngine) : GamingEngine :=
  mkEngine (channels e) (f (pendingCommits e)) (slots_stats e)
    (coinflip_stats e) (lotto e) (rngCalls e).

Definition set_slots_stats (f : Stats -> Stats) (e : GamingEngine) : GamingEngine :=
  mkEngine (channels e) (pendingCommits e) (f (slots_stats e))
    (coinflip_stats e) (lotto e) (rngCalls e).

Definition set_coinflip_stats (f : Stats -> Stats) (e : GamingEngine) : GamingEngine :=
  mkEngine (channels e) (pendingCommits e) (slots_stats e)
    (f (coinflip_stats e)) (lotto e) (rngCalls e).

Definition set_lotto (f : LottoState -> LottoState) (e : GamingEngine) : GamingEngine :=
  mkEngine (channels e) (pendingCommits e) (slots_stats e)
    (coinflip_stats e) (f (lotto e)) (rngCalls e).

Definition set_rngCalls (f : nat -> nat) (e : GamingEngine) : GamingEngine :=
  mkEngine (channels e) (pendingCommits e) (slots_stats e)
    (coinflip_stats e) (lotto e) (f (rngCalls e)).

(** ** Actions: state and exceptions *)

Inductive Res (A : Type) :=
| Ok (a : A)
| Throw (msg : string).
Arguments Ok {A} a.
Arguments Throw {A} msg.

Definition M (A : Type) : Type := GamingEngine -> Res A * GamingEngine.

Definition ret {A} (a : A) : M A := fun e => (Ok a, e).
Definition throw {A} (msg : string) : M A := fun e => (Throw msg, e).
Definition bind {A B} (m : M A) (k : A -> M B) : M B :=
  fun e =>
    match m e with
    | (Ok a, e') => k a e'
    | (Throw msg, e') => (Throw msg, e')
    end.
Definition gets {A} (f : GamingEngine -> A) : M A := fun e => (Ok (f e), e).
Definition modify (f : GamingEngine -> GamingEngine) : M unit :=
  fun e => (Ok tt, f e).
(** try { m } catch (err) { } *)
Definition try_catch {A} (m : M A) : M (option A) :=
  fun e =>
    match m e with
    | (Ok a, e') => (Ok (Some a), e')
    | (Throw _, e') => (Ok None, e')
    end.

Notation "x <- c ;; k" := (bind c (fun x => k))
  (at level 100, c at next level, right associativity).
Notation "c ;; k" := (bind c (fun _ => k))
  (at level 100, right associativity).

(** A channel object is passed around as its key in the channel table;
    reading its fields is a lookup and writing them replaces the entry. *)
Definition readChannel (a : string) : M Channel :=
  fun e =>
    match channels e !! a with
    | Some ch => (Ok ch, e)
    | None => (Throw "Channel not found", e)
    end.

Definition writeChannel (a : string) (ch : Channel) : M unit :=
  modify (set_channels (insert a ch)).

Definition with_state (ch : Channel) (ab cb n : Z) : Channel :=
  mkChannel (agent ch) (agentDeposit ch) (casinoDeposit ch) ab cb n
    (games ch) (createdAt ch).

Definition push_game (ch : Channel) (g : GameRound) : Channel :=
  mkChannel (agent ch) (agentDeposit ch) (casinoDeposit ch) (agentBalance ch)
    (casinoBalance ch) (nonce ch) (games ch ++ [g]) (createdAt ch).

(** The parameters of an A2A game message. [betAmount] holds
    toWei(params.betAmount), the conversion that wei.js delegates to
    ethers.parseEther; [None] is a conversion that throws. [ticketCount] is
    [None] when the message leaves it out. *)
Record Params := mkParams {
  betAmount : option Z;
  p_choice : string;
  agentSeed : string;
  pickedNumber : Z;
  ticketCount : option Z;
  p_drawId : Z;
}.

Record RevealProof := mkRevealProof {
  rp_casinoSeed : string;
  rp_agentSeed : string;
  rp_resultHash : string;
}.

(** The objects the game actions return. *)
Inductive Result :=
| RCommit (commitment : string) (betAmount : Z) (choice : option string)
| RSlotsReveal (reels : list string) (reelIndices : list Z)
    (multiplier payout agentBalance casinoBalance nonce : Z)
    (signature : string) (proof : RevealProof)
| RCoinflipReveal (choice result : string) (won : bool)
    (payout agentBalance casinoBalance nonce : Z)
    (signature : string) (proof : RevealProof)
| RLottoBuy (drawId pickedNumber ticketCount cost maxPossiblePayout drawTime
    agentBalance casinoBalance nonce : Z) (signature : string)
| RLottoClaimNone (claimed message : string)
| RLottoClaim (claimed remaining agentBalance casinoBalance nonce : Z)
    (signature : string)
| RLottoStatus (drawId : Z) (commitment : string)
    (drawTime totalTickets totalPool : Z)
| RLottoHistoryError (error : string)
| RLottoHistoryPending (drawId drawTime : Z)
| RLottoHistoryCompleted (drawId : Z) (winningNumber : option Z)
    (casinoSeed commitment : string) (totalPool : Z) (drawnAt : option Z).

(** ** The context handed to the games (ctx in handleGameAction) *)

Section Ctx.
  Context `{Platform}.

  (** GamingEngine._signState. *)
Definition signState (a : string) (ab cb n : Z) : M string :=
    match signTypedData a ab cb n with
    | Some sig => ret sig
    | None => throw "signTypedData failed"
    end.

  (** ctx.commitReveal.commit(): the next draw of the random stream. *)
Definition ctx_commit : M (string * string) :=
    n <- gets rngCalls;;
    modify (set_rngCalls S);;
    ret (CommitReveal.commit (randomBytes n)).

Definition read32 (buf : list byte) (off : nat) : M Z :=
    match readUInt32BE buf off with
    | Some v => ret v
    | None => throw "RangeError"
    end.
End Ctx.

(** ** base-game.js *)

Module BaseGame.

Definition validateBet (maxMultiplier : Z) (ch : Channel) (betWei : Z)
      (safetyMargin : Z) : Res unit :=
    if betWei <=? 0 then Throw "Bet must be positive"
    else if agentBalance ch <? betWei then Throw "Insufficient balance"
    else
      let maxPayout := betWei * maxMultiplier in
      if maxPayout * safetyMargin >? casinoBalance ch
      then Throw "Max bet (bankroll limit)"
      else Ok tt.

Definition recordRound (betWei payoutWei : Z) (multiplier : Q) (now : Z)
      (s : Stats) : Stats :=
    let wins := 0 <? payoutWei in
    let bigger := wins && (biggestWin s <? payoutWei) in
    mkStats (totalRounds s + 1) (totalWagered s + betWei)
      (totalPaidOut s + payoutWei)
      (if wins then agentWins s + 1 else agentWins s)
      (if wins then houseWins s else houseWins s + 1)
      (if bigger then payoutWei else biggestWin s)
      (if bigger then multiplier else biggestWinMultiplier s)
      (Some now).

End BaseGame.

Definition lift_res {A} (r : Res A) : M A := fun e => (r, e).

Definition COMMIT_TIMEOUT : Z := 5 * 60 * 1000.

(** ** slots.js *)

Module SlotsGame.
Section SlotsGame.
  Context `{Platform}.

Definition SYMBOLS : list string :=
    ["cherry"; "lemon"; "orange"; "diamond"; "seven"].
Definition WEIGHTS : list Z := [30; 25; 20; 15; 10].
Definition PAYOUTS : list Z := [5; 10; 25; 50; 290].

Definition name : string := "slots".
Definition maxMultiplier : Z := 290.
Definition actions : list string := ["commit"; "reveal"].

Fixpoint getSymbol_loop (ws : list Z) (i cumulative rng : Z) : Z :=
    match ws with
    | [] => 0
    | w :: ws' =>
        let cumulative := cumulative + w in
        if rng <? cumulative then i
        else getSymbol_loop ws' (i + 1) cumulative rng
    end.

Definition _getSymbol (rng : Z) : Z := getSymbol_loop WEIGHTS 0 0 rng.

Definition _commit (now : Z) (a : string) (params : Params) : M Result :=
    ch <- readChannel a;;
    match betAmount params with
    | None => throw "invalid amount"
    | Some betWei =>
        lift_res (BaseGame.validateBet maxMultiplier ch betWei 2);;
        let commitKey := agent ch +:+ ":slots" in
        pending <- gets (fun e => pendingCommits e !! commitKey);;
        match pending with
        | Some _ => throw "Already have a pending slots spin. Reveal or wait for timeout."
        | None =>
            sc <- ctx_commit;;
            modify (set_pendingCommits
              (insert commitKey (mkPending (fst sc) betWei None "slots" now)));;
            ret (RCommit (snd sc) betWei None)
        end
    end.

Definition _reveal (now : Z) (a : string) (params : Params) : M Result :=
    ch <- readChannel a;;
    let commitKey := agent ch +:+ ":slots" in
    pending <- gets (fun e => pendingCommits e !! commitKey);;
    match pending with
    | None => throw "No pending slot spin"
    | Some pending =>
        if now - timestamp pending >? COMMIT_TIMEOUT then
          modify (set_pendingCommits (delete commitKey));;
          throw "Commitment expired (5min timeout)"
        else
          let casinoSeed := seed pending in
          let betWei := betWei pending in
          if agentBalance ch <? betWei then
            modify (set_pendingCommits (delete commitKey));;
            throw "Insufficient balance at reveal"
          else
            let proof := CommitReveal.proof_of
              (CommitReveal.computeResult casinoSeed (agentSeed params) (nonce ch)) in
            let hashBuf := Buffer_from_hex (CommitReveal.resultHash proof) in
            r0 <- read32 hashBuf 0;;
            r1 <- read32 hashBuf 4;;
            r2 <- read32 hashBuf 8;;
            let reel0 := _getSymbol (r0 mod 100) in
            let reel1 := _getSymbol (r1 mod 100) in
            let reel2 := _getSymbol (r2 mod 100) in
            let reels := [reel0; reel1; reel2] in
            let line := (reel0 =? reel1) && (reel1 =? reel2) in
            let multiplier :=
              if line then nth (Z.to_nat reel0) PAYOUTS 0 else 0 in
            let payoutWei := if line then betWei * multiplier else 0 in
            let payoutWei :=
              if payoutWei >? casinoBalance ch then casinoBalance ch
              else payoutWei in
            let ch1 := with_state ch
              (agentBalance ch - betWei + payoutWei)
              (casinoBalance ch + betWei - payoutWei)
              (nonce ch + 1) in
            let ch2 := push_game ch1
              (SlotsRound (nonce ch1) betWei reels multiplier payoutWei now) in
            writeChannel a ch2;;
            modify (set_slots_stats
              (BaseGame.recordRound betWei payoutWei (inject_Z multiplier) now));;
            signature <- signState (agent ch2) (agentBalance ch2)
              (casinoBalance ch2) (nonce ch2);;
            modify (set_pendingCommits (delete commitKey));;
            ret (RSlotsReveal
              (map (fun i => nth (Z.to_nat i) SYMBOLS "") reels) reels
              multiplier payoutWei (agentBalance ch2) (casinoBalance ch2)
              (nonce ch2) signature
              (mkRevealProof casinoSeed (agentSeed params)
                 (CommitReveal.resultHash proof)))
    end.

Definition handleAction (action : string) (now : Z) (a : string)
      (params : Params) : M Result :=
    if String.eqb action "commit" then _commit now a params
    else if String.eqb action "reveal" then _reveal now a params
    else throw "Unknown slots action".

End SlotsGame.
End SlotsGame.

(** ** coinflip.js *)

Module CoinflipGame.
Section CoinflipGame.
  Context `{Platform}.

Definition name : string := "coinflip".
Definition maxMultiplier : Z := 2.
Definition actions : list string := ["commit"; "reveal"].

Definition _commit (now : Z) (a : string) (params : Params) : M Result :=
    ch <- readChannel a;;
    let choice := p_choice params in
    if negb (String.eqb choice "heads" || String.eqb choice "tails") then
      throw "Choice must be heads or tails"
    else
      match betAmount params with
      | None => throw "invalid amount"
      | Some betWei =>
          lift_res (BaseGame.validateBet maxMultiplier ch betWei 2);;
          let commitKey := agent ch +:+ ":coinflip" in
          pending <- gets (fun e => pendingCommits e !! commitKey);;
          match pending with
          | Some _ => throw "Already have a pending coinflip. Reveal or wait for timeout."
          | None =>
              sc <- ctx_commit;;
              modify (set_pendingCommits
                (insert commitKey
                   (mkPending (fst sc) betWei (Some choice) "coinflip" now)));;
              ret (RCommit (snd sc) betWei (Some choice))
          end
      end.

Definition _reveal (now : Z) (a : string) (params : Params) : M Result :=
    ch <- readChannel a;;
    let commitKey := agent ch +:+ ":coinflip" in
    pending <- gets (fun e => pendingCommits e !! commitKey);;
    match pending with
    | None => throw "No pending coinflip"
    | Some pending =>
        if now - timestamp pending >? COMMIT_TIMEOUT then
          modify (set_pendingCommits (delete commitKey));;
          throw "Commitment expired"
        else
          let casinoSeed := seed pending in
          let betWei := betWei pending in
          if agentBalance ch <? betWei then
            modify (set_pendingCommits (delete commitKey));;
            throw "Insufficient balance at reveal"
          else
            let proof := CommitReveal.proof_of
              (CommitReveal.computeResult casinoSeed (agentSeed params) (nonce ch)) in
            let hashBuf := Buffer_from_hex (CommitReveal.resultHash proof) in
            r0 <- read32 hashBuf 0;;
            let result := if r0 mod 2 =? 0 then "heads" else "tails" in
            let won := bool_decide (Some result = choice pending) in
            let payoutWei :=
              if won then
                let p := Z.quot (betWei * 19) 10 in
                if p >? casinoBalance ch + betWei
                then casinoBalance ch + betWei else p
              else 0 in
            let ch1 := with_state ch
              (agentBalance ch - betWei + payoutWei)
              (casinoBalance ch + betWei - payoutWei)
              (nonce ch + 1) in
            writeChannel a ch1;;
            modify (set_coinflip_stats
              (BaseGame.recordRound betWei payoutWei
                 (if won then (19 # 10)%Q else inject_Z 0) now));;
            let ch2 := push_game ch1
              (CoinflipRound (nonce ch1) betWei
                 (default "" (choice pending)) result won payoutWei now) in
            writeChannel a ch2;;
            signature <- signState (agent ch2) (agentBalance ch2)
              (casinoBalance ch2) (nonce ch2);;
            modify (set_pendingCommits (delete commitKey));;
            ret (RCoinflipReveal (default "" (choice pending)) result won
              payoutWei (agentBalance ch2) (casinoBalance ch2) (nonce ch2)
              signature
              (mkRevealProof casinoSeed (agentSeed params)
                 (CommitReveal.resultHash proof)))
    end.

Definition handleAction (action : string) (now : Z) (a : string)
      (params : Params) : M Result :=
    if String.eqb action "commit" then _commit now a params
    else if String.eqb action "reveal" then _reveal now a params
    else throw "Unknown coinflip action".

End CoinflipGame.
End CoinflipGame.

(** ** lotto.js *)

Record Winner := mkWinner {
  w_agent : string;
  w_tickets : Z;
  w_payout : Z;
}.

Record DrawResult := mkDrawResult {
  dr_drawId : Z;
  dr_winningNumber : Z;
  dr_casinoSeed : string;
  dr_commitment : string;
  winners : list Winner;
  dr_totalPool : Z;
  dr_totalTickets : Z;
}.

Record Applied := mkApplied {
  ap_payout : Z;
  ap_signature : string;
  ap_nonce : Z;
}.

Module LottoGame.
Section LottoGame.
  Context `{Platform}.

Definition RANGE : Z := 100.
Definition PAYOUT_MULTIPLIER : Z := 85.
  (** toWei('0.001') *)
Definition TICKET_PRICE : Z := 10 ^ 15.
Definition DRAW_INTERVAL : Z := 6 * 60 * 60 * 1000.
Definition MAX_TICKETS_PER_DRAW : Z := 10.

Definition name : string := "lotto".
Definition maxMultiplier : Z := PAYOUT_MULTIPLIER.
Definition actions : list string := ["buy"; "status"; "history"; "claim"].

Definition set_draws (f : list (Z * Draw) -> list (Z * Draw))
      (L : LottoState) : LottoState :=
    mkLotto (f (draws L)) (currentDrawId L) (unclaimedWinnings L)
      (totalTicketsSold L) (totalDraws L) (lotto_stats L).

Definition set_unclaimed (f : gmap string Z -> gmap string Z)
      (L : LottoState) : LottoState :=
    mkLotto (draws L) (currentDrawId L) (f (unclaimedWinnings L))
      (totalTicketsSold L) (totalDraws L) (lotto_stats L).

Definition set_lotto_stats (f : Stats -> Stats) (L : LottoState) : LottoState :=
    mkLotto (draws L) (currentDrawId L) (unclaimedWinnings L)
      (totalTicketsSold L) (totalDraws L) (f (lotto_stats L)).

Definition with_tickets (d : Draw) (t : list (string * list Z)) (pool : Z) : Draw :=
    mkDraw (drawId d) (d_casinoSeed d) (commitment d) (drawTime d) t pool
      (winningNumber d) (drawn d) (drawnAt d).

Definition total_tickets (d : Draw) : Z :=
    Z.of_nat (length (concat (map snd (tickets d)))).

  (** _startNewDraw() *)
Definition _startNewDraw (now : Z) : M unit :=
    modify (set_lotto (fun L =>
      mkLotto (draws L) (currentDrawId L + 1) (unclaimedWinnings L)
        (totalTicketsSold L) (totalDraws L) (lotto_stats L)));;
    sc <- ctx_commit;;
    modify (set_lotto (fun L =>
      set_draws (Map_set (currentDrawId L)
        (mkDraw (currentDrawId L) (fst sc) (snd sc) (now + DRAW_INTERVAL)
           [] 0 None false None)) L)).

  (** The fields set by the LottoGame constructor before _startNewDraw. *)
Definition Lotto0 : LottoState := mkLotto [] 0 ∅ 0 0 Stats0.

Definition _buy (now : Z) (a : string) (params : Params) : M Result :=
    ch <- readChannel a;;
    let pickedNumber := pickedNumber params in
    let ticketCount := default 1 (ticketCount params) in
    if (pickedNumber <? 1) || (pickedNumber >? RANGE) then
      throw "Pick a number between 1 and 100"
    else if (ticketCount <? 1) || (ticketCount >? MAX_TICKETS_PER_DRAW) then
      throw "Max 10 tickets per draw"
    else
      let costWei := TICKET_PRICE * ticketCount in
      if agentBalance ch <? costWei then throw "Insufficient balance"
      else
        let maxPayoutWei := TICKET_PRICE * PAYOUT_MULTIPLIER * ticketCount in
        if maxPayoutWei >? casinoBalance ch then
          throw "Casino can't cover max payout"
        else
          L <- gets lotto;;
          match Map_get (currentDrawId L) (draws L) with
          | None => throw "TypeError"
          | Some draw =>
              let tickets0 :=
                if Map_has (agent ch) (tickets draw) then tickets draw
                else Map_set (agent ch) [] (tickets draw) in
              modify (set_lotto (set_draws (Map_set (currentDrawId L)
                (with_tickets draw tickets0 (totalPool draw)))));;
              let agentTickets := default [] (Map_get (agent ch) tickets0) in
              if Z.of_nat (length agentTickets) + ticketCount
                   >? MAX_TICKETS_PER_DRAW then
                throw "Already have tickets this draw (max 10)"
              else
                let ch1 := with_state ch (agentBalance ch - costWei)
                  (casinoBalance ch + costWei) (nonce ch + 1) in
                writeChannel a ch1;;
                let tickets1 := Map_set (agent ch)
                  (agentTickets ++ replicate (Z.to_nat ticketCount) pickedNumber)
                  tickets0 in
                modify (set_lotto (fun L' =>
                  mkLotto
                    (Map_set (currentDrawId L)
                       (with_tickets draw tickets1 (totalPool draw + costWei))
                       (draws L'))
                    (currentDrawId L') (unclaimedWinnings L')
                    (totalTicketsSold L' + ticketCount) (totalDraws L')
                    (mkStats (totalRounds (lotto_stats L') + 1)
                       (totalWagered (lotto_stats L') + costWei)
                       (totalPaidOut (lotto_stats L'))
                       (agentWins (lotto_stats L')) (houseWins (lotto_stats L'))
                       (biggestWin (lotto_stats L'))
                       (biggestWinMultiplier (lotto_stats L')) (Some now))));;
                signature <- signState (agent ch1) (agentBalance ch1)
                  (casinoBalance ch1) (nonce ch1);;
                writeChannel a (push_game ch1
                  (LottoRound (nonce ch1) (currentDrawId L) pickedNumber
                     ticketCount costWei now));;
                ret (RLottoBuy (currentDrawId L) pickedNumber ticketCount
                  costWei maxPayoutWei (drawTime draw) (agentBalance ch1)
                  (casinoBalance ch1) (nonce ch1) signature)
          end.

  (** The loop of executeDraw over draw.tickets: credits unclaimedWinnings
      and collects the winners. *)
Fixpoint credit_winners (winningNumber : Z) (ts : list (string * list Z))
      (u : gmap string Z) : gmap string Z * list Winner :=
    match ts with
    | [] => (u, [])
    | (ag, tk) :: ts' =>
        let matchCount :=
          Z.of_nat (length (filter (fun t => t = winningNumber) tk)) in
        if matchCount >? 0 then
          let payoutWei := TICKET_PRICE * PAYOUT_MULTIPLIER * matchCount in
          let existing := default 0 (u !! ag) in
          let r := credit_winners winningNumber ts'
                     (<[ag := existing + payoutWei]> u) in
          (fst r, mkWinner ag matchCount payoutWei :: snd r)
        else credit_winners winningNumber ts' u
    end.

  (** The loop of executeDraw that tracks payouts in the statistics. *)
Definition track_payout (s : Stats) (w : Winner) : Stats :=
    let payWei := TICKET_PRICE * PAYOUT_MULTIPLIER * w_tickets w in
    let bigger := biggestWin s <? payWei in
    mkStats (totalRounds s) (totalWagered s) (totalPaidOut s + payWei)
      (agentWins s + 1) (houseWins s)
      (if bigger then payWei else biggestWin s)
      (if bigger then inject_Z PAYOUT_MULTIPLIER else biggestWinMultiplier s)
      (lastPlayedAt s).

Definition executeDraw (now : Z) (id : Z) : M DrawResult :=
    L <- gets lotto;;
    match Map_get id (draws L) with
    | None => throw "Draw not found"
    | Some draw =>
        if drawn draw then throw "Draw already executed"
        else
          let agentEntropy :=
            pretty (Z.of_nat (length (tickets draw))) +:+ ":"
              +:+ pretty (totalPool draw) in
          let proof := CommitReveal.proof_of
            (CommitReveal.computeResult (d_casinoSeed draw) agentEntropy id) in
          let hashBuf := Buffer_from_hex (CommitReveal.resultHash proof) in
          r0 <- read32 hashBuf 0;;
          let winning := r0 mod RANGE + 1 in
          let draw' := mkDraw (drawId draw) (d_casinoSeed draw) (commitment draw)
            (drawTime draw) (tickets draw) (totalPool draw) (Some winning)
            true (Some now) in
          let cw := credit_winners winning (tickets draw) (unclaimedWinnings L) in
          let ws := snd cw in
          let s1 := fold_left track_payout ws (lotto_stats L) in
          let s2 :=
            if bool_decide (ws = []) then
              mkStats (totalRounds s1) (totalWagered s1) (totalPaidOut s1)
                (agentWins s1) (houseWins s1 + 1) (biggestWin s1)
                (biggestWinMultiplier s1) (lastPlayedAt s1)
            else s1 in
          modify (set_lotto (fun L' =>
            mkLotto (Map_set id draw' (draws L')) (currentDrawId L') (fst cw)
              (totalTicketsSold L') (totalDraws L' + 1) s2));;
          _startNewDraw now;;
          ret (mkDrawResult id winning (d_casinoSeed draw) (commitment draw) ws
                 (totalPool draw) (total_tickets draw))
    end.

  (** The update of unclaimedWinnings shared by _claim and applyWinnings. *)
Definition settle_unclaimed (ag : string) (remaining : Z)
      (u : gmap string Z) : gmap string Z :=
    if remaining >? 0 then <[ag := remaining]> u else delete ag u.

Definition _claim (a : string) : M Result :=
    ch <- readChannel a;;
    u <- gets (fun e => unclaimedWinnings (lotto e));;
    let unclaimed := default 0 (u !! agent ch) in
    if unclaimed =? 0 then
      ret (RLottoClaimNone "0" "No unclaimed winnings")
    else
      let claimable :=
        if unclaimed >? casinoBalance ch then casinoBalance ch else unclaimed in
      let ch1 := with_state ch (agentBalance ch + claimable)
        (casinoBalance ch - claimable) (nonce ch + 1) in
      writeChannel a ch1;;
      let remaining := unclaimed - claimable in
      modify (set_lotto (set_unclaimed (settle_unclaimed (agent ch) remaining)));;
      signature <- signState (agent ch1) (agentBalance ch1)
        (casinoBalance ch1) (nonce ch1);;
      ret (RLottoClaim claimable remaining (agentBalance ch1)
             (casinoBalance ch1) (nonce ch1) signature).

  (** applyWinnings(channel, payoutWei, ctx) with the payout already a
      BigInt, as the scheduler passes it. *)
Definition applyWinnings (a : string) (payoutWei : Z) : M Applied :=
    ch <- readChannel a;;
    let cappedPayout :=
      if payoutWei >? casinoBalance ch then casinoBalance ch else payoutWei in
    let ch1 := with_state ch (agentBalance ch + cappedPayout)
      (casinoBalance ch - cappedPayout) (nonce ch + 1) in
    writeChannel a ch1;;
    u <- gets (fun e => unclaimedWinnings (lotto e));;
    let unclaimed := default 0 (u !! agent ch) in
    (if unclaimed >=? cappedPayout then
       modify (set_lotto (set_unclaimed
         (settle_unclaimed (agent ch) (unclaimed - cappedPayout))))
     else ret tt);;
    signature <- signState (agent ch1) (agentBalance ch1)
      (casinoBalance ch1) (nonce ch1);;
    ret (mkApplied cappedPayout signature (nonce ch1)).

Definition _status : M Result :=
    L <- gets lotto;;
    match Map_get (currentDrawId L) (draws L) with
    | None => throw "TypeError"
    | Some draw =>
        ret (RLottoStatus (currentDrawId L) (commitment draw) (drawTime draw)
               (total_tickets draw) (totalPool draw))
    end.

Definition _history (params : Params) : M Result :=
    L <- gets lotto;;
    match Map_get (p_drawId params) (draws L) with
    | None => ret (RLottoHistoryError "Draw not found")
    | Some draw =>
        if negb (drawn draw) then
          ret (RLottoHistoryPending (p_drawId params) (drawTime draw))
        else
          ret (RLottoHistoryCompleted (p_drawId params) (winningNumber draw)
                 (d_casinoSeed draw) (commitment draw) (totalPool draw)
                 (drawnAt draw))
    end.

Definition getPendingDraws (now : Z) : M (list Z) :=
    gets (fun e =>
      map fst
        (List.filter (fun p => negb (drawn (snd p)) && (drawTime (snd p) <=? now))
           (draws (lotto e)))).

Definition handleAction (action : string) (now : Z) (a : string)
      (params : Params) : M Result :=
    if String.eqb action "buy" then _buy now a params
    else if String.eqb action "status" then _status
    else if String.eqb action "history" then _history params
    else if String.eqb action "claim" then _claim a
    else throw "Unknown lotto action".

End LottoGame.
End LottoGame.

(** ** gaming-engine.js *)

Inductive Plugin := Slots | Lotto | Coinflip.

Record ChannelStatus := mkStatus {
  st_status : string;
  st_agentBalance : Z;
  st_casinoBalance : Z;
  st_nonce : Z;
  st_gamesPlayed : Z;
  invariantOk : bool;
}.

Record CloseResult := mkClose {
  cl_agentBalance : Z;
  cl_casinoBalance : Z;
  cl_nonce : Z;
  cl_signature : string;
  cl_totalGames : Z;
}.

Module Engine.
Section Engine.
  Context `{Platform}.

Definition plugin_name (g : Plugin) : string :=
    match g with
    | Slots => SlotsGame.name
    | Lotto => LottoGame.name
    | Coinflip => CoinflipGame.name
    end.

Definition plugin_actions (g : Plugin) : list string :=
    match g with
    | Slots => SlotsGame.actions
    | Lotto => LottoGame.actions
    | Coinflip => CoinflipGame.actions
    end.

Definition plugin_maxMultiplier (g : Plugin) : Z :=
    match g with
    | Slots => SlotsGame.maxMultiplier
    | Lotto => LottoGame.maxMultiplier
    | Coinflip => CoinflipGame.maxMultiplier
    end.

Definition plugin_handleAction (g : Plugin) :
      string -> Z -> string -> Params -> M Result :=
    match g with
    | Slots => SlotsGame.handleAction
    | Lotto => LottoGame.handleAction
    | Coinflip => CoinflipGame.handleAction
    end.

  (** registerGame: one actionMap entry per action of the game. *)
Definition registerGame (g : Plugin)
      (actionMap : list (string * (Plugin * string))) :
      list (string * (Plugin * string)) :=
    fold_left
      (fun m action => Map_set (plugin_name g +:+ "_" +:+ action) (g, action) m)
      (plugin_actions g) actionMap.

  (** The action map after createEngine's three registrations. *)
Definition actionMap : list (string * (Plugin * string)) :=
    registerGame Coinflip (registerGame Lotto (registerGame Slots [])).

Definition _getChannel (addr : string) : M Channel := readChannel addr.

Definition handleGameAction (now : Z) (actionRoute agentAddress : string)
      (params : Params) : M Result :=
    match Map_get actionRoute actionMap with
    | None => throw "Unknown action"
    | Some (g, action) =>
        let noChannelActions := ["status"; "history"; "info"] in
        (if negb (existsb (String.eqb action) noChannelActions)
         then _getChannel agentAddress;; ret tt
         else ret tt);;
        plugin_handleAction g action now agentAddress params
    end.

  (** openChannel; the deposits are toWei of the message's amounts, [None]
      for a conversion that throws. *)
Definition openChannel (now : Z) (agentAddress : string)
      (agentDepositEth casinoDepositEth : option Z) : M (string * Z * Z) :=
    existing <- gets (fun e => channels e !! agentAddress);;
    match existing with
    | Some _ => throw "Channel already exists"
    | None =>
        match agentDepositEth, casinoDepositEth with
        | Some agentDeposit, Some casinoDeposit =>
            let channel := mkChannel agentAddress agentDeposit casinoDeposit
              agentDeposit casinoDeposit 0 [] now in
            writeChannel agentAddress channel;;
            ret ("open", agentBalance channel, casinoBalance channel)
        | _, _ => throw "invalid amount"
        end
    end.

Definition getChannelStatus (agentAddress : string) : M (option ChannelStatus) :=
    existing <- gets (fun e => channels e !! agentAddress);;
    match existing with
    | None => ret None
    | Some ch =>
        let totalDeposits := agentDeposit ch + casinoDeposit ch in
        let totalBalances := agentBalance ch + casinoBalance ch in
        ret (Some (mkStatus "open" (agentBalance ch) (casinoBalance ch)
               (nonce ch) (Z.of_nat (length (games ch)))
               (totalDeposits =? totalBalances)))
    end.

Definition closeChannel (agentAddress : string) : M CloseResult :=
    channel <- _getChannel agentAddress;;
    let totalDeposits := agentDeposit channel + casinoDeposit channel in
    let totalBalances := agentBalance channel + casinoBalance channel in
    if negb (totalDeposits =? totalBalances) then
      throw "INVARIANT VIOLATION"
    else
      signature <- signState agentAddress (agentBalance channel)
        (casinoBalance channel) (nonce channel);;
      modify (set_channels (delete agentAddress));;
      ret (mkClose (agentBalance channel) (casinoBalance channel)
             (nonce channel) signature (Z.of_nat (length (games channel)))).

  (** The inner loop of runScheduledTasks over drawResult.winners. The
      payout goes through toEth and back through toWei, which returns the
      same wei value. *)
Fixpoint apply_winners (ws : list Winner) : M (list (Winner * option Applied)) :=
    match ws with
    | [] => ret []
    | w :: ws' =>
        channel <- gets (fun e => channels e !! w_agent w);;
        match channel with
        | Some _ =>
            applied <- LottoGame.applyWinnings (w_agent w) (w_payout w);;
            rest <- apply_winners ws';;
            ret ((w, Some applied) :: rest)
        | None =>
            rest <- apply_winners ws';;
            ret ((w, None) :: rest)
        end
    end.

Fixpoint run_draws (now : Z) (ids : list Z) :
      M (list (DrawResult * list (Winner * option Applied))) :=
    match ids with
    | [] => ret []
    | id :: ids' =>
        r <- try_catch
               (drawResult <- LottoGame.executeDraw now id;;
                applied <- apply_winners (winners drawResult);;
                ret (drawResult, applied));;
        rest <- run_draws now ids';;
        ret (match r with Some x => x :: rest | None => rest end)
    end.

Definition runScheduledTasks (now : Z) :
      M (list (DrawResult * list (Winner * option Applied))) :=
    pendingDraws <- LottoGame.getPendingDraws now;;
    run_draws now pendingDraws.

  (** new GamingEngine(...) followed by the three registerGame calls; the
      LottoGame constructor starts the first draw. *)
Definition engine0 : GamingEngine :=
    mkEngine ∅ ∅ Stats0 Stats0 LottoGame.Lotto0 0.

Definition createEngine (now : Z) : GamingEngine :=
    snd (LottoGame._startNewDraw now engine0).

  (** The operations of the engine, each at the time it runs. *)
Inductive Op :=
  | OpenChannel (agentAddress : string) (agentDeposit casinoDeposit : option Z)
  | GetChannelStatus (agentAddress : string)
  | CloseChannel (agentAddress : string)
  | HandleGameAction (actionRoute agentAddress : string) (params : Params)
  | RunScheduledTasks.

Definition run_op (now : Z) (op : Op) (e : GamingEngine) : GamingEngine :=
    match op with
    | OpenChannel a ad cd => snd (openChannel now a ad cd e)
    | GetChannelStatus a => snd (getChannelStatus a e)
    | CloseChannel a => snd (closeChannel a e)
    | HandleGameAction r a p => snd (handleGameAction now r a p e)
    | RunScheduledTasks => snd (runScheduledTasks now e)
    end.

Definition run_ops (ops : list (Z * Op)) (e : GamingEngine) : GamingEngine :=
    fold_left (fun e' p => run_op (fst p) (snd p) e') ops e.

End Engine.
End Engine.

(** ** ChannelManager.sol with BankrollManager.sol and InsuranceFund.sol

    The channel life cycle without disputes: openChannel, fundCasinoSide,
    closeChannel, emergencyExit and the settlement they share. A uint256 is
    a [Z] with the overflow and underflow checks of Solidity 0.8 written
    out; a call that reverts leaves the state as it was. Addresses are the
    strings the engine uses for them. *)

Module ChannelManager.

Inductive ChannelState := CSNone | CSOpen | CSDisputed | CSClosed.

Record Channel := mkCh {
    agentDeposit : Z;
    casinoDeposit : Z;
    agentBalance : Z;
    casinoBalance : Z;
    nonce : Z;
    openedAt : Z;
    disputeDeadline : Z;
    state : ChannelState;
  }.

  (** The value of a mapping entry that was never written or was deleted. *)
Definition noChannel : Channel := mkCh 0 0 0 0 0 0 0 CSNone.

Inductive Error :=
  | InvalidDeposit | ChannelExists | ChannelNotOpen | StaleNonce
  | BalanceMismatch | InvalidSignature | TooEarly | GamesPlayed
  | NotCasino | EnforcedPause | ExposureLimitReached | InsufficientLocked
  | OutOfFunds | Panic.

  (** What a transaction leaves behind besides storage: the events and the
      value transfers that went through. *)
Inductive Effect :=
  | ChannelOpened (agent : string) (agentDeposit : Z)
  | CasinoFunded (agent : string) (amount totalCasinoDeposit : Z)
  | ChannelClosed (agent : string) (agentPayout casinoPayout : Z)
  | WithdrawalPending (recipient : string) (amount : Z)
  | InsuranceDeposit (amount : Z)
  | Transfer (recipient : string) (amount : Z).

Record State := mkState {
    casino : string;
    paused : bool;
    channels : gmap string Channel;
    pendingWithdrawals : gmap string Z;
    balance : Z;
    totalLocked : Z;
    maxExposure : Z;
    fundBalance : Z;
    trace : list Effect;
  }.

Record Msg := mkMsg {
    sender : string;
    value : Z;
    timestamp : Z;
  }.

  (** The chain around the contract: whether an account accepts a plain
      value transfer, and ECDSA recovery on the EIP-712 digest of
      ChannelState(agent, agentBalance, casinoBalance, nonce); [None] is a
      malformed signature, on which recover reverts. *)
Class Chain := {
    accepts : string -> bool;
    recover : string -> Z -> Z -> Z -> string -> option string;
  }.

Definition UINT256_MAX : Z := 2 ^ 256 - 1.
Definition CHALLENGE_PERIOD : Z := 86400.
Definition MIN_DEPOSIT : Z := 10 ^ 15.
Definition MAX_DEPOSIT : Z := 10 * 10 ^ 18.
Definition MIN_CHANNEL_DURATION : Z := 3600.
Definition INSURANCE_BPS : Z := 1000.

Definition channel_of (s : State) (agent : string) : Channel :=
    default noChannel (channels s !! agent).

Definition checked_add (a b : Z) : Error + Z :=
    if a + b <=? UINT256_MAX then inr (a + b) else inl Panic.

Definition checked_mul (a b : Z) : Error + Z :=
    if a * b <=? UINT256_MAX then inr (a * b) else inl Panic.

Definition state_eqb (a b : ChannelState) : bool :=
    match a, b with
    | CSNone, CSNone | CSOpen, CSOpen | CSDisputed, CSDisputed
    | CSClosed, CSClosed => true
    | _, _ => false
    end.

Section Contract.
  Context `{Chain}.

Definition openChannel (m : Msg) (s : State) : Error + State :=
    if paused s then inl EnforcedPause
    else if (value m <? MIN_DEPOSIT) || (value m >? MAX_DEPOSIT) then
      inl InvalidDeposit
    else if negb (state_eqb (state (channel_of s (sender m))) CSNone) then
      inl ChannelExists
    else
      inr (mkState (casino s) (paused s)
        (<[sender m := mkCh (value m) 0 (value m) 0 0 (timestamp m) 0 CSOpen]>
           (channels s))
        (pendingWithdrawals s) (balance s + value m) (totalLocked s)
        (maxExposure s) (fundBalance s)
        (trace s ++ [ChannelOpened (sender m) (value m)])).

  (** BankrollManager.lockCollateral *)
Definition lockCollateral (amount : Z) (s : State) : Error + Z :=
    match checked_add (totalLocked s) amount with
    | inl e => inl e
    | inr total =>
        if total >? maxExposure s then inl ExposureLimitReached else inr total
    end.

  (** BankrollManager.unlockCollateral *)
Definition unlockCollateral (amount : Z) (s : State) : Error + Z :=
    if amount >? totalLocked s then inl InsufficientLocked
    else inr (totalLocked s - amount).

Definition fundCasinoSide (m : Msg) (agent : string) (s : State) : Error + State :=
    if negb (String.eqb (sender m) (casino s)) then inl NotCasino
    else
      let ch := channel_of s agent in
      if negb (state_eqb (state ch) CSOpen) then inl ChannelNotOpen
      else
        match lockCollateral (value m) s with
        | inl e => inl e
        | inr locked =>
            match checked_add (casinoDeposit ch) (value m),
                  checked_add (casinoBalance ch) (value m) with
            | inr dep, inr bal =>
                inr (mkState (casino s) (paused s)
                  (<[agent := mkCh (agentDeposit ch) dep (agentBalance ch) bal
                       (nonce ch) (openedAt ch) (disputeDeadline ch) (state ch)]>
                     (channels s))
                  (pendingWithdrawals s) (balance s + value m) locked
                  (maxExposure s) (fundBalance s)
                  (trace s ++ [CasinoFunded agent (value m) dep]))
            | _, _ => inl Panic
            end
        end.

Definition _checkBalanceInvariant (ch : Channel) (agentBalance casinoBalance : Z) :
      Error + unit :=
    match checked_add agentBalance casinoBalance,
          checked_add (agentDeposit ch) (casinoDeposit ch) with
    | inr balances, inr deposits =>
        if balances =? deposits then inr tt else inl BalanceMismatch
    | _, _ => inl Panic
    end.

Definition _verifyCasinoSig (s : State) (agent : string)
      (agentBalance casinoBalance nonce : Z) (signature : string) : Error + unit :=
    match recover agent agentBalance casinoBalance nonce signature with
    | Some signer =>
        if String.eqb signer (casino s) then inr tt else inl InvalidSignature
    | None => inl InvalidSignature
    end.

  (** payable(to).call{value: amount}(): goes through when the contract
      holds the amount and the recipient accepts it; otherwise the amount is
      credited to pendingWithdrawals. *)
Definition pay (to : string) (amount : Z) (s : State) : Error + State :=
    if amount >? 0 then
      if accepts to && (amount <=? balance s) then
        inr (mkState (casino s) (paused s) (channels s) (pendingWithdrawals s)
               (balance s - amount) (totalLocked s) (maxExposure s)
               (fundBalance s) (trace s ++ [Transfer to amount]))
      else
        match checked_add (default 0 (pendingWithdrawals s !! to)) amount with
        | inl e => inl e
        | inr owed =>
            inr (mkState (casino s) (paused s) (channels s)
                   (<[to := owed]> (pendingWithdrawals s))
                   (balance s) (totalLocked s) (maxExposure s)
                   (fundBalance s) (trace s ++ [WithdrawalPending to amount]))
        end
    else inr s.

Definition _settle (agent : string) (ch : Channel)
      (agentPayout casinoPayout : Z) (s : State) : Error + State :=
    let casinoDeposit := casinoDeposit ch in
    match (if casinoDeposit >? 0 then unlockCollateral casinoDeposit s
           else inr (totalLocked s)) with
    | inl e => inl e
    | inr locked =>
        match (if casinoPayout >? casinoDeposit then
                 checked_mul (casinoPayout - casinoDeposit) INSURANCE_BPS
               else inr 0) with
        | inl e => inl e
        | inr scaled =>
            let insuranceAmount := scaled / 10000 in
            let casinoPayout := casinoPayout - insuranceAmount in
            if (insuranceAmount >? 0) && (insuranceAmount >? balance s) then
              inl OutOfFunds
            else
              let s1 := mkState (casino s) (paused s) (delete agent (channels s))
                (pendingWithdrawals s)
                (balance s - insuranceAmount) locked (maxExposure s)
                (fundBalance s + insuranceAmount)
                (if insuranceAmount >? 0
                 then trace s ++ [InsuranceDeposit insuranceAmount]
                 else trace s) in
              match pay agent agentPayout s1 with
              | inl e => inl e
              | inr s2 =>
                  match pay (casino s) casinoPayout s2 with
                  | inl e => inl e
                  | inr s3 =>
                      inr (mkState (casino s3) (paused s3) (channels s3)
                             (pendingWithdrawals s3) (balance s3)
                             (totalLocked s3) (maxExposure s3) (fundBalance s3)
                             (trace s3 ++
                                [ChannelClosed agent agentPayout casinoPayout]))
                  end
              end
        end
    end.

Definition closeChannel (m : Msg) (agentBalance casinoBalance nonce_ : Z)
      (casinoSig : string) (s : State) : Error + State :=
    let ch := channel_of s (sender m) in
    if negb (state_eqb (state ch) CSOpen) then inl ChannelNotOpen
    else if nonce_ <=? nonce ch then inl StaleNonce
    else
      match _checkBalanceInvariant ch agentBalance casinoBalance with
      | inl e => inl e
      | inr _ =>
          match _verifyCasinoSig s (sender m) agentBalance casinoBalance
                  nonce_ casinoSig with
          | inl e => inl e
          | inr _ => _settle (sender m) ch agentBalance casinoBalance s
          end
      end.

Definition emergencyExit (m : Msg) (s : State) : Error + State :=
    let ch := channel_of s (sender m) in
    if negb (state_eqb (state ch) CSOpen) then inl ChannelNotOpen
    else if negb (nonce ch =? 0) then inl GamesPlayed
    else
      match checked_add (openedAt ch) MIN_CHANNEL_DURATION with
      | inl e => inl e
      | inr earliest =>
          if timestamp m <? earliest then inl TooEarly
          else _settle (sender m) ch (agentDeposit ch) (casinoDeposit ch) s
      end.

  (** The contract after deployment, before any channel. *)
Definition deployed (casino : string) (maxExposure : Z) : State :=
    mkState casino false ∅ ∅ 0 0 maxExposure 0 [].

End Contract.
End ChannelManager.

(** ** ChannelManager.sol: disputes and pull payments

    startChallenge, counterChallenge, resolveChallenge, withdrawPending and
    isPlayable, on the storage of [ChannelManager]. A call returns the
    storage it leaves and the Challenge event it emits, or the error it
    reverts with. *)

Module Disputes.
Import ChannelManager.

Inductive Revert :=
| Base (e : Error)
| ChannelNotDisputed | ChallengePeriodActive | ChallengeExpired
| NothingPending | TransferFailed.

Inductive Event :=
| ChallengeStarted (agent : string) (agentBalance nonce deadline : Z)
| ChallengeCountered (agent : string) (agentBalance nonce newDeadline : Z)
| ChallengeResolved (agent : string) (agentPayout casinoPayout : Z).

(** The storage with channels[agent] written. *)
Definition set_channel (agent : string) (ch : Channel) (s : State) : State :=
  mkState (casino s) (paused s) (<[agent := ch]> (channels s))
    (pendingWithdrawals s) (balance s) (totalLocked s) (maxExposure s)
    (fundBalance s) (trace s).

Section Contract.
  Context `{Chain}.

Definition startChallenge (m : Msg) (agentBalance casinoBalance nonce_ : Z)
    (casinoSig : string) (s : State) : Revert + State * Event :=
  let ch := channel_of s (sender m) in
  if negb (state_eqb (state ch) CSOpen) then inl (Base ChannelNotOpen)
  else if nonce_ <=? nonce ch then inl (Base StaleNonce)
  else
    match _checkBalanceInvariant ch agentBalance casinoBalance with
    | inl e => inl (Base e)
    | inr _ =>
        match _verifyCasinoSig s (sender m) agentBalance casinoBalance
                nonce_ casinoSig with
        | inl e => inl (Base e)
        | inr _ =>
            match checked_add (timestamp m) CHALLENGE_PERIOD with
            | inl e => inl (Base e)
            | inr deadline =>
                inr (set_channel (sender m)
                       (mkCh (agentDeposit ch) (casinoDeposit ch) agentBalance
                          casinoBalance nonce_ (openedAt ch) deadline
                          CSDisputed) s,
                     ChallengeStarted (sender m) agentBalance nonce_ deadline)
            end
        end
    end.

Definition counterChallenge (m : Msg) (agent : string)
    (agentBalance casinoBalance nonce_ : Z) (casinoSig : string) (s : State) :
    Revert + State * Event :=
  let ch := channel_of s agent in
  if negb (state_eqb (state ch) CSDisputed) then inl ChannelNotDisputed
  else if timestamp m >=? disputeDeadline ch then inl ChallengeExpired
  else if nonce_ <=? nonce ch then inl (Base StaleNonce)
  else
    match _checkBalanceInvariant ch agentBalance casinoBalance with
    | inl e => inl (Base e)
    | inr _ =>
        match _verifyCasinoSig s agent agentBalance casinoBalance
                nonce_ casinoSig with
        | inl e => inl (Base e)
        | inr _ =>
            match checked_add (timestamp m) CHALLENGE_PERIOD with
            | inl e => inl (Base e)
            | inr deadline =>
                inr (set_channel agent
                       (mkCh (agentDeposit ch) (casinoDeposit ch) agentBalance
                          casinoBalance nonce_ (openedAt ch) deadline
                          (state ch)) s,
                     ChallengeCountered agent agentBalance nonce_ deadline)
            end
        end
    end.

Definition resolveChallenge (m : Msg) (agent : string) (s : State) :
    Revert + State * Event :=
  let ch := channel_of s agent in
  if negb (state_eqb (state ch) CSDisputed) then inl ChannelNotDisputed
  else if timestamp m <? disputeDeadline ch then inl ChallengePeriodActive
  else
    let agentBal := agentBalance ch in
    let casinoBal := casinoBalance ch in
    match _settle agent ch agentBal casinoBal s with
    | inl e => inl (Base e)
    | inr s' => inr (s', ChallengeResolved agent agentBal casinoBal)
    end.

Definition withdrawPending (m : Msg) (s : State) : Revert + State :=
  let amount := default 0 (pendingWithdrawals s !! sender m) in
  if amount =? 0 then inl NothingPending
  else if accepts (sender m) && (amount <=? balance s) then
    inr (mkState (casino s) (paused s) (channels s)
           (<[sender m := 0]> (pendingWithdrawals s))
           (balance s - amount) (totalLocked s) (maxExposure s)
           (fundBalance s) (trace s ++ [Transfer (sender m) amount]))
  else inl TransferFailed.

Definition isPlayable (agent : string) (s : State) : bool :=
  let ch := channel_of s agent in
  state_eqb (state ch) CSOpen && (casinoDeposit ch >? 0).

End Contract.
End Disputes.

(** ** CasinoOwnable.sol

    The ownership base of the contracts. [canTransfer] is what the virtual
    _canTransfer() of the inheriting contract returns at the call. *)

Module CasinoOwnable.

Definition zero_address : string := "0x0000000000000000000000000000000000000000".
Definition OWNERSHIP_TRANSFER_DELAY : Z := 2 * 86400.

Record State := mkOwnable {
  casino : string;
  pendingCasino : string;
  transferRequestTime : Z;
}.

Inductive Revert :=
| NotCasino | TransferNotReady | NoPendingTransfer
| Require (reason : string)
| Panic.

Inductive Event :=
| OwnershipTransferRequested (from to : string) (executeAfter : Z)
| OwnershipTransferCompleted (oldOwner newOwner : string)
| OwnershipTransferCancelled (cancelledBy : string).

Definition checked_add (a b : Z) : Revert + Z :=
  if a + b <=? ChannelManager.UINT256_MAX then inr (a + b) else inl Panic.

Definition transferCasino (canTransfer : bool) (sender : string) (now : Z)
    (_new : string) (s : State) : Revert + State * Event :=
  if negb (String.eqb sender (casino s)) then inl NotCasino
  else if String.eqb _new zero_address then inl (Require "Zero address")
  else if String.eqb _new (casino s) then inl (Require "Already owner")
  else if negb canTransfer then inl (Require "Transfer blocked")
  else
    match checked_add now OWNERSHIP_TRANSFER_DELAY with
    | inl e => inl e
    | inr executeAfter =>
        inr (mkOwnable (casino s) _new now,
             OwnershipTransferRequested (casino s) _new executeAfter)
    end.

Definition acceptCasino (canTransfer : bool) (sender : string) (now : Z)
    (s : State) : Revert + State * Event :=
  if negb (String.eqb sender (pendingCasino s)) then inl (Require "Not pending")
  else if String.eqb (pendingCasino s) zero_address then
    inl (Require "No pending transfer")
  else
    match checked_add (transferRequestTime s) OWNERSHIP_TRANSFER_DELAY with
    | inl e => inl e
    | inr ready =>
        if now <? ready then inl TransferNotReady
        else if negb canTransfer then inl (Require "Transfer blocked")
        else
          let oldOwner := casino s in
          inr (mkOwnable (pendingCasino s) zero_address 0,
               OwnershipTransferCompleted oldOwner (pendingCasino s))
    end.

Definition cancelTransferCasino (sender : string) (s : State) :
    Revert + State * Event :=
  if negb (String.eqb sender (casino s)) then inl NotCasino
  else if String.eqb (pendingCasino s) zero_address then inl NoPendingTransfer
  else inr (mkOwnable (casino s) zero_address 0,
            OwnershipTransferCancelled sender).

(** A transaction to one of the three entry points. *)
Inductive Call :=
| TransferCasino (canTransfer : bool) (sender : string) (now : Z) (_new : string)
| AcceptCasino (canTransfer : bool) (sender : string) (now : Z)
| CancelTransferCasino (sender : string).

Definition call (c : Call) (s : State) : Revert + State * Event :=
  match c with
  | TransferCasino can sender now _new => transferCasino can sender now _new s
  | AcceptCasino can sender now => acceptCasino can sender now s
  | CancelTransferCasino sender => cancelTransferCasino sender s
  end.

(** The storage a transaction leaves: the one it found when it reverts. *)
Definition transact (c : Call) (s : State) : State :=
  match call c s with inr (s', _) => s' | inl _ => s end.

End CasinoOwnable.

(** ** InsuranceFund.sol

    The fund with its balance, the ChannelManager that may deposit, and the
    withdrawal request; the casino is the owner of CasinoOwnable. *)

Module InsuranceFund.

Definition WITHDRAWAL_DELAY : Z := 3 * 86400.

Record WithdrawalRequest := mkRequest {
  amount : Z;
  to : string;
  requestTime : Z;
}.

(** The value of the request after delete. *)
Definition noRequest : WithdrawalRequest := mkRequest 0 "" 0.

Record State := mkFund {
  casino : string;
  channelManager : string;
  balance : Z;
  withdrawalRequest : WithdrawalRequest;
}.

Inductive Revert :=
| NotCasino | TimelockActive | NoRequest | ExceedsFund | TransferFailed
| Require (reason : string)
| Panic.

Inductive Event :=
| FundDeposited (from : string) (amount totalFund : Z)
| WithdrawalRequested (amount : Z) (to : string) (executeAfter : Z)
| WithdrawalExecuted (amount : Z) (to : string)
| WithdrawalCancelled.

Definition checked_add (a b : Z) : Revert + Z :=
  if a + b <=? ChannelManager.UINT256_MAX then inr (a + b) else inl Panic.

Section Contract.
  Context `{ChannelManager.Chain}.

Definition deposit (sender : string) (value : Z) (s : State) :
    Revert + State * Event :=
  if negb (String.eqb sender (channelManager s)) then
    inl (Require "Only ChannelManager")
  else
    inr (mkFund (casino s) (channelManager s) (balance s + value)
           (withdrawalRequest s),
         FundDeposited sender value (balance s + value)).

Definition fundBalance (s : State) : Z := balance s.

(** receive() *)
Definition receive (value : Z) (s : State) : State :=
  mkFund (casino s) (channelManager s) (balance s + value) (withdrawalRequest s).

Definition requestWithdrawal (sender : string) (now : Z) (amount_ : Z)
    (to_ : string) (s : State) : Revert + State * Event :=
  if negb (String.eqb sender (casino s)) then inl NotCasino
  else if amount_ >? balance s then inl ExceedsFund
  else if String.eqb to_ CasinoOwnable.zero_address then
    inl (Require "Zero address")
  else
    match checked_add now WITHDRAWAL_DELAY with
    | inl e => inl e
    | inr executeAfter =>
        inr (mkFund (casino s) (channelManager s) (balance s)
               (mkRequest amount_ to_ now),
             WithdrawalRequested amount_ to_ executeAfter)
    end.

Definition executeWithdrawal (sender : string) (now : Z) (s : State) :
    Revert + State * Event :=
  if negb (String.eqb sender (casino s)) then inl NotCasino
  else if amount (withdrawalRequest s) =? 0 then inl NoRequest
  else
    match checked_add (requestTime (withdrawalRequest s)) WITHDRAWAL_DELAY with
    | inl e => inl e
    | inr ready =>
        if now <? ready then inl TimelockActive
        else
          let amount_ := amount (withdrawalRequest s) in
          let to_ := to (withdrawalRequest s) in
          if ChannelManager.accepts to_ && (amount_ <=? balance s) then
            inr (mkFund (casino s) (channelManager s) (balance s - amount_)
                   noRequest,
                 WithdrawalExecuted amount_ to_)
          else inl TransferFailed
    end.

Definition cancelWithdrawal (sender : string) (s : State) :
    Revert + State * Event :=
  if negb (String.eqb sender (casino s)) then inl NotCasino
  else if amount (withdrawalRequest s) =? 0 then inl NoRequest
  else inr (mkFund (casino s) (channelManager s) (balance s) noRequest,
            WithdrawalCancelled).

(** A transaction to the fund. *)
Inductive Call :=
| Deposit (sender : string) (value : Z)
| Receive (value : Z)
| RequestWithdrawal (sender : string) (now : Z) (amount : Z) (to : string)
| ExecuteWithdrawal (sender : string) (now : Z)
| CancelWithdrawal (sender : string).


(** The storage a transaction leaves: the one it found when it reverts. *)
Definition transact (c : Call) (s : State) : State :=
  let committed r := match r with inr (s', _) => s' | inl _ => s end in
  match c with
  | Deposit sender value => committed (deposit sender value s)
  | Receive value => receive value s
  | RequestWithdrawal sender now amount_ to_ =>
      committed (requestWithdrawal sender now amount_ to_ s)
  | ExecuteWithdrawal sender now => committed (executeWithdrawal sender now s)
  | CancelWithdrawal sender => committed (cancelWithdrawal sender s)
  end.

End Contract.
End InsuranceFund.

(** ** Properties of the specification, as predicates on the model *)

(** I1: the balances of a channel add up to its deposits. *)
Definition conserved (ch : Channel) : Prop :=
  agentBalance ch + casinoBalance ch = agentDeposit ch + casinoDeposit ch.

(** [ch'] is [ch] after [x] wei moved from the house to the agent (from the
    agent to the house when [x] is negative); the deposits are untouched. *)
Definition transfer (x : Z) (ch ch' : Channel) : Prop :=
  agentBalance ch' = agentBalance ch + x /\
  casinoBalance ch' = casinoBalance ch - x /\
  agentDeposit ch' = agentDeposit ch /\
  casinoDeposit ch' = casinoDeposit ch /\
  agent ch' = agent ch.

(** The channel table after an action on the channel of [a]: unchanged, or
    the entry of [a] replaced by a transfer of itself. *)
Definition moved (a : string) (e e' : GamingEngine) : Prop :=
  channels e' = channels e \/
  exists x ch ch',
    channels e !! a = Some ch /\ transfer x ch ch' /\
    channels e' = <[a := ch']> (channels e).

(** I2 on one channel. *)
Definition non_negative (ch : Channel) : Prop :=
  0 <= agentBalance ch /\ 0 <= casinoBalance ch.

(** What the engine keeps true of its tables: the channel stored under an
    address carries that address and has non-negative balances, a pending
    commit holds a positive bet, and an unclaimed amount is positive. *)
Record engine_ok (e : GamingEngine) : Prop := mk_engine_ok {
  ok_channels :
    map_Forall (fun a ch => agent ch = a /\ non_negative ch) (channels e);
  ok_pending : map_Forall (fun _ pc => 0 < betWei pc) (pendingCommits e);
  ok_unclaimed : map_Forall (fun _ v => 0 < v) (unclaimedWinnings (lotto e));
}.

(** The engine operations that change balances, on the channel of [a]. *)
Inductive Mutation :=
| SlotsReveal (now : Z) (params : Params)
| CoinflipReveal (now : Z) (params : Params)
| LottoBuy (now : Z) (params : Params)
| LottoClaim
| ApplyWinnings (payoutWei : Z).

(** The error an action threw, if it did. *)
Definition thrown {A} (r : Res A) : option string :=
  match r with Ok _ => None | Throw msg => Some msg end.

Definition outcome {A} (r : Res A * GamingEngine) : option string * GamingEngine :=
  (thrown (fst r), snd r).

(** Runs a mutation; the first component is the error, if it threw. *)
Definition mutate `{Platform} (m : Mutation) (a : string) (e : GamingEngine) :
    option string * GamingEngine :=
  match m with
  | SlotsReveal now p => outcome (SlotsGame._reveal now a p e)
  | CoinflipReveal now p => outcome (CoinflipGame._reveal now a p e)
  | LottoBuy now p => outcome (LottoGame._buy now a p e)
  | LottoClaim => outcome (LottoGame._claim a e)
  | ApplyWinnings payoutWei => outcome (LottoGame.applyWinnings a payoutWei e)
  end.

(** What a failed signature request leaves of a mutation of [ch], given
    the error [r] of the run and its final state: the channel with the
    nonce moved by one and the transfer applied, the state whose signature
    was refused. *)
Definition kept_update `{Platform} (a : string) (ch : Channel)
    (r : option string) (e' : GamingEngine) : Prop :=
  r = Some "signTypedData failed" ->
  exists x ch',
    channels e' !! a = Some ch' /\
    nonce ch' = nonce ch + 1 /\
    agentBalance ch' = agentBalance ch + x /\
    casinoBalance ch' = casinoBalance ch - x /\
    signTypedData (agent ch') (agentBalance ch') (casinoBalance ch') (nonce ch')
      = None.

(** The characters of a string. *)
Fixpoint chars (s : string) : list ascii :=
  match s with
  | EmptyString => []
  | String c s' => c :: chars s'
  end.

(** What a mutation of [ch] that returned leaves: the channel with the
    nonce moved by one, and a signature obtained over that state. *)
Definition signed_update `{Platform} (a : string) (ch : Channel)
    (e' : GamingEngine) : Prop :=
  exists ch' sig,
    channels e' !! a = Some ch' /\
    nonce ch' = nonce ch + 1 /\
    signTypedData (agent ch') (agentBalance ch') (casinoBalance ch') (nonce ch')
      = Some sig.

(** A sequence of operations is legal when every channel is opened with
    non-negative deposits. *)
Definition legal_op (op : Engine.Op) : Prop :=
  match op with
  | Engine.OpenChannel _ agentDeposit casinoDeposit =>
      0 <= default 0 agentDeposit /\ 0 <= default 0 casinoDeposit
  | _ => True
  end.

(** Spec 4.4.1: a value below 100 mapped through the cumulative weights of
    {30, 25, 20, 15, 10}. *)
Definition weight_bucket (v : Z) : Z :=
  if v <? 30 then 0
  else if v <? 55 then 1
  else if v <? 75 then 2
  else if v <? 90 then 3
  else 4.

(** Spec 4.4.1: PAYOUTS = {5, 10, 25, 50, 290} by reel index. *)
Definition payout_multiplier (reel : Z) : Z :=
  if reel =? 0 then 5
  else if reel =? 1 then 10
  else if reel =? 2 then 25
  else if reel =? 3 then 50
  else 290.

(** Spec 4.4.3: the number of an agent's tickets that match the draw. *)
Definition matching_tickets (winning : Z) (d : Draw) (ag : string) : Z :=
  Z.of_nat (length (filter (fun t => t = winning)
                      (default [] (Map_get ag (tickets d))))).

(** The key of a pending commit, as both games build it. *)
Definition commitKey (ag gameName : string) : string :=
  ag +:+ ":" +:+ gameName.

(** ** A platform with a fixed digest, to run the model on examples *)

Definition fixed_platform (d : byte)
    (signer : string -> Z -> Z -> Z -> option string) : Platform :=
  {| sha256 := fun _ => replicate 32 d;
     sha256_length := fun _ => length_replicate 32 d;
     randomBytes := fun _ => replicate 32 x00;
     signTypedData := signer |}.

Definition signer_ok : string -> Z -> Z -> Z -> option string :=
  fun a _ _ n => Some ("signed:" +:+ a +:+ ":" +:+ pretty n).

Definition signer_down : string -> Z -> Z -> Z -> option string :=
  fun _ _ _ _ => None.

Definition alice : string := "0x1111111111111111111111111111111111111111".
Definition house : string := "0x00000000000000000000000000000000000000aa".

Definition no_params : Params := mkParams None "" "" 0 None 0.
Definition bet_params (wei : Z) (choice agentSeed : string) : Params :=
  mkParams (Some wei) choice agentSeed 0 None 0.
Definition ticket_params (pick count : Z) : Params :=
  mkParams None "" "" pick (Some count) 0.

(** A chain on which every account accepts transfers and a signature
    recovers to the house exactly when it is the text [signer_ok] makes. *)
Definition fixed_chain : ChannelManager.Chain :=
  {| ChannelManager.accepts := fun _ => true;
     ChannelManager.recover := fun a ab cb n sig =>
       if bool_decide (signer_ok a ab cb n = Some sig) then Some house
       else Some "0x0" |}.

(** ** States used in the examples *)

Definition up_platform : Platform := fixed_platform x00 signer_ok.
Definition down_platform : Platform := fixed_platform x00 signer_down.

(** A fresh engine on which alice opened 1 ether against 5 ether. *)
Definition table (P : Platform) : GamingEngine :=
  @Engine.run_ops P
    [(0, Engine.OpenChannel alice (Some (10 ^ 18)) (Some (5 * 10 ^ 18)))]
    (@Engine.createEngine P 0).

Definition alice_channel : Channel :=
  mkChannel alice (10 ^ 18) (5 * 10 ^ 18) (10 ^ 18) (5 * 10 ^ 18) 0 [] 0.

Definition spin_params : Params := bet_params (10 ^ 15) "" "agent-seed".
Definition flip_params : Params := bet_params (10 ^ 15) "heads" "agent-seed".

(** The same, with a slots commit of 0.001 ether pending. *)
Definition spinning (P : Platform) : GamingEngine :=
  @Engine.run_ops P
    [(1, Engine.HandleGameAction "slots_commit" alice spin_params)] (table P).

(** The same, with a coinflip commit of 0.001 ether on heads pending. *)
Definition flipping (P : Platform) : GamingEngine :=
  @Engine.run_ops P
    [(1, Engine.HandleGameAction "coinflip_commit" alice flip_params)] (table P).

(** A busy afternoon: a coinflip won, ten lotto tickets on number 1, and
    the draw, which this platform's digest makes number 1. *)
Definition busy_ops : list (Z * Engine.Op) :=
  [(0, Engine.OpenChannel alice (Some (10 ^ 18)) (Some (5 * 10 ^ 18)));
   (1, Engine.HandleGameAction "coinflip_commit" alice flip_params);
   (2, Engine.HandleGameAction "lotto_buy" alice (ticket_params 1 10));
   (3, Engine.HandleGameAction "coinflip_reveal" alice flip_params);
   (21600001, Engine.RunScheduledTasks)].

Definition busy_channel : Channel :=
  mkChannel alice (10 ^ 18) (5 * 10 ^ 18) 1840900000000000000
    4159100000000000000 3
    [LottoRound 1 1 1 10 (10 ^ 16) 2;
     CoinflipRound 2 (10 ^ 15) "heads" "heads" true 1900000000000000 3] 0.

(** A channel whose house side holds less than twice the slots multiplier. *)
Definition thin_house : Channel :=
  mkChannel alice (10 ^ 18) 579 (10 ^ 18) 579 0 [] 0.

(** Attack 2 of test/attack-simulation.js: a slots commit of 0.05 ether on
    a channel of 0.1 ether against 50 ether, then the balance drained below
    that bet by a coinflip of 0.06 ether on tails, which this platform's
    digest makes heads. *)
Definition drain_ops : list (Z * Engine.Op) :=
  [(0, Engine.OpenChannel alice (Some (10 ^ 17)) (Some (5 * 10 ^ 19)));
   (1, Engine.HandleGameAction "slots_commit" alice
         (bet_params (5 * 10 ^ 16) "" "agent-seed"));
   (2, Engine.HandleGameAction "coinflip_commit" alice
         (bet_params (6 * 10 ^ 16) "tails" "agent-seed"));
   (3, Engine.HandleGameAction "coinflip_reveal" alice
         (bet_params (6 * 10 ^ 16) "tails" "agent-seed"))].

Definition drained (P : Platform) : GamingEngine :=
  @Engine.run_ops P drain_ops (@Engine.createEngine P 0).

(** The signature [signer_ok] gives alice's channel at nonce 0. *)
Definition alice_sig : string :=
  "signed:0x1111111111111111111111111111111111111111:0".

(** Scenario S4: a ticket on number 1, the channel closed before the
    draw; then the draw at its time and a new channel. *)
Definition waiting_ops : list (Z * Engine.Op) :=
  [(0, Engine.OpenChannel alice (Some (10 ^ 17)) (Some (10 ^ 17)));
   (1, Engine.HandleGameAction "lotto_buy" alice (ticket_params 1 1));
   (2, Engine.CloseChannel alice)].

Definition waiting (P : Platform) : GamingEngine :=
  @Engine.run_ops P waiting_ops (@Engine.createEngine P 0).

Definition reopened (P : Platform) : GamingEngine :=
  @Engine.run_ops P
    [(21600001, Engine.RunScheduledTasks);
     (21600002, Engine.OpenChannel alice (Some (10 ^ 17)) (Some (10 ^ 17)))]
    (waiting P).

Definition first_draw : Draw :=
  mkDraw 1 (hex_of_bytes (replicate 32 x00)) (hex_of_bytes (replicate 32 x00))
    21600000 [(alice, [1])] (10 ^ 15) None false None.

Definition second_channel : Channel :=
  mkChannel alice (10 ^ 17) (10 ^ 17) (10 ^ 17) (10 ^ 17) 0 [] 21600002.

(** ** Scenario S1 on chain: 0.01 ether from each side, no game *)

Definition ether_001 : Z := 10 ^ 16.

(** The contract after the agent's openChannel at time [t1]. *)
Definition opened (cas ag : string) (cap t1 : Z) : ChannelManager.State :=
  ChannelManager.mkState cas false
    {[ ag := ChannelManager.mkCh ether_001 0 ether_001 0 0 t1 0
               ChannelManager.CSOpen ]}
    ∅ ether_001 0 cap 0 [ChannelManager.ChannelOpened ag ether_001].

(** The contract after the house's fundCasinoSide. *)
Definition funded (cas ag : string) (cap t1 : Z) : ChannelManager.State :=
  ChannelManager.mkState cas false
    {[ ag := ChannelManager.mkCh ether_001 ether_001 ether_001 ether_001 0 t1 0
               ChannelManager.CSOpen ]}
    ∅ (ether_001 + ether_001) ether_001 cap 0
    [ChannelManager.ChannelOpened ag ether_001;
     ChannelManager.CasinoFunded ag ether_001 ether_001].

(** The contract after the settlement: 0.01 ether sent to each side,
    nothing to the insurance fund, the channel and the collateral gone. *)
Definition settled (cas ag : string) (cap t1 : Z) : ChannelManager.State :=
  ChannelManager.mkState cas false ∅ ∅ 0 0 cap 0
    [ChannelManager.ChannelOpened ag ether_001;
     ChannelManager.CasinoFunded ag ether_001 ether_001;
     ChannelManager.Transfer ag ether_001;
     ChannelManager.Transfer cas ether_001;
     ChannelManager.ChannelClosed ag ether_001 ether_001].

(** ** Further predicates and helpers for the properties of the code *)

(** The proof object a reveal returns, if the result is one. *)
Definition reveal_proof (r : Result) : option RevealProof :=
  match r with
  | RSlotsReveal _ _ _ _ _ _ _ _ proof => Some proof
  | RCoinflipReveal _ _ _ _ _ _ _ _ proof => Some proof
  | _ => None
  end.

(** Every channel of the table satisfies I1. *)
Definition all_conserved (e : GamingEngine) : Prop :=
  map_Forall (fun _ ch => conserved ch) (channels e).

(** What the lotto keeps true of an agent's tickets in a draw. *)
Definition ticket_ok (t : string * list Z) : Prop :=
  Z.of_nat (length (snd t)) <= LottoGame.MAX_TICKETS_PER_DRAW /\
  Forall (fun n => 1 <= n <= LottoGame.RANGE) (snd t).

(** What the lotto keeps true of the draw stored under an id, with
    [current] the id of the draw that sells tickets. *)
Record draw_ok `{Platform} (current : Z) (p : Z * Draw) : Prop := mk_draw_ok {
  dk_id : drawId (snd p) = fst p;
  dk_range : 1 <= fst p <= current;
  dk_open : drawn (snd p) = negb (fst p =? current);
  dk_fair :
    CommitReveal.verify (commitment (snd p)) (d_casinoSeed (snd p)) = true;
  dk_agents : NoDup (map fst (tickets (snd p)));
  dk_tickets : Forall ticket_ok (tickets (snd p));
  dk_pool :
    totalPool (snd p)
    = LottoGame.TICKET_PRICE * LottoGame.total_tickets (snd p);
  dk_number :
    if drawn (snd p)
    then exists w, winningNumber (snd p) = Some w /\ 1 <= w <= LottoGame.RANGE
    else winningNumber (snd p) = None;
}.

(** What the lotto keeps true of its fields. *)
Record lotto_ok `{Platform} (L : LottoState) : Prop := mk_lotto_ok {
  lk_ids : NoDup (map fst (draws L));
  lk_draws : Forall (draw_ok (currentDrawId L)) (draws L);
  lk_current : is_Some (Map_get (currentDrawId L) (draws L));
  lk_wagered :
    totalWagered (lotto_stats L) = LottoGame.TICKET_PRICE * totalTicketsSold L;
}.

(** The draws of [ds] are still in [ds'], under the same ids and with the
    seeds and commitments they had. *)
Definition same_draws (ds ds' : list (Z * Draw)) : Prop :=
  forall id d,
    Map_get id ds = Some d ->
    exists d',
      Map_get id ds' = Some d' /\
      commitment d' = commitment d /\ d_casinoSeed d' = d_casinoSeed d.

Definition draws_kept (e0 e : GamingEngine) : Prop :=
  same_draws (draws (lotto e0)) (draws (lotto e)).

(** The lotto of a running engine, relative to an earlier state [e0]. *)
Definition lotto_since `{Platform} (e0 e : GamingEngine) : Prop :=
  lotto_ok (lotto e) /\ draws_kept e0 e.

(** The draw that sells tickets is not due at [now]. *)
Definition not_due (now : Z) (L : LottoState) : Prop :=
  exists d, Map_get (currentDrawId L) (draws L) = Some d /\ now < drawTime d.

(** The test of getPendingDraws. *)
Definition is_due (now : Z) (p : Z * Draw) : bool :=
  negb (drawn (snd p)) && (drawTime (snd p) <=? now).

(** get rtp() of the three games. *)
Definition rtp (g : Plugin) : Q :=
  match g with
  | Slots => 95 # 100
  | Lotto => 85 # 100
  | Coinflip => 95 # 100
  end.

(** The multiplier that SlotsGame._reveal gives three reel values. *)
Definition line_multiplier (r0 r1 r2 : Z) : Z :=
  let reel0 := SlotsGame._getSymbol r0 in
  let reel1 := SlotsGame._getSymbol r1 in
  let reel2 := SlotsGame._getSymbol r2 in
  if (reel0 =? reel1) && (reel1 =? reel2)
  then nth (Z.to_nat reel0) SlotsGame.PAYOUTS 0 else 0.

(** The multipliers of all lines over the reel values below [n], added up. *)
Definition total_multiplier (n : nat) : Z :=
  let values := map Z.of_nat (seq 0 n) in
  fold_left (fun acc r0 =>
    fold_left (fun acc r1 =>
      fold_left (fun acc r2 => acc + line_multiplier r0 r1 r2) values acc)
      values acc)
    values 0.

(** The hex string of 32 zero bytes: every seed and digest of the example
    platform. *)
Definition zero_hex : string := hex_of_bytes (replicate 32 x00).

(** The parameters of a lotto_history request. *)
Definition history_params (id : Z) : Params := mkParams None "" "" 0 None id.

(** ** The contracts over transactions: predicates and examples *)

(** What the contract owes an account in pendingWithdrawals. *)
Definition owed (s : ChannelManager.State) (account : string) : Z :=
  default 0 (ChannelManager.pendingWithdrawals s !! account).


(** The storage with the pause flag set to [b]. *)
Definition set_paused (b : bool) (s : ChannelManager.State) : ChannelManager.State :=
  ChannelManager.mkState (ChannelManager.casino s) b (ChannelManager.channels s)
    (ChannelManager.pendingWithdrawals s) (ChannelManager.balance s)
    (ChannelManager.totalLocked s) (ChannelManager.maxExposure s)
    (ChannelManager.fundBalance s) (ChannelManager.trace s).

(** The sum of [f] over the entries of a mapping. *)
Definition total {A} (f : A -> Z) (m : gmap string A) : Z :=
  map_fold (fun _ v acc => f v + acc) 0 m.

(** The deposits a channel holds in the contract. *)
Definition held (ch : ChannelManager.Channel) : Z :=
  ChannelManager.agentDeposit ch + ChannelManager.casinoDeposit ch.

(** What the contract owes: the deposits of the stored channels and the
    pending withdrawals. *)
Definition liabilities (s : ChannelManager.State) : Z :=
  total held (ChannelManager.channels s)
  + total id (ChannelManager.pendingWithdrawals s).

Record channel_ok (ch : ChannelManager.Channel) : Prop := mk_channel_ok {
  ok_state : ChannelManager.state ch = ChannelManager.CSOpen \/
             ChannelManager.state ch = ChannelManager.CSDisputed;
  ok_agentDeposit : 0 <= ChannelManager.agentDeposit ch;
  ok_casinoDeposit : 0 <= ChannelManager.casinoDeposit ch;
  ok_agentBalance : 0 <= ChannelManager.agentBalance ch;
  ok_casinoBalance : 0 <= ChannelManager.casinoBalance ch;
  ok_conserved :
    ChannelManager.agentBalance ch + ChannelManager.casinoBalance ch = held ch;
}.

(** What the contract keeps true of its storage: every stored channel is
    open or disputed with balances that add up to its deposits, pending
    withdrawals are not negative, the collateral locked in the bankroll
    manager is the casino deposits of the stored channels, and the contract
    holds what it owes. *)
Record solvent (s : ChannelManager.State) : Prop := mk_solvent {
  sv_channels : map_Forall (fun _ ch => channel_ok ch) (ChannelManager.channels s);
  sv_pending : map_Forall (fun _ v => 0 <= v) (ChannelManager.pendingWithdrawals s);
  sv_locked : ChannelManager.totalLocked s
              = total ChannelManager.casinoDeposit (ChannelManager.channels s);
  sv_balance : ChannelManager.balance s = liabilities s;
}.

(** A transaction sent to the contract. *)
Inductive Call :=
| COpenChannel (m : ChannelManager.Msg)
| CFundCasinoSide (m : ChannelManager.Msg) (agent : string)
| CCloseChannel (m : ChannelManager.Msg) (agentBalance casinoBalance nonce : Z)
    (casinoSig : string)
| CStartChallenge (m : ChannelManager.Msg) (agentBalance casinoBalance nonce : Z)
    (casinoSig : string)
| CCounterChallenge (m : ChannelManager.Msg) (agent : string)
    (agentBalance casinoBalance nonce : Z) (casinoSig : string)
| CResolveChallenge (m : ChannelManager.Msg) (agent : string)
| CEmergencyExit (m : ChannelManager.Msg)
| CWithdrawPending (m : ChannelManager.Msg).

(** The arguments of a transaction are unsigned. *)
Definition unsigned_args (c : Call) : Prop :=
  match c with
  | COpenChannel m | CFundCasinoSide m _ => 0 <= ChannelManager.value m
  | CCloseChannel _ ab cb _ _ | CStartChallenge _ ab cb _ _
  | CCounterChallenge _ _ ab cb _ _ => 0 <= ab /\ 0 <= cb
  | CResolveChallenge _ _ | CEmergencyExit _ | CWithdrawPending _ => True
  end.

(** The storage a transaction leaves: the one it found when it reverts. *)
Definition committed {E} (r : E + ChannelManager.State) (s : ChannelManager.State) :
    ChannelManager.State :=
  match r with inr s' => s' | inl _ => s end.

Definition transact `{ChannelManager.Chain} (c : Call) (s : ChannelManager.State) :
    ChannelManager.State :=
  match c with
  | COpenChannel m => committed (ChannelManager.openChannel m s) s
  | CFundCasinoSide m agent => committed (ChannelManager.fundCasinoSide m agent s) s
  | CCloseChannel m ab cb n sig =>
      committed (ChannelManager.closeChannel m ab cb n sig s) s
  | CStartChallenge m ab cb n sig =>
      committed (sum_map id fst (Disputes.startChallenge m ab cb n sig s)) s
  | CCounterChallenge m agent ab cb n sig =>
      committed (sum_map id fst (Disputes.counterChallenge m agent ab cb n sig s)) s
  | CResolveChallenge m agent =>
      committed (sum_map id fst (Disputes.resolveChallenge m agent s)) s
  | CEmergencyExit m => committed (ChannelManager.emergencyExit m s) s
  | CWithdrawPending m => committed (Disputes.withdrawPending m s) s
  end.

Definition transact_all `{ChannelManager.Chain} (cs : list Call)
    (s : ChannelManager.State) : ChannelManager.State :=
  fold_left (fun s' c => transact c s') cs s.

(** The contract after alice opened with 0.1 ether and the house funded
    50 ether, the deposits of [drain_ops]. *)
Definition drain_contract : ChannelManager.State :=
  @transact_all fixed_chain
    [COpenChannel (ChannelManager.mkMsg alice (10 ^ 17) 100);
     CFundCasinoSide (ChannelManager.mkMsg house (5 * 10 ^ 19) 200) alice]
    (ChannelManager.deployed house (10 ^ 20)).

(** The channel of [funded]. *)
Definition funded_channel : ChannelManager.Channel :=
  ChannelManager.mkCh ether_001 ether_001 ether_001 ether_001 0 100 0
    ChannelManager.CSOpen.

(** [funded] after alice challenged at time 5000 with the state of nonce 3
    that gives her 0.015 ether. *)
Definition challenged : ChannelManager.State :=
  Disputes.set_channel alice
    (ChannelManager.mkCh ether_001 ether_001 (15 * 10 ^ 15) (5 * 10 ^ 15) 3
       100 (5000 + ChannelManager.CHALLENGE_PERIOD) ChannelManager.CSDisputed)
    (funded house alice (10 ^ 18) 100).

Definition bob : string := "0x2222222222222222222222222222222222222222".

(** ** Reasoning on actions: the outcome and final state of a run *)

Definition wp {A} (m : M A) (e : GamingEngine)
    (Q : Res A -> GamingEngine -> Prop) : Prop :=
  Q (fst (m e)) (snd (m e)).

(** * Proofs *)

(** ** Hex strings and Buffer reads *)

Lemma Buffer_from_hex_byte (b : byte) (s : string) :
  Buffer_from_hex (hex_of_byte b +:+ s) = b :: Buffer_from_hex s.
Proof. destruct b; reflexivity. Qed.

Lemma Buffer_from_hex_of_bytes (l : list byte) :
  Buffer_from_hex (hex_of_bytes l) = l.
Proof.
  induction l as [|b l IH]; [reflexivity|].
  cbn [hex_of_bytes]. rewrite Buffer_from_hex_byte. now rewrite IH.
Qed.

Lemma byteZ_range (b : byte) : 0 <= byteZ b < 256.
Proof. destruct b; vm_compute; split; congruence. Qed.

Lemma readUInt32BE_range (buf : list byte) (off : nat) (v : Z) :
  readUInt32BE buf off = Some v -> 0 <= v < 2 ^ 32.
Proof.
  unfold readUInt32BE.
  destruct (drop off buf) as [|b0 [|b1 [|b2 [|b3 ?]]]]; try discriminate.
  intros [= <-].
  pose proof (byteZ_range b0). pose proof (byteZ_range b1).
  pose proof (byteZ_range b2). pose proof (byteZ_range b3). lia.
Qed.

Lemma readUInt32BE_in_range (buf : list byte) (off : nat) :
  (off + 4 <= length buf)%nat -> is_Some (readUInt32BE buf off).
Proof.
  intros Hlen. unfold readUInt32BE.
  pose proof (length_drop buf off) as Hd.
  destruct (drop off buf) as [|b0 [|b1 [|b2 [|b3 ?]]]]; simpl in Hd; try lia.
  eauto.
Qed.

(** The buffer a game decodes from resultHash is the digest itself, and
    every aligned read of it succeeds. *)
Lemma resultHash_buffer `{Platform} (casinoSeed agentSeed : string) (n : Z) :
  Buffer_from_hex
    (CommitReveal.resultHash
       (CommitReveal.proof_of (CommitReveal.computeResult casinoSeed agentSeed n)))
  = sha256 (casinoSeed +:+ ":" +:+ agentSeed +:+ ":" +:+ pretty n).
Proof. cbn. apply Buffer_from_hex_of_bytes. Qed.

Lemma digest_read `{Platform} (s : string) (off : nat) :
  (off + 4 <= 32)%nat ->
  exists v, readUInt32BE (sha256 s) off = Some v /\ 0 <= v < 2 ^ 32.
Proof.
  intros Hoff.
  destruct (readUInt32BE_in_range (sha256 s) off) as [v Hv].
  - rewrite sha256_length. exact Hoff.
  - exists v. split; [exact Hv|]. eapply readUInt32BE_range, Hv.
Qed.

(** ** Rules for running actions *)

Lemma wp_bind {A B} (m : M A) (k : A -> M B) e Q :
  wp m e (fun r e' =>
    match r with
    | Ok a => wp (k a) e' Q
    | Throw msg => Q (Throw msg) e'
    end) ->
  wp (bind m k) e Q.
Proof. unfold wp, bind. destruct (m e) as [[x|msg] e']; auto. Qed.

Lemma wp_conseq {A} (m : M A) e (Q Q' : Res A -> GamingEngine -> Prop) :
  wp m e Q -> (forall r e', Q r e' -> Q' r e') -> wp m e Q'.
Proof. unfold wp. auto. Qed.

Lemma wp_ret {A} (x : A) e (Q : Res A -> GamingEngine -> Prop) :
  Q (Ok x) e -> wp (ret x) e Q.
Proof. auto. Qed.

Lemma wp_throw {A} msg e (Q : Res A -> GamingEngine -> Prop) :
  Q (Throw msg) e -> wp (throw msg) e Q.
Proof. auto. Qed.

Lemma wp_gets {A} (f : GamingEngine -> A) e Q :
  Q (Ok (f e)) e -> wp (gets f) e Q.
Proof. auto. Qed.

Lemma wp_modify f e Q : Q (Ok tt) (f e) -> wp (modify f) e Q.
Proof. auto. Qed.

Lemma wp_lift_res {A} (r : Res A) e Q : Q r e -> wp (lift_res r) e Q.
Proof. auto. Qed.

Lemma wp_try_catch {A} (m : M A) e Q :
  wp m e (fun r e' =>
    Q (Ok (match r with Ok a => Some a | Throw _ => None end)) e') ->
  wp (try_catch m) e Q.
Proof. unfold wp, try_catch. destruct (m e) as [[x|msg] e']; auto. Qed.

Lemma wp_readChannel a e Q :
  match channels e !! a with
  | Some ch => Q (Ok ch) e
  | None => Q (Throw "Channel not found") e
  end ->
  wp (readChannel a) e Q.
Proof. unfold wp, readChannel. destruct (channels e !! a); auto. Qed.

Lemma wp_writeChannel a ch e Q :
  Q (Ok tt) (set_channels (insert a ch) e) -> wp (writeChannel a ch) e Q.
Proof. auto. Qed.

Lemma wp_read32 buf off e Q :
  match readUInt32BE buf off with
  | Some v => Q (Ok v) e
  | None => Q (Throw "RangeError") e
  end ->
  wp (read32 buf off) e Q.
Proof. unfold wp, read32. destruct (readUInt32BE buf off); auto. Qed.

Lemma wp_signState `{Platform} a ab cb n e Q :
  match signTypedData a ab cb n with
  | Some sig => Q (Ok sig) e
  | None => Q (Throw "signTypedData failed") e
  end ->
  wp (signState a ab cb n) e Q.
Proof. unfold wp, signState. destruct (signTypedData a ab cb n); auto. Qed.

Lemma wp_ctx_commit `{Platform} e Q :
  Q (Ok (CommitReveal.commit (randomBytes (rngCalls e)))) (set_rngCalls S e) ->
  wp ctx_commit e Q.
Proof. auto. Qed.

(** Moves a leading [let] of the action into the context. *)
Ltac wp_let :=
  lazymatch goal with
  | |- wp (let x := ?v in @?m x) ?e ?Q =>
      let y := fresh x in
      change (let y := v in wp (m y) e Q); intro y; lazy beta
  end.

(** One step of an action: sequencing, a primitive, a binding or a branch. *)
Ltac wp_step :=
  lazymatch goal with
  | |- wp (bind _ _) _ _ => apply wp_bind
  | |- wp (ret _) _ _ => apply wp_ret; lazy beta iota
  | |- wp (throw _) _ _ => apply wp_throw; lazy beta iota
  | |- wp (gets _) _ _ => apply wp_gets; lazy beta iota
  | |- wp (modify _) _ _ => apply wp_modify; lazy beta iota
  | |- wp (lift_res _) _ _ => apply wp_lift_res
  | |- wp (readChannel _) _ _ => apply wp_readChannel
  | |- wp (writeChannel _ _) _ _ => apply wp_writeChannel; lazy beta iota
  | |- wp (signState _ _ _ _) _ _ => apply wp_signState
  | |- wp (read32 _ _) _ _ => apply wp_read32
  | |- wp ctx_commit _ _ => apply wp_ctx_commit; lazy beta iota
  | |- wp (let _ := _ in _) _ _ => wp_let
  | |- wp (match ?x with _ => _ end) _ _ => destruct x eqn:?
  | |- match ?x with _ => _ end => destruct x eqn:?; lazy beta iota
  end.

(** Projections of an engine after writes to its fields, and of a channel
    after an update. *)
Ltac fields :=
  cbn [channels pendingCommits slots_stats coinflip_stats lotto rngCalls
       set_channels set_pendingCommits set_slots_stats set_coinflip_stats
       set_lotto set_rngCalls
       draws currentDrawId unclaimedWinnings totalTicketsSold totalDraws
       lotto_stats LottoGame.set_draws LottoGame.set_unclaimed
       LottoGame.set_lotto_stats
       agent agentDeposit casinoDeposit agentBalance casinoBalance nonce
       games createdAt with_state push_game fst snd] in *.

(** ** Balance updates are transfers (I1) *)

Lemma moved_lookup a e e' b ch :
  moved a e e' -> channels e !! b = Some ch ->
  exists x ch', channels e' !! b = Some ch' /\ transfer x ch ch'.
Proof.
  intros [Heq | (x & ch0 & ch' & Hch0 & Htr & Heq)] Hb; rewrite Heq.
  - exists 0, ch. split; [exact Hb|]. unfold transfer. repeat split; lia.
  - destruct (decide (a = b)) as [->|Hne].
    + rewrite lookup_insert_eq. exists x, ch'. split; [reflexivity|].
      congruence.
    + rewrite lookup_insert_ne by exact Hne.
      exists 0, ch. split; [exact Hb|]. unfold transfer. repeat split; lia.
Qed.

Lemma transfer_conserved x ch ch' :
  transfer x ch ch' -> conserved ch -> conserved ch'.
Proof. unfold transfer, conserved. lia. Qed.

Lemma moved_insert a e e' ch ch' :
  channels e !! a = Some ch ->
  channels e' = <[a := ch']> (channels e) ->
  agentBalance ch' + casinoBalance ch' = agentBalance ch + casinoBalance ch ->
  agentDeposit ch' = agentDeposit ch ->
  casinoDeposit ch' = casinoDeposit ch ->
  agent ch' = agent ch ->
  moved a e e'.
Proof.
  intros Hch Heq Hsum Had Hcd Hag. right.
  exists (agentBalance ch' - agentBalance ch), ch, ch'.
  split; [exact Hch|]. split; [|exact Heq].
  unfold transfer. repeat split; lia || assumption.
Qed.

(** Unfolds the channels that an action named along the way. *)
Ltac unfold_channels :=
  repeat match goal with x := _ : Channel |- _ => subst x end.

Ltac moved_same := left; reflexivity.

Ltac moved_write :=
  eapply moved_insert;
  [ eassumption
  | fields; rewrite ?insert_insert_eq; reflexivity
  | unfold_channels; fields; first [reflexivity | lia] .. ].

Section Transfers.
  Context `{Platform}.

Lemma slots_reveal_moved now a p e :
    wp (SlotsGame._reveal now a p) e (fun _ e' => moved a e e').
  Proof.
    cbv beta delta [SlotsGame._reveal].
    repeat wp_step; try moved_same.
    all: moved_write.
  Qed.

Lemma coinflip_reveal_moved now a p e :
    wp (CoinflipGame._reveal now a p) e (fun _ e' => moved a e e').
  Proof.
    cbv beta delta [CoinflipGame._reveal].
    repeat wp_step; try moved_same.
    all: moved_write.
  Qed.

Lemma lotto_buy_moved now a p e :
    wp (LottoGame._buy now a p) e (fun _ e' => moved a e e').
  Proof.
    cbv beta delta [LottoGame._buy].
    repeat wp_step; try moved_same.
    all: moved_write.
  Qed.

Lemma lotto_claim_moved a e :
    wp (LottoGame._claim a) e (fun _ e' => moved a e e').
  Proof.
    cbv beta delta [LottoGame._claim].
    repeat wp_step; try moved_same.
    all: moved_write.
  Qed.

Lemma applyWinnings_moved a payoutWei e :
    wp (LottoGame.applyWinnings a payoutWei) e (fun _ e' => moved a e e').
  Proof.
    cbv beta delta [LottoGame.applyWinnings].
    repeat wp_step; try moved_same.
    all: moved_write.
  Qed.

Lemma mutate_moved m a e : moved a e (snd (mutate m a e)).
  Proof.
    destruct m; cbn [mutate outcome snd].
    - apply slots_reveal_moved.
    - apply coinflip_reveal_moved.
    - apply lotto_buy_moved.
    - apply lotto_claim_moved.
    - apply applyWinnings_moved.
  Qed.
End Transfers.

(** C1. A run of slots reveal, coinflip reveal, lotto buy, lotto claim or
    applyWinnings, whether it returns or throws, leaves every channel of the
    table as a transfer of what it was: agentBalance + x and
    casinoBalance - x for one amount x, deposits untouched. A channel
    whose balances added up to its deposits before still does after. *)
Theorem conservation_preserved `{Platform} (m : Mutation) (a b : string)
    (e : GamingEngine) (ch : Channel) :
  channels e !! b = Some ch ->
  exists x ch',
    channels (snd (mutate m a e)) !! b = Some ch' /\
    agentBalance ch' = agentBalance ch + x /\
    casinoBalance ch' = casinoBalance ch - x /\
    agentDeposit ch' = agentDeposit ch /\
    casinoDeposit ch' = casinoDeposit ch /\
    (conserved ch -> conserved ch').
Proof.
  intros Hb.
  destruct (moved_lookup a e _ b ch (mutate_moved m a e) Hb)
    as (x & ch' & Hch' & Htr).
  exists x, ch'. split; [exact Hch'|].
  pose proof (transfer_conserved x ch ch' Htr) as Hcons.
  destruct Htr as (? & ? & ? & ? & ?). auto 10.
Qed.

Lemma conservation_preserved_witness :
  exists x ch',
    channels (snd (@mutate up_platform (SlotsReveal 2 spin_params) alice
                     (spinning up_platform))) !! alice = Some ch' /\
    agentBalance ch' = agentBalance alice_channel + x /\
    casinoBalance ch' = casinoBalance alice_channel - x /\
    agentDeposit ch' = agentDeposit alice_channel /\
    casinoDeposit ch' = casinoDeposit alice_channel /\
    (conserved alice_channel -> conserved ch').
Proof.
  apply (@conservation_preserved up_platform (SlotsReveal 2 spin_params)
           alice alice (spinning up_platform) alice_channel).
  vm_compute. reflexivity.
Defined.

(** ** Non-negative balances (I2) *)

(** Comparisons that an action branched on, as propositions. *)
Ltac zbools :=
  repeat match goal with
  | H : (_ >? _) = _ |- _ => rewrite Z.gtb_ltb in H
  | H : (_ >=? _) = _ |- _ => rewrite Z.geb_leb in H
  | H : (_ <? _) = true |- _ => apply Z.ltb_lt in H
  | H : (_ <? _) = false |- _ => apply Z.ltb_ge in H
  | H : (_ <=? _) = true |- _ => apply Z.leb_le in H
  | H : (_ <=? _) = false |- _ => apply Z.leb_gt in H
  | H : (_ =? _) = true |- _ => apply Z.eqb_eq in H
  | H : (_ =? _) = false |- _ => apply Z.eqb_neq in H
  | H : (_ || _) = false |- _ => apply orb_false_elim in H; destruct H
  end.

Lemma ok_write a ch e :
  engine_ok e -> agent ch = a -> non_negative ch ->
  engine_ok (set_channels (insert a ch) e).
Proof.
  intros [Hc Hp Hu] Ha Hn. split; fields; [|assumption..].
  apply map_Forall_insert_2; auto.
Qed.

Lemma ok_close a e : engine_ok e -> engine_ok (set_channels (delete a) e).
Proof.
  intros [Hc Hp Hu]. split; fields; [|assumption..].
  apply map_Forall_delete, Hc.
Qed.

Lemma ok_pending_delete k e :
  engine_ok e -> engine_ok (set_pendingCommits (delete k) e).
Proof.
  intros [Hc Hp Hu]. split; fields; [assumption| |assumption].
  apply map_Forall_delete, Hp.
Qed.

Lemma ok_pending_insert k pc e :
  engine_ok e -> 0 < betWei pc ->
  engine_ok (set_pendingCommits (insert k pc) e).
Proof.
  intros [Hc Hp Hu] Hb. split; fields; [assumption| |assumption].
  apply map_Forall_insert_2; auto.
Qed.

Lemma ok_slots_stats f e : engine_ok e -> engine_ok (set_slots_stats f e).
Proof. intros [Hc Hp Hu]. split; assumption. Qed.

Lemma ok_coinflip_stats f e : engine_ok e -> engine_ok (set_coinflip_stats f e).
Proof. intros [Hc Hp Hu]. split; assumption. Qed.

Lemma ok_rngCalls f e : engine_ok e -> engine_ok (set_rngCalls f e).
Proof. intros [Hc Hp Hu]. split; assumption. Qed.

Lemma ok_lotto f e :
  engine_ok e ->
  map_Forall (fun _ v => 0 < v) (unclaimedWinnings (f (lotto e))) ->
  engine_ok (set_lotto f e).
Proof. intros [Hc Hp Hu] Hf. split; assumption. Qed.

Lemma ok_channel e a ch :
  engine_ok e -> channels e !! a = Some ch ->
  agent ch = a /\ 0 <= agentBalance ch /\ 0 <= casinoBalance ch.
Proof. intros [Hc _ _] Ha. exact (Hc a ch Ha). Qed.

Lemma ok_bet e k pc :
  engine_ok e -> pendingCommits e !! k = Some pc -> 0 < betWei pc.
Proof. intros [_ Hp _] Hk. exact (Hp k pc Hk). Qed.

Lemma PAYOUTS_nonneg (i : nat) : 0 <= nth i SlotsGame.PAYOUTS 0.
Proof. do 5 (destruct i as [|i]; [cbn; lia|]). destruct i; cbn; lia. Qed.

Lemma TICKET_PRICE_pos : 0 < LottoGame.TICKET_PRICE.
Proof. reflexivity. Qed.

Lemma settle_unclaimed_pos ag remaining (u : gmap string Z) :
  map_Forall (fun _ v => 0 < v) u ->
  map_Forall (fun _ v => 0 < v) (LottoGame.settle_unclaimed ag remaining u).
Proof.
  intros Hu. unfold LottoGame.settle_unclaimed.
  destruct (remaining >? 0) eqn:Hr.
  - apply map_Forall_insert_2; [|exact Hu]. zbools. lia.
  - apply map_Forall_delete, Hu.
Qed.

Lemma credit_winners_pos winning ts (u : gmap string Z) :
  map_Forall (fun _ v => 0 < v) u ->
  map_Forall (fun _ v => 0 < v) (fst (LottoGame.credit_winners winning ts u)) /\
  Forall (fun w => 0 < w_payout w) (snd (LottoGame.credit_winners winning ts u)).
Proof.
  revert u. induction ts as [|[ag tk] ts IH]; intros u Hu; cbn [LottoGame.credit_winners].
  - split; [exact Hu|constructor].
  - remember (Z.of_nat (length (filter (fun t => t = winning) tk))) as matchCount.
    destruct (matchCount >? 0) eqn:Hm; [|apply IH, Hu].
    zbools. pose proof TICKET_PRICE_pos.
    assert (0 < LottoGame.TICKET_PRICE * LottoGame.PAYOUT_MULTIPLIER * matchCount)
      by (apply Z.mul_pos_pos; [apply Z.mul_pos_pos; [assumption|reflexivity]|assumption]).
    edestruct IH as [IH1 IH2]; cycle 1.
    + cbn [fst snd]. split; [exact IH1|]. constructor; [exact H0|exact IH2].
    + apply map_Forall_insert_2; [|exact Hu].
      destruct (u !! ag) as [v|] eqn:Hv; cbn [default]; [|lia].
      pose proof (Hu ag v Hv). cbn beta in *. unfold id. lia.
Qed.

(** Peels the writes off the final state down to the initial one. *)
Ltac ok_writes :=
  repeat first
    [ assumption
    | apply ok_pending_delete
    | apply ok_slots_stats
    | apply ok_coinflip_stats
    | apply ok_rngCalls ].

(** The facts the engine keeps about the channel and the commit at hand. *)
Ltac ok_facts Hok :=
  try match goal with Hc : channels _ !! _ = Some ?c |- _ =>
    destruct (ok_channel _ _ c Hok Hc) as (? & ? & ?) end;
  try match goal with Hp : pendingCommits _ !! _ = Some ?pc |- _ =>
    pose proof (ok_bet _ _ pc Hok Hp) end.

Ltac unfold_locals :=
  unfold_channels;
  repeat match goal with x := _ : Z |- _ => subst x end;
  repeat match goal with x := _ : bool |- _ => subst x end;
  cbv zeta in *.

Lemma unclaimed_nonneg e k :
  engine_ok e -> 0 <= default 0 (unclaimedWinnings (lotto e) !! k).
Proof.
  intros Hok. destruct (unclaimedWinnings (lotto e) !! k) as [v|] eqn:Hv;
    cbn [default from_option]; unfold id; [|lia].
  pose proof (ok_unclaimed e Hok k v Hv) as Hpos. cbn beta in Hpos. lia.
Qed.

Section NonNegative.
  Context `{Platform}.

Lemma slots_reveal_ok now a p e :
    engine_ok e -> wp (SlotsGame._reveal now a p) e (fun _ e' => engine_ok e').
  Proof.
    intros Hok. cbv beta delta [SlotsGame._reveal].
    repeat wp_step; ok_writes.
    all: ok_facts Hok; apply ok_write; ok_writes.
    all: unfold non_negative; unfold_locals; fields.
    all: match goal with |- context [nth ?i SlotsGame.PAYOUTS 0] =>
           pose proof (PAYOUTS_nonneg i) end.
    all: repeat case_match; zbools; split; nia.
  Qed.

Lemma coinflip_reveal_ok now a p e :
    engine_ok e -> wp (CoinflipGame._reveal now a p) e (fun _ e' => engine_ok e').
  Proof.
    intros Hok. cbv beta delta [CoinflipGame._reveal].
    repeat wp_step; ok_writes.
    all: ok_facts Hok; apply ok_write; ok_writes.
    all: try (apply ok_write; ok_writes).
    all: unfold non_negative; unfold_locals; fields.
    all: match goal with |- context [Z.quot ?n 10] =>
           pose proof (Z.quot_pos n 10) end.
    all: repeat case_match; zbools; split; nia.
  Qed.

Lemma validateBet_positive M ch bet margin u :
    BaseGame.validateBet M ch bet margin = Ok u -> 0 < bet.
  Proof.
    unfold BaseGame.validateBet. repeat case_match; try discriminate.
    zbools. lia.
  Qed.

Lemma slots_commit_ok now a p e :
    engine_ok e -> wp (SlotsGame._commit now a p) e (fun _ e' => engine_ok e').
  Proof.
    intros Hok. cbv beta delta [SlotsGame._commit].
    repeat wp_step; ok_writes.
    apply ok_pending_insert; ok_writes.
    cbn [betWei]. eapply validateBet_positive; eassumption.
  Qed.

Lemma coinflip_commit_ok now a p e :
    engine_ok e -> wp (CoinflipGame._commit now a p) e (fun _ e' => engine_ok e').
  Proof.
    intros Hok. cbv beta delta [CoinflipGame._commit].
    repeat wp_step; ok_writes.
    apply ok_pending_insert; ok_writes.
    cbn [betWei]. eapply validateBet_positive; eassumption.
  Qed.

Lemma lotto_buy_ok now a p e :
    engine_ok e -> wp (LottoGame._buy now a p) e (fun _ e' => engine_ok e').
  Proof.
    intros Hok. cbv beta delta [LottoGame._buy].
    pose proof TICKET_PRICE_pos.
    repeat wp_step; ok_writes.
    all: ok_facts Hok.
    all: repeat first
      [ assumption
      | apply ok_lotto; [|fields; apply Hok]
      | apply ok_write; [| assumption | ] ].
    all: unfold non_negative; unfold_locals; fields.
    all: zbools; unfold LottoGame.MAX_TICKETS_PER_DRAW in *; split; nia.
  Qed.

Lemma lotto_claim_ok a e :
    engine_ok e -> wp (LottoGame._claim a) e (fun _ e' => engine_ok e').
  Proof.
    intros Hok. cbv beta delta [LottoGame._claim].
    repeat wp_step; ok_writes.
    all: ok_facts Hok.
    all: apply ok_lotto;
      [apply ok_write; ok_writes
      |fields; apply settle_unclaimed_pos, Hok].
    all: unfold non_negative; unfold_locals; fields.
    all: match goal with
         | |- context [default 0 (unclaimedWinnings (lotto ?e0) !! ?k)] =>
             pose proof (unclaimed_nonneg e0 k Hok)
         end.
    all: repeat case_match; zbools; split; lia.
  Qed.

Lemma applyWinnings_ok a payoutWei e :
    engine_ok e -> 0 <= payoutWei ->
    wp (LottoGame.applyWinnings a payoutWei) e (fun _ e' => engine_ok e').
  Proof.
    intros Hok Hpay. cbv beta delta [LottoGame.applyWinnings].
    repeat wp_step; ok_writes.
    all: ok_facts Hok.
    all: try (apply ok_lotto; [|fields; apply settle_unclaimed_pos, Hok]).
    all: apply ok_write; ok_writes.
    all: unfold non_negative; unfold_locals; fields.
    all: repeat case_match; zbools; split; lia.
  Qed.

Lemma startNewDraw_ok now e :
    engine_ok e -> wp (LottoGame._startNewDraw now) e (fun _ e' => engine_ok e').
  Proof.
    intros Hok. cbv beta delta [LottoGame._startNewDraw].
    repeat wp_step.
    repeat first [assumption | apply ok_lotto; [|fields; apply Hok] | apply ok_rngCalls].
  Qed.

Lemma executeDraw_ok now id e :
    engine_ok e ->
    wp (LottoGame.executeDraw now id) e (fun r e' =>
      engine_ok e' /\
      match r with
      | Ok dr => Forall (fun w => 0 < w_payout w) (winners dr)
      | Throw _ => True
      end).
  Proof.
    intros Hok. cbv beta delta [LottoGame.executeDraw].
    repeat wp_step; try (split; [assumption|exact I]).
    all: repeat match goal with x := _ |- _ => subst x end.
    all: match goal with
         | |- context [LottoGame.credit_winners ?w ?ts ?u] =>
             destruct (credit_winners_pos w ts u (ok_unclaimed _ Hok))
               as [Hu Hw]
         end.
    all: eapply wp_conseq;
      [apply startNewDraw_ok; apply ok_lotto; [assumption|fields; exact Hu]|].
    all: intros [[]|msg] e' Hok'; lazy beta iota.
    all: repeat wp_step; split; try assumption; try exact I.
  Qed.

Lemma lotto_status_ok e :
    engine_ok e -> wp LottoGame._status e (fun _ e' => engine_ok e').
  Proof.
    intros Hok. cbv beta delta [LottoGame._status]. repeat wp_step; assumption.
  Qed.

Lemma lotto_history_ok p e :
    engine_ok e -> wp (LottoGame._history p) e (fun _ e' => engine_ok e').
  Proof.
    intros Hok. cbv beta delta [LottoGame._history]. repeat wp_step; assumption.
  Qed.
End NonNegative.

Section EngineInvariant.
  Context `{Platform}.

Lemma plugin_handleAction_ok g action now a p e :
    engine_ok e ->
    wp (Engine.plugin_handleAction g action now a p) e (fun _ e' => engine_ok e').
  Proof.
    intros Hok.
    destruct g; cbv beta iota delta
      [Engine.plugin_handleAction SlotsGame.handleAction
       LottoGame.handleAction CoinflipGame.handleAction].
    all: repeat match goal with
         | |- wp (if ?b then _ else _) _ _ => destruct b
         end.
    all: first
      [ apply slots_commit_ok | apply slots_reveal_ok
      | apply coinflip_commit_ok | apply coinflip_reveal_ok
      | apply lotto_buy_ok | apply lotto_status_ok | apply lotto_history_ok
      | apply lotto_claim_ok | wp_step ]; assumption.
  Qed.

Lemma handleGameAction_ok now route a p e :
    engine_ok e ->
    wp (Engine.handleGameAction now route a p) e (fun _ e' => engine_ok e').
  Proof.
    intros Hok. cbv beta delta [Engine.handleGameAction Engine._getChannel].
    destruct (Map_get route Engine.actionMap) as [[g action]|];
      [|wp_step; assumption].
    wp_let. wp_step.
    destruct (negb _).
    - repeat wp_step; try assumption. apply plugin_handleAction_ok, Hok.
    - repeat wp_step. apply plugin_handleAction_ok, Hok.
  Qed.

Lemma openChannel_ok now a ad cd e :
    engine_ok e -> 0 <= default 0 ad -> 0 <= default 0 cd ->
    wp (Engine.openChannel now a ad cd) e (fun _ e' => engine_ok e').
  Proof.
    intros Hok Had Hcd. cbv beta delta [Engine.openChannel].
    repeat wp_step; try assumption.
    apply ok_write; [assumption|reflexivity|].
    unfold non_negative; unfold_locals; fields.
    cbn [default from_option] in *. unfold id in *. lia.
  Qed.

Lemma getChannelStatus_ok a e :
    engine_ok e -> wp (Engine.getChannelStatus a) e (fun _ e' => engine_ok e').
  Proof.
    intros Hok. cbv beta delta [Engine.getChannelStatus].
    repeat wp_step; assumption.
  Qed.

Lemma closeChannel_ok a e :
    engine_ok e -> wp (Engine.closeChannel a) e (fun _ e' => engine_ok e').
  Proof.
    intros Hok. cbv beta delta [Engine.closeChannel Engine._getChannel].
    repeat wp_step; try assumption. apply ok_close, Hok.
  Qed.

Lemma apply_winners_ok ws e :
    engine_ok e -> Forall (fun w => 0 < w_payout w) ws ->
    wp (Engine.apply_winners ws) e (fun _ e' => engine_ok e').
  Proof.
    revert e. induction ws as [|w ws IH]; intros e Hok Hws;
      cbn [Engine.apply_winners]; [wp_step; assumption|].
    inversion Hws as [|? ? Hw Hws']; subst.
    wp_step. wp_step. destruct (channels e !! w_agent w).
    - wp_step. eapply wp_conseq; [apply applyWinnings_ok; [assumption|lia]|].
      intros [ap|msg] e1 Hok1; lazy beta iota; [|assumption].
      wp_step. eapply wp_conseq; [apply IH; assumption|].
      intros [rest|msg] e2 Hok2; lazy beta iota; [|assumption].
      wp_step. assumption.
    - wp_step. eapply wp_conseq; [apply IH; assumption|].
      intros [rest|msg] e2 Hok2; lazy beta iota; [|assumption].
      wp_step. assumption.
  Qed.

Lemma run_draws_ok now ids e :
    engine_ok e -> wp (Engine.run_draws now ids) e (fun _ e' => engine_ok e').
  Proof.
    revert e. induction ids as [|id ids IH]; intros e Hok;
      cbn [Engine.run_draws]; [wp_step; assumption|].
    assert (Hrest : forall r e1, engine_ok e1 ->
      wp (rest <- Engine.run_draws now ids;;
          ret (match r with Some x => x :: rest | None => rest end)) e1
        (fun _ e' => engine_ok e')).
    { intros r e1 Hok1. wp_step. eapply wp_conseq; [apply IH, Hok1|].
      intros [rest|?] e3 Hok3; lazy beta iota; [wp_step|]; assumption. }
    wp_step. apply wp_try_catch. wp_step.
    eapply wp_conseq; [apply executeDraw_ok, Hok|].
    intros [dr|?] e1 [Hok1 Hws]; lazy beta iota;
      [|apply (Hrest None), Hok1].
    wp_step. eapply wp_conseq; [apply apply_winners_ok; assumption|].
    intros [ap|?] e2 Hok2; lazy beta iota.
    - wp_step. apply (Hrest (Some (dr, ap))), Hok2.
    - apply (Hrest None), Hok2.
  Qed.

Lemma runScheduledTasks_ok now e :
    engine_ok e -> wp (Engine.runScheduledTasks now) e (fun _ e' => engine_ok e').
  Proof.
    intros Hok.
    cbv beta delta [Engine.runScheduledTasks LottoGame.getPendingDraws].
    wp_step. wp_step. apply run_draws_ok, Hok.
  Qed.

Lemma createEngine_ok now : engine_ok (Engine.createEngine now).
  Proof.
    apply (startNewDraw_ok now Engine.engine0).
    split; cbn; apply map_Forall_empty.
  Qed.

Lemma run_op_ok now op e :
    legal_op op -> engine_ok e -> engine_ok (Engine.run_op now op e).
  Proof.
    intros Hlegal Hok. destruct op; cbn [Engine.run_op].
    - destruct Hlegal. apply openChannel_ok; assumption.
    - apply getChannelStatus_ok, Hok.
    - apply closeChannel_ok, Hok.
    - apply handleGameAction_ok, Hok.
    - apply runScheduledTasks_ok, Hok.
  Qed.

Lemma run_ops_ok ops e :
    Forall (fun p => legal_op (snd p)) ops -> engine_ok e ->
    engine_ok (Engine.run_ops ops e).
  Proof.
    revert e. induction ops as [|[now op] ops IH]; intros e Hlegal Hok;
      [exact Hok|].
    inversion Hlegal; subst. cbn [Engine.run_ops fold_left fst snd].
    apply IH; [assumption|]. apply run_op_ok; assumption.
  Qed.
End EngineInvariant.

(** Like [wp_step], but a branch on a value that a hypothesis gives is
    resolved with the hypothesis. *)
Ltac wp_known :=
  lazymatch goal with
  | |- wp (match ?x with _ => _ end) _ _ =>
      match goal with
      | H : ?y = _ |- _ => change x with y; rewrite H
      end
  | |- match ?x with _ => _ end =>
      match goal with
      | H : ?y = _ |- _ => change x with y; rewrite H; lazy beta iota
      end
  end.

Ltac wp_go := first [wp_known | wp_step].

Section Mechanisms.
  Context `{Platform}.

Lemma slots_reveal_rechecks now a p e ch pc :
    channels e !! a = Some ch ->
    pendingCommits e !! commitKey (agent ch) "slots" = Some pc ->
    agentBalance ch < betWei pc ->
    wp (SlotsGame._reveal now a p) e (fun r e' =>
      (exists msg, r = Throw msg) /\ channels e' = channels e).
  Proof.
    intros Hch Hpc Hlt. cbv beta delta [SlotsGame._reveal].
    repeat wp_go; try (split; [eauto|reflexivity]).
    all: zbools; unfold_locals; lia.
  Qed.

Lemma coinflip_reveal_rechecks now a p e ch pc :
    channels e !! a = Some ch ->
    pendingCommits e !! commitKey (agent ch) "coinflip" = Some pc ->
    agentBalance ch < betWei pc ->
    wp (CoinflipGame._reveal now a p) e (fun r e' =>
      (exists msg, r = Throw msg) /\ channels e' = channels e).
  Proof.
    intros Hch Hpc Hlt. cbv beta delta [CoinflipGame._reveal].
    repeat wp_go; try (split; [eauto|reflexivity]).
    all: zbools; unfold_locals; lia.
  Qed.

Lemma coinflip_payout_capped now a p e ch pc :
    engine_ok e ->
    channels e !! a = Some ch ->
    pendingCommits e !! commitKey (agent ch) "coinflip" = Some pc ->
    wp (CoinflipGame._reveal now a p) e (fun r _ =>
      forall choice result won payout ab cb n sig pr,
        r = Ok (RCoinflipReveal choice result won payout ab cb n sig pr) ->
        payout <= casinoBalance ch + betWei pc).
  Proof.
    intros Hok Hch Hpc. ok_facts Hok. cbv beta delta [CoinflipGame._reveal].
    repeat wp_go; intros; try discriminate.
    match goal with Heq : Ok _ = Ok _ |- _ => injection Heq as <- <- <- <- <- <- <- <- <- end.
    unfold_locals. repeat case_match; zbools; lia.
  Qed.

Lemma lotto_claim_capped a e ch :
    channels e !! a = Some ch ->
    wp (LottoGame._claim a) e (fun r _ =>
      forall claimed remaining ab cb n sig,
        r = Ok (RLottoClaim claimed remaining ab cb n sig) ->
        claimed <= casinoBalance ch).
  Proof.
    intros Hch. cbv beta delta [LottoGame._claim].
    repeat wp_go; intros; try discriminate.
    match goal with Heq : Ok _ = Ok _ |- _ => injection Heq as <- <- <- <- <- <- end.
    unfold_locals. repeat case_match; zbools; lia.
  Qed.
End Mechanisms.

(** C2. From a fresh engine, after any sequence of engine operations in
    which channels are opened with non-negative deposits, no channel has a
    negative agentBalance or casinoBalance. In such a state: a reveal
    (slots or coinflip) whose pending bet exceeds agentBalance throws and
    leaves the channel table as it is; a coinflip reveal that returns pays
    out at most casinoBalance + bet; a lotto claim that returns a signed
    state moved at most casinoBalance. *)
Theorem balances_never_negative `{Platform} (t0 : Z)
    (ops : list (Z * Engine.Op)) (a : string) (ch : Channel) :
  Forall (fun p => legal_op (snd p)) ops ->
  let e := Engine.run_ops ops (Engine.createEngine t0) in
  channels e !! a = Some ch ->
  (0 <= agentBalance ch /\ 0 <= casinoBalance ch) /\
  (forall now p pc,
     pendingCommits e !! commitKey (agent ch) "slots" = Some pc ->
     agentBalance ch < betWei pc ->
     exists msg,
       fst (mutate (SlotsReveal now p) a e) = Some msg /\
       channels (snd (mutate (SlotsReveal now p) a e)) = channels e) /\
  (forall now p pc,
     pendingCommits e !! commitKey (agent ch) "coinflip" = Some pc ->
     (agentBalance ch < betWei pc ->
      exists msg,
        fst (mutate (CoinflipReveal now p) a e) = Some msg /\
        channels (snd (mutate (CoinflipReveal now p) a e)) = channels e) /\
     (forall choice result won payout ab cb n sig pr,
        fst (CoinflipGame._reveal now a p e)
          = Ok (RCoinflipReveal choice result won payout ab cb n sig pr) ->
        payout <= casinoBalance ch + betWei pc)) /\
  (forall claimed remaining ab cb n sig,
     fst (LottoGame._claim a e)
       = Ok (RLottoClaim claimed remaining ab cb n sig) ->
     claimed <= casinoBalance ch).
Proof.
  intros Hlegal e Hch.
  pose proof (run_ops_ok ops _ Hlegal (createEngine_ok t0)) as Hok.
  fold e in Hok.
  split; [|split; [|split]].
  - destruct (ok_channel e a ch Hok Hch) as (_ & ? & ?). auto.
  - intros now p pc Hpc Hlt.
    destruct (slots_reveal_rechecks now a p e ch pc Hch Hpc Hlt)
      as [[msg Hmsg] Hsame].
    exists msg. cbn [mutate outcome fst snd]. rewrite Hmsg. auto.
  - intros now p pc Hpc. split.
    + intros Hlt.
      destruct (coinflip_reveal_rechecks now a p e ch pc Hch Hpc Hlt)
        as [[msg Hmsg] Hsame].
      exists msg. cbn [mutate outcome fst snd]. rewrite Hmsg. auto.
    + apply (coinflip_payout_capped now a p e ch pc Hok Hch Hpc).
  - apply (lotto_claim_capped a e ch Hch).
Qed.

Lemma balances_never_negative_witness :
  0 <= agentBalance busy_channel /\ 0 <= casinoBalance busy_channel.
Proof.
  refine (proj1 (@balances_never_negative up_platform 0 busy_ops alice
                   busy_channel _ _)).
  - repeat constructor; vm_compute; discriminate.
  - vm_compute. reflexivity.
Defined.

(** ** A failed signature request (there is no rollback) *)

Ltac kept_write :=
  lazymatch goal with
  | |- exists x ch', channels ?e' !! ?a = Some ch' /\ _ =>
      fields; rewrite ?insert_insert_eq, lookup_insert_eq;
      lazymatch goal with
      | Hch : channels _ !! a = Some ?ch |- exists x ch', Some ?c' = Some ch' /\ _ =>
          exists (agentBalance c' - agentBalance ch), c';
          split; [reflexivity|];
          split; [unfold_channels; fields; reflexivity|];
          split; [lia|];
          split; [unfold_channels; fields; lia|assumption]
      end
  end.

Ltac kept_update_tac :=
  unfold kept_update, thrown;
  repeat wp_go; intros; try discriminate; kept_write.

Section SigningFailure.
  Context `{Platform}.

Lemma slots_reveal_kept now a p e ch :
    channels e !! a = Some ch ->
    wp (SlotsGame._reveal now a p) e
      (fun r e' => kept_update a ch (thrown r) e').
  Proof.
    intros Hch. cbv beta delta [SlotsGame._reveal]. kept_update_tac.
  Qed.

Lemma coinflip_reveal_kept now a p e ch :
    channels e !! a = Some ch ->
    wp (CoinflipGame._reveal now a p) e
      (fun r e' => kept_update a ch (thrown r) e').
  Proof.
    intros Hch. cbv beta delta [CoinflipGame._reveal]. kept_update_tac.
  Qed.

Lemma lotto_buy_kept now a p e ch :
    channels e !! a = Some ch ->
    wp (LottoGame._buy now a p) e
      (fun r e' => kept_update a ch (thrown r) e').
  Proof.
    intros Hch. cbv beta delta [LottoGame._buy]. kept_update_tac.
  Qed.

Lemma lotto_claim_kept a e ch :
    channels e !! a = Some ch ->
    wp (LottoGame._claim a) e
      (fun r e' => kept_update a ch (thrown r) e').
  Proof.
    intros Hch. cbv beta delta [LottoGame._claim]. kept_update_tac.
  Qed.

Lemma applyWinnings_kept a payoutWei e ch :
    channels e !! a = Some ch ->
    wp (LottoGame.applyWinnings a payoutWei) e
      (fun r e' => kept_update a ch (thrown r) e').
  Proof.
    intros Hch. cbv beta delta [LottoGame.applyWinnings]. kept_update_tac.
  Qed.
End SigningFailure.

(** C3 (as amended). In slots reveal, coinflip reveal, lotto buy, lotto
    claim (and applyWinnings) the signature is requested after the balance
    and nonce updates and nothing is rolled back: when a run fails on the
    signature request, the channel is left with the nonce incremented by 1
    and the transfer of the round applied, which is the state whose
    signature was refused; the deposits are untouched, so a channel that
    was conserved still is. *)
Theorem signing_failure_keeps_update `{Platform} (m : Mutation) (a : string)
    (e : GamingEngine) (ch : Channel) :
  channels e !! a = Some ch ->
  fst (mutate m a e) = Some "signTypedData failed" ->
  exists x ch',
    channels (snd (mutate m a e)) !! a = Some ch' /\
    nonce ch' = nonce ch + 1 /\
    agentBalance ch' = agentBalance ch + x /\
    casinoBalance ch' = casinoBalance ch - x /\
    signTypedData (agent ch') (agentBalance ch') (casinoBalance ch') (nonce ch')
      = None /\
    (conserved ch -> conserved ch').
Proof.
  intros Hch Hfail.
  assert (Hkept : kept_update a ch (fst (mutate m a e)) (snd (mutate m a e))).
  { destruct m; cbn [mutate outcome fst snd].
    - apply slots_reveal_kept, Hch.
    - apply coinflip_reveal_kept, Hch.
    - apply lotto_buy_kept, Hch.
    - apply lotto_claim_kept, Hch.
    - apply applyWinnings_kept, Hch. }
  destruct (Hkept Hfail) as (x & ch' & Hch' & Hn & Hab & Hcb & Hsig).
  exists x, ch'. repeat (split; [assumption|]).
  destruct (moved_lookup a e _ a ch (mutate_moved m a e) Hch)
    as (y & ch0 & Hch0 & Htr).
  assert (ch0 = ch') by congruence. subst ch0.
  apply (transfer_conserved y ch ch' Htr).
Qed.

Lemma signing_failure_keeps_update_witness :
  exists x ch',
    channels (snd (@mutate down_platform (SlotsReveal 2 spin_params) alice
                     (spinning down_platform))) !! alice = Some ch' /\
    nonce ch' = nonce alice_channel + 1 /\
    agentBalance ch' = agentBalance alice_channel + x /\
    casinoBalance ch' = casinoBalance alice_channel - x /\
    @signTypedData down_platform (agent ch') (agentBalance ch')
      (casinoBalance ch') (nonce ch') = None /\
    (conserved alice_channel -> conserved ch').
Proof.
  apply (@signing_failure_keeps_update down_platform
           (SlotsReveal 2 spin_params) alice (spinning down_platform)
           alice_channel).
  - vm_compute. reflexivity.
  - vm_compute. reflexivity.
Defined.

(** C3, the claim as stated fails: with a signer that is down, a slots
    reveal throws the signer's error and the channel keeps the round: the
    balances moved and the nonce went from 0 to 1. *)
Lemma signing_failure_not_rolled_back :
  fst (@mutate down_platform (SlotsReveal 2 spin_params) alice
         (spinning down_platform)) = Some "signTypedData failed" /\
  (fun ch => (agentBalance ch, casinoBalance ch, nonce ch))
    <$> channels (spinning down_platform) !! alice
    = Some (10 ^ 18, 5 * 10 ^ 18, 0) /\
  (fun ch => (agentBalance ch, casinoBalance ch, nonce ch))
    <$> channels (snd (@mutate down_platform (SlotsReveal 2 spin_params) alice
                         (spinning down_platform))) !! alice
    = Some (1004000000000000000, 4996000000000000000, 1).
Proof. vm_compute. repeat split; reflexivity. Qed.

(** ** Scenario S1: open and close with no games *)

Section CloseFresh.
  Context `{Platform}.

Lemma close_fresh_channel now (e : GamingEngine) (ag sig : string) (ad cd : Z) :
    channels e !! ag = None ->
    signTypedData ag ad cd 0 = Some sig ->
    wp (Engine.openChannel now ag (Some ad) (Some cd)) e (fun r e1 =>
      r = Ok ("open", ad, cd) /\
      wp (Engine.closeChannel ag) e1 (fun r' e2 =>
        r' = Ok (mkClose ad cd 0 sig 0) /\ channels e2 = channels e)).
  Proof.
    intros Hnone Hsig. cbv beta delta [Engine.openChannel].
    repeat wp_go. split; [reflexivity|].
    cbv beta delta [Engine.closeChannel Engine._getChannel].
    wp_step. wp_step. fields. rewrite lookup_insert_eq. lazy beta iota.
    repeat match goal with x := _ |- _ => subst x end.
    cbv zeta. fields. rewrite Z.eqb_refl. cbn [negb].
    repeat wp_go. split; [reflexivity|].
    fields. rewrite delete_insert_eq. apply delete_id. assumption.
  Qed.
End CloseFresh.

Section Settlement.
  Context `{ChannelManager.Chain}.
  Import ChannelManager.

Lemma open_then_fund cas ag cap t1 t2 :
    ether_001 <= cap ->
    openChannel (mkMsg ag ether_001 t1) (deployed cas cap)
      = inr (opened cas ag cap t1) /\
    fundCasinoSide (mkMsg cas ether_001 t2) ag (opened cas ag cap t1)
      = inr (funded cas ag cap t1).
  Proof.
    intros Hmax. split.
    - reflexivity.
    - unfold fundCasinoSide, opened. cbn [sender casino value].
      rewrite String.eqb_refl. cbn [negb].
      unfold channel_of. cbn [channels]. rewrite lookup_singleton_eq.
      cbn [default from_option id state state_eqb negb].
      unfold lockCollateral. cbn [totalLocked maxExposure casinoDeposit casinoBalance].
      change (checked_add 0 ether_001) with (inr ether_001 : Error + Z).
      assert (Hgt : (ether_001 >? cap) = false)
        by (rewrite Z.gtb_ltb; apply Z.ltb_ge; exact Hmax).
      cbv beta iota. rewrite Hgt. unfold funded. cbn.
      rewrite insert_singleton_eq. reflexivity.
  Qed.

Lemma close_funded_is_stale cas ag cap t1 (m : Msg) ab cb sig :
    sender m = ag ->
    closeChannel m ab cb 0 sig (funded cas ag cap t1) = inl StaleNonce.
  Proof.
    intros <-. unfold closeChannel, funded, channel_of. cbn [channels].
    rewrite lookup_singleton_eq. reflexivity.
  Qed.

Lemma exit_funded cas ag cap t1 t3 :
    accepts ag = true -> accepts cas = true ->
    0 <= t1 -> t1 + MIN_CHANNEL_DURATION <= t3 -> t3 <= UINT256_MAX ->
    emergencyExit (mkMsg ag 0 t3) (funded cas ag cap t1)
      = inr (settled cas ag cap t1).
  Proof.
    intros Hag Hcas Ht1 Ht3 Hmax.
    unfold emergencyExit, funded, channel_of. cbn [channels sender].
    rewrite lookup_singleton_eq.
    cbn [default from_option id state state_eqb negb nonce openedAt timestamp
         agentDeposit casinoDeposit].
    change (0 =? 0) with true. cbn [negb].
    unfold checked_add.
    destruct (t1 + MIN_CHANNEL_DURATION <=? UINT256_MAX) eqn:Hle; [|zbools; lia].
    destruct (t3 <? t1 + MIN_CHANNEL_DURATION) eqn:Hlt; [zbools; lia|].
    unfold _settle, unlockCollateral, checked_mul, pay.
    cbn [casinoDeposit totalLocked balance casino paused channels
         pendingWithdrawals maxExposure fundBalance trace].
    change (ether_001 >? 0) with true. change (ether_001 >? ether_001) with false.
    cbv beta iota zeta.
    change (0 / 10000) with 0. change (0 >? 0) with false.
    cbn [andb]. cbn [casinoDeposit totalLocked balance casino paused channels
         pendingWithdrawals maxExposure fundBalance trace].
    change (ether_001 - 0) with ether_001.
    change (ether_001 >? 0) with true. rewrite Hag.
    change (ether_001 + ether_001 - 0) with (ether_001 + ether_001).
    change (ether_001 <=? ether_001 + ether_001) with true. cbn [andb].
    cbn [casinoDeposit totalLocked balance casino paused channels
         pendingWithdrawals maxExposure fundBalance trace].
    change (ether_001 >? 0) with true. rewrite Hcas.
    change (ether_001 <=? ether_001 + ether_001 - ether_001) with true.
    cbn [andb].
    cbn [casinoDeposit totalLocked balance casino paused channels
         pendingWithdrawals maxExposure fundBalance trace app].
    rewrite delete_singleton_eq. reflexivity.
  Qed.
End Settlement.

(** C4 (as amended). An agent opens with 0.01 ether, the house funds
    0.01 ether, no game is played. Off chain, closing the channel returns
    the signed state with nonce 0 and the balances of the deposits. On
    chain, closeChannel refuses that state as StaleNonce, because it needs a
    nonce above the stored one, which is 0; the channel settles through
    emergencyExit once MIN_CHANNEL_DURATION has passed, which sends exactly
    0.01 ether to each side and nothing to the insurance fund. *)
Theorem open_close_without_games `{Platform} `{ChannelManager.Chain}
    (e : GamingEngine) (ag cas sig : string) (cap t0 t1 t2 t3 : Z) :
  channels e !! ag = None ->
  signTypedData ag ether_001 ether_001 0 = Some sig ->
  ChannelManager.accepts ag = true ->
  ChannelManager.accepts cas = true ->
  ether_001 <= cap ->
  0 <= t1 ->
  t1 + ChannelManager.MIN_CHANNEL_DURATION <= t3 ->
  t3 <= ChannelManager.UINT256_MAX ->
  fst (Engine.closeChannel ag
         (snd (Engine.openChannel t0 ag (Some ether_001) (Some ether_001) e)))
    = Ok (mkClose ether_001 ether_001 0 sig 0) /\
  ChannelManager.openChannel (ChannelManager.mkMsg ag ether_001 t1)
      (ChannelManager.deployed cas cap)
    = inr (opened cas ag cap t1) /\
  ChannelManager.fundCasinoSide (ChannelManager.mkMsg cas ether_001 t2) ag
      (opened cas ag cap t1)
    = inr (funded cas ag cap t1) /\
  ChannelManager.closeChannel (ChannelManager.mkMsg ag 0 t3)
      ether_001 ether_001 0 sig (funded cas ag cap t1)
    = inl ChannelManager.StaleNonce /\
  ChannelManager.emergencyExit (ChannelManager.mkMsg ag 0 t3)
      (funded cas ag cap t1)
    = inr (settled cas ag cap t1).
Proof.
  intros Hnone Hsig Hag Hcas Hcap Ht1 Ht3 Hmax.
  split; [|split; [|split; [|split]]].
  - destruct (close_fresh_channel t0 e ag sig ether_001 ether_001 Hnone Hsig)
      as [_ [Hclose _]].
    exact Hclose.
  - apply (open_then_fund cas ag cap t1 t2 Hcap).
  - apply (open_then_fund cas ag cap t1 t2 Hcap).
  - apply close_funded_is_stale. reflexivity.
  - apply exit_funded; assumption.
Qed.

Lemma open_close_without_games_witness :
  fst (@Engine.closeChannel up_platform alice
         (snd (Engine.openChannel 0 alice (Some ether_001) (Some ether_001)
                 (@Engine.createEngine up_platform 0))))
    = Ok (mkClose ether_001 ether_001 0 alice_sig 0) /\
  @ChannelManager.emergencyExit fixed_chain (ChannelManager.mkMsg alice 0 7200)
      (funded house alice (10 ^ 18) 100)
    = inr (settled house alice (10 ^ 18) 100).
Proof.
  pose proof (@open_close_without_games up_platform fixed_chain
    (@Engine.createEngine up_platform 0) alice house alice_sig (10 ^ 18)
    0 100 200 7200) as Hs1.
  destruct Hs1 as (Hoff & _ & _ & _ & Hexit).
  - vm_compute. reflexivity.
  - vm_compute. reflexivity.
  - reflexivity.
  - reflexivity.
  - vm_compute. discriminate.
  - lia.
  - vm_compute. discriminate.
  - vm_compute. discriminate.
  - split; [exact Hoff|exact Hexit].
Defined.

(** C4, the claim as stated fails: the state that the off-chain close
    signs for a channel without games has nonce 0, the signature recovers
    to the house, and closeChannel reverts on it with StaleNonce. *)
Lemma close_at_nonce_zero_is_stale :
  fst (@Engine.closeChannel up_platform alice
         (snd (Engine.openChannel 0 alice (Some ether_001) (Some ether_001)
                 (@Engine.createEngine up_platform 0))))
    = Ok (mkClose ether_001 ether_001 0 alice_sig 0) /\
  @ChannelManager.recover fixed_chain alice ether_001 ether_001 0 alice_sig
    = Some house /\
  ChannelManager.fundCasinoSide
      (ChannelManager.mkMsg house ether_001 200) alice
      (opened house alice (10 ^ 18) 100)
    = inr (funded house alice (10 ^ 18) 100) /\
  @ChannelManager.closeChannel fixed_chain (ChannelManager.mkMsg alice 0 7200)
      ether_001 ether_001 0 alice_sig (funded house alice (10 ^ 18) 100)
    = inl ChannelManager.StaleNonce.
Proof. vm_compute. repeat split; reflexivity. Qed.

(** ** The bet validator *)

(** C5 (as amended). validateBet with safety factor 2 fails exactly when
    betWei <= 0, or agentBalance < betWei, or
    betWei * maxMultiplier * 2 > casinoBalance. For a positive multiplier,
    the bet floor(casinoBalance / (maxMultiplier * 2)) is accepted when it
    is at least 1 wei and the agent balance covers it, and a bet one wei
    higher is rejected. *)
Theorem validateBet_boundary (maxMultiplier : Z) (ch : Channel) (betWei : Z) :
  0 < maxMultiplier ->
  (BaseGame.validateBet maxMultiplier ch betWei 2 <> Ok tt <->
     betWei <= 0 \/ agentBalance ch < betWei \/
     betWei * maxMultiplier * 2 > casinoBalance ch) /\
  (1 <= casinoBalance ch / (maxMultiplier * 2) ->
   casinoBalance ch / (maxMultiplier * 2) <= agentBalance ch ->
   BaseGame.validateBet maxMultiplier ch
     (casinoBalance ch / (maxMultiplier * 2)) 2 = Ok tt) /\
  BaseGame.validateBet maxMultiplier ch
    (casinoBalance ch / (maxMultiplier * 2) + 1) 2 <> Ok tt.
Proof.
  intros HM.
  assert (Hfail : forall bet,
    BaseGame.validateBet maxMultiplier ch bet 2 <> Ok tt <->
    bet <= 0 \/ agentBalance ch < bet \/
    bet * maxMultiplier * 2 > casinoBalance ch).
  { intros bet. unfold BaseGame.validateBet.
    repeat case_match; zbools; split; intros Hx;
      try (exfalso; apply Hx; reflexivity); try discriminate; lia. }
  pose proof (Z.mul_div_le (casinoBalance ch) (maxMultiplier * 2)) as Hlo.
  pose proof (Z.mul_succ_div_gt (casinoBalance ch) (maxMultiplier * 2)) as Hhi.
  split; [apply Hfail|]. split.
  - intros Hq Hcover.
    destruct (BaseGame.validateBet maxMultiplier ch
                (casinoBalance ch / (maxMultiplier * 2)) 2) as [[]|msg] eqn:Hv;
      [reflexivity|].
    exfalso.
    assert (Hne : BaseGame.validateBet maxMultiplier ch
                    (casinoBalance ch / (maxMultiplier * 2)) 2 <> Ok tt)
      by (rewrite Hv; discriminate).
    apply Hfail in Hne. nia.
  - apply Hfail. right. right. nia.
Qed.

Lemma validateBet_boundary_witness :
  BaseGame.validateBet 290 alice_channel
    (casinoBalance alice_channel / (290 * 2)) 2 = Ok tt.
Proof.
  refine (proj1 (proj2 (validateBet_boundary 290 alice_channel 1 _)) _ _).
  - reflexivity.
  - vm_compute. discriminate.
  - vm_compute. discriminate.
Defined.

(** C5, the claim as stated fails: with 579 wei on the house side the
    bet floor(579 / (290 * 2)) is 0 wei, which the agent balance covers
    and validateBet rejects. *)
Lemma validateBet_rejects_zero_quotient :
  casinoBalance thin_house / (SlotsGame.maxMultiplier * 2)
    <= agentBalance thin_house /\
  BaseGame.validateBet SlotsGame.maxMultiplier thin_house
    (casinoBalance thin_house / (SlotsGame.maxMultiplier * 2)) 2
    = Throw "Bet must be positive".
Proof. vm_compute. split; [discriminate|reflexivity]. Qed.

(** ** Slots *)

Lemma getSymbol_bucket (v : Z) :
  0 <= v < 100 -> SlotsGame._getSymbol v = weight_bucket v.
Proof.
  intros Hv. unfold weight_bucket.
  cbv [SlotsGame._getSymbol SlotsGame.getSymbol_loop SlotsGame.WEIGHTS].
  change (0 + 30) with 30. change (30 + 25) with 55. change (55 + 20) with 75.
  change (75 + 15) with 90. change (90 + 10) with 100.
  change (0 + 1) with 1. change (1 + 1) with 2. change (2 + 1) with 3.
  change (3 + 1) with 4.
  repeat case_match; zbools; lia.
Qed.

Lemma weight_bucket_range (v : Z) : 0 <= weight_bucket v <= 4.
Proof. unfold weight_bucket. repeat case_match; lia. Qed.

Lemma PAYOUTS_multiplier (reel : Z) :
  0 <= reel <= 4 ->
  nth (Z.to_nat reel) SlotsGame.PAYOUTS 0 = payout_multiplier reel.
Proof.
  intros Hr.
  assert (Hcases : reel = 0 \/ reel = 1 \/ reel = 2 \/ reel = 3 \/ reel = 4)
    by lia.
  destruct Hcases as [-> | [-> | [-> | [-> | ->]]]]; reflexivity.
Qed.

Section SlotsReveal.
  Context `{Platform}.

Lemma slots_reveal_result now a p e ch pc w0 w1 w2 :
    channels e !! a = Some ch ->
    pendingCommits e !! commitKey (agent ch) "slots" = Some pc ->
    now - timestamp pc <= COMMIT_TIMEOUT ->
    betWei pc <= agentBalance ch ->
    let hashBuf := Buffer_from_hex (CommitReveal.resultHash (CommitReveal.proof_of
      (CommitReveal.computeResult (seed pc) (agentSeed p) (nonce ch)))) in
    readUInt32BE hashBuf 0 = Some w0 ->
    readUInt32BE hashBuf 4 = Some w1 ->
    readUInt32BE hashBuf 8 = Some w2 ->
    let reel0 := weight_bucket (w0 mod 100) in
    let reel1 := weight_bucket (w1 mod 100) in
    let reel2 := weight_bucket (w2 mod 100) in
    let won := bool_decide (reel0 = reel1 /\ reel1 = reel2) in
    let multiplier := if won then payout_multiplier reel0 else 0 in
    let payout := Z.min (betWei pc * multiplier) (casinoBalance ch) in
    wp (SlotsGame._reveal now a p) e (fun r e' =>
      exists ch',
        channels e' !! a = Some ch' /\
        agentBalance ch' = agentBalance ch - betWei pc + payout /\
        casinoBalance ch' = casinoBalance ch + betWei pc - payout /\
        nonce ch' = nonce ch + 1 /\
        forall sig,
          signTypedData (agent ch) (agentBalance ch') (casinoBalance ch')
            (nonce ch') = Some sig ->
          exists names proof,
            r = Ok (RSlotsReveal names [reel0; reel1; reel2] multiplier payout
                      (agentBalance ch') (casinoBalance ch') (nonce ch')
                      sig proof)).
  Proof.
    intros Hch Hpc Hfresh Hcover hashBuf H0 H1 H2 reel0 reel1 reel2 won
      multiplier payout.
    assert (Hcode : forall w, SlotsGame._getSymbol (w mod 100)
                              = weight_bucket (w mod 100)).
    { intros w. apply getSymbol_bucket, Z.mod_pos_bound. lia. }
    assert (Hpay :
      (if (if (reel0 =? reel1) && (reel1 =? reel2)
           then betWei pc *
                (if (reel0 =? reel1) && (reel1 =? reel2)
                 then nth (Z.to_nat reel0) SlotsGame.PAYOUTS 0 else 0)
           else 0) >? casinoBalance ch
       then casinoBalance ch
       else if (reel0 =? reel1) && (reel1 =? reel2)
            then betWei pc *
                 (if (reel0 =? reel1) && (reel1 =? reel2)
                  then nth (Z.to_nat reel0) SlotsGame.PAYOUTS 0 else 0)
            else 0) = payout
      /\ (if (reel0 =? reel1) && (reel1 =? reel2)
          then nth (Z.to_nat reel0) SlotsGame.PAYOUTS 0 else 0) = multiplier).
    { subst payout multiplier won.
      rewrite (PAYOUTS_multiplier reel0) by apply weight_bucket_range.
      destruct (Z.eqb_spec reel0 reel1), (Z.eqb_spec reel1 reel2);
        cbn [andb]; (case_bool_decide; [|try tauto]); try tauto;
        (split; [|reflexivity]); case_match; zbools; lia. }
    destruct Hpay as [Hpayout Hmult].
    cbv beta delta [SlotsGame._reveal].
    repeat wp_go.
    all: try (exfalso; zbools; unfold_locals; lia).
    all: repeat match goal with x := _ |- _ => subst x end.
    all: cbv zeta in *; fields; rewrite !Hcode in *.
    all: rewrite ?Hpayout, ?Hmult in *.
    all: rewrite lookup_insert_eq; eexists; split; [reflexivity|]; fields.
    all: repeat (split; [reflexivity|]).
    all: intros sig Hsig; try congruence.
    all: match goal with
         | Ha : ?f = Some ?s1, Hb : ?f = Some ?s2 |- _ =>
             rewrite Ha in Hb; injection Hb as ->
         end; eauto.
  Qed.
End SlotsReveal.

(** C6. For a pending slots commit that has not expired and whose bet the
    agent still covers, the reveal reads the big-endian uint32 at offsets
    0, 4 and 8 of SHA256(casinoSeed : agentSeed : decimal nonce), maps each
    modulo 100 through the cumulative weights of {30, 25, 20, 15, 10},
    pays bet * PAYOUTS[reel] exactly when the three reels are equal and 0
    otherwise, capped to casinoBalance, moves the balances by
    agentBalance - bet + payout and casinoBalance + bet - payout, and
    increments the nonce by 1; with the state signed, it returns these
    reels and this payout. *)
Theorem slots_reveal_derivation `{Platform} (now : Z) (a : string)
    (p : Params) (e : GamingEngine) (ch : Channel) (pc : PendingCommit) :
  channels e !! a = Some ch ->
  pendingCommits e !! commitKey (agent ch) "slots" = Some pc ->
  now - timestamp pc <= COMMIT_TIMEOUT ->
  betWei pc <= agentBalance ch ->
  let digest :=
    sha256 (seed pc +:+ ":" +:+ agentSeed p +:+ ":" +:+ pretty (nonce ch)) in
  exists w0 w1 w2,
    readUInt32BE digest 0 = Some w0 /\
    readUInt32BE digest 4 = Some w1 /\
    readUInt32BE digest 8 = Some w2 /\
    let reel0 := weight_bucket (w0 mod 100) in
    let reel1 := weight_bucket (w1 mod 100) in
    let reel2 := weight_bucket (w2 mod 100) in
    let line := bool_decide (reel0 = reel1 /\ reel1 = reel2) in
    let payout :=
      Z.min (if line then betWei pc * payout_multiplier reel0 else 0)
        (casinoBalance ch) in
    let r := SlotsGame._reveal now a p e in
    exists ch',
      channels (snd r) !! a = Some ch' /\
      agentBalance ch' = agentBalance ch - betWei pc + payout /\
      casinoBalance ch' = casinoBalance ch + betWei pc - payout /\
      nonce ch' = nonce ch + 1 /\
      forall sig,
        signTypedData (agent ch) (agentBalance ch') (casinoBalance ch')
          (nonce ch') = Some sig ->
        exists names proof,
          fst r = Ok (RSlotsReveal names [reel0; reel1; reel2]
                        (if line then payout_multiplier reel0 else 0) payout
                        (agentBalance ch') (casinoBalance ch') (nonce ch')
                        sig proof).
Proof.
  intros Hch Hpc Hfresh Hcover digest.
  destruct (digest_read
    (seed pc +:+ ":" +:+ agentSeed p +:+ ":" +:+ pretty (nonce ch)) 0)
    as (w0 & H0 & _); [lia|].
  destruct (digest_read
    (seed pc +:+ ":" +:+ agentSeed p +:+ ":" +:+ pretty (nonce ch)) 4)
    as (w1 & H1 & _); [lia|].
  destruct (digest_read
    (seed pc +:+ ":" +:+ agentSeed p +:+ ":" +:+ pretty (nonce ch)) 8)
    as (w2 & H2 & _); [lia|].
  exists w0, w1, w2. repeat (split; [assumption|]).
  intros reel0 reel1 reel2 line payout r.
  pose proof (slots_reveal_result now a p e ch pc w0 w1 w2 Hch Hpc Hfresh
                Hcover) as Hres.
  cbv zeta in Hres. rewrite resultHash_buffer in Hres.
  specialize (Hres H0 H1 H2). unfold wp in Hres.
  assert (Hpay : betWei pc * (if line then payout_multiplier reel0 else 0)
                 = if line then betWei pc * payout_multiplier reel0 else 0)
    by (destruct line; lia).
  fold reel0 reel1 reel2 in Hres. fold line in Hres. rewrite Hpay in Hres.
  exact Hres.
Qed.

Lemma slots_reveal_derivation_witness :
  exists ch',
    channels (snd (@SlotsGame._reveal up_platform 2 alice spin_params
                     (spinning up_platform))) !! alice = Some ch' /\
    agentBalance ch' = 10 ^ 18 - 10 ^ 15 + 5 * 10 ^ 15 /\
    casinoBalance ch' = 5 * 10 ^ 18 + 10 ^ 15 - 5 * 10 ^ 15 /\
    nonce ch' = 1.
Proof.
  destruct (@slots_reveal_derivation up_platform 2 alice spin_params
              (spinning up_platform) alice_channel
              (mkPending (hex_of_bytes (replicate 32 x00)) (10 ^ 15) None
                 "slots" 1))
    as (w0 & w1 & w2 & H0 & H1 & H2 & ch' & Hch' & Hab & Hcb & Hn & _).
  - vm_compute. reflexivity.
  - vm_compute. reflexivity.
  - vm_compute. discriminate.
  - vm_compute. discriminate.
  - exists ch'. vm_compute in H0, H1, H2.
    injection H0 as <-. injection H1 as <-. injection H2 as <-.
    split; [exact Hch'|]. split; [exact Hab|]. split; [exact Hcb|exact Hn].
Defined.

(** C6, the case the derivation does not cover. A slots commit of 0.05
    ether is pending and has not expired (committed at 1, revealed at 4),
    but a lost coinflip left the agent 0.04 ether at nonce 1. The reveal
    throws at its re-check of the bet, before any reel is derived: the
    pending commit is dropped and the channel keeps its balances and its
    nonce. *)
Lemma slots_reveal_throws_when_drained :
  pendingCommits (drained up_platform) !! commitKey alice "slots"
    = Some (mkPending (hex_of_bytes (replicate 32 x00)) (5 * 10 ^ 16) None
              "slots" 1) /\
  4 - 1 <= COMMIT_TIMEOUT /\
  (fun ch => (agentBalance ch, casinoBalance ch, nonce ch))
    <$> channels (drained up_platform) !! alice
    = Some (4 * 10 ^ 16, 5 * 10 ^ 19 + 6 * 10 ^ 16, 1) /\
  fst (@SlotsGame._reveal up_platform 4 alice spin_params
         (drained up_platform))
    = Throw "Insufficient balance at reveal" /\
  pendingCommits
    (snd (@SlotsGame._reveal up_platform 4 alice spin_params
            (drained up_platform))) !! commitKey alice "slots" = None /\
  (fun ch => (agentBalance ch, casinoBalance ch, nonce ch))
    <$> channels (snd (@SlotsGame._reveal up_platform 4 alice spin_params
                         (drained up_platform))) !! alice
    = Some (4 * 10 ^ 16, 5 * 10 ^ 19 + 6 * 10 ^ 16, 1).
Proof. vm_compute. repeat split; try reflexivity. discriminate. Qed.

(** ** Coinflip *)

Section CoinflipReveal.
  Context `{Platform}.

Lemma coinflip_reveal_result now a p e ch pc w0 :
    channels e !! a = Some ch ->
    pendingCommits e !! commitKey (agent ch) "coinflip" = Some pc ->
    now - timestamp pc <= COMMIT_TIMEOUT ->
    0 <= betWei pc <= agentBalance ch ->
    readUInt32BE
      (Buffer_from_hex (CommitReveal.resultHash (CommitReveal.proof_of
         (CommitReveal.computeResult (seed pc) (agentSeed p) (nonce ch))))) 0
      = Some w0 ->
    wp (CoinflipGame._reveal now a p) e (fun r e' =>
      let result := if Z.even w0 then "heads" else "tails" in
      let won := bool_decide (choice pc = Some result) in
      let payout :=
        if won then Z.min (betWei pc * 19 / 10) (casinoBalance ch + betWei pc)
        else 0 in
      exists ch',
        channels e' !! a = Some ch' /\
        agentBalance ch' = agentBalance ch - betWei pc + payout /\
        casinoBalance ch' = casinoBalance ch + betWei pc - payout /\
        nonce ch' = nonce ch + 1 /\
        forall sig,
          signTypedData (agent ch) (agentBalance ch') (casinoBalance ch')
            (nonce ch') = Some sig ->
          exists proof,
            r = Ok (RCoinflipReveal (default "" (choice pc)) result won payout
                      (agentBalance ch') (casinoBalance ch') (nonce ch')
                      sig proof)).
  Proof.
    intros Hch Hpc Hfresh Hcover H0.
    assert (Heven : (w0 mod 2 =? 0) = Z.even w0)
      by (symmetry; apply Zeven_mod).
    assert (Hquot : Z.quot (betWei pc * 19) 10 = betWei pc * 19 / 10)
      by (apply Z.quot_div_nonneg; lia).
    assert (Hwon : forall s : string,
      bool_decide (Some s = choice pc) = bool_decide (choice pc = Some s))
      by (intros s; apply bool_decide_ext; split; congruence).
    cbv beta delta [CoinflipGame._reveal].
    repeat wp_go.
    all: try (exfalso; zbools; unfold_locals; lia).
    all: repeat match goal with x := _ |- _ => subst x end.
    all: cbv zeta in *; fields; rewrite ?Heven, ?Hquot, ?Hwon in *.
    all: rewrite ?insert_insert_eq, lookup_insert_eq.
    all: eexists; split; [reflexivity|]; fields.
    all: match goal with
         | |- context [bool_decide ?P] => destruct (bool_decide P) eqn:?
         end.
    all: repeat (split; [first [reflexivity | (repeat case_match; zbools; lia)]|]).
    all: intros sig Hsig; try congruence.
    all: match goal with
         | Ha : ?f = Some ?s1, Hb : ?f = Some ?s2 |- _ =>
             rewrite Ha in Hb; injection Hb as ->
         end.
    all: eexists; repeat f_equal; repeat case_match; zbools; lia.
  Qed.
End CoinflipReveal.

(** C7. For a pending coinflip commit that has not expired, with a bet
    that is not negative and that the agent covers: the result is heads
    exactly when the big-endian uint32 at offset 0 of the result hash is
    even; a win pays floor(bet * 19 / 10) capped at casinoBalance + bet, a
    loss pays 0; the balances move by that payout against the bet, so the
    sum of the balances is unchanged; and on a house side that is not
    negative a winning bet of 1 wei pays exactly 1 wei. *)
Theorem coinflip_payout `{Platform} (now : Z) (a : string) (p : Params)
    (e : GamingEngine) (ch : Channel) (pc : PendingCommit) :
  channels e !! a = Some ch ->
  pendingCommits e !! commitKey (agent ch) "coinflip" = Some pc ->
  now - timestamp pc <= COMMIT_TIMEOUT ->
  0 <= betWei pc <= agentBalance ch ->
  0 <= casinoBalance ch ->
  let digest :=
    sha256 (seed pc +:+ ":" +:+ agentSeed p +:+ ":" +:+ pretty (nonce ch)) in
  exists w0,
    readUInt32BE digest 0 = Some w0 /\
    let result := if Z.even w0 then "heads" else "tails" in
    let won := bool_decide (choice pc = Some result) in
    let payout :=
      if won then Z.min (betWei pc * 19 / 10) (casinoBalance ch + betWei pc)
      else 0 in
    let r := CoinflipGame._reveal now a p e in
    exists ch',
      channels (snd r) !! a = Some ch' /\
      agentBalance ch' = agentBalance ch - betWei pc + payout /\
      casinoBalance ch' = casinoBalance ch + betWei pc - payout /\
      nonce ch' = nonce ch + 1 /\
      (conserved ch -> conserved ch') /\
      (betWei pc = 1 -> won = true -> payout = 1) /\
      forall sig,
        signTypedData (agent ch) (agentBalance ch') (casinoBalance ch')
          (nonce ch') = Some sig ->
        exists proof,
          fst r = Ok (RCoinflipReveal (default "" (choice pc)) result won
                        payout (agentBalance ch') (casinoBalance ch')
                        (nonce ch') sig proof).
Proof.
  intros Hch Hpc Hfresh Hcover Hhouse digest.
  destruct (digest_read
    (seed pc +:+ ":" +:+ agentSeed p +:+ ":" +:+ pretty (nonce ch)) 0)
    as (w0 & H0 & _); [lia|].
  exists w0. split; [exact H0|].
  intros result won payout r.
  pose proof (coinflip_reveal_result now a p e ch pc w0 Hch Hpc Hfresh Hcover)
    as Hres.
  rewrite resultHash_buffer in Hres. specialize (Hres H0).
  unfold wp in Hres. cbv zeta in Hres.
  fold result in Hres. fold won in Hres. fold payout in Hres.
  destruct Hres as (ch' & Hch' & Hab & Hcb & Hn & Hsig).
  exists ch'. repeat (split; [assumption|]).
  split.
  { destruct (moved_lookup a e _ a ch (coinflip_reveal_moved now a p e) Hch)
      as (y & ch0 & Hch0 & Htr).
    assert (ch0 = ch') by (unfold r in Hch'; congruence). subst ch0.
    apply (transfer_conserved y ch ch' Htr). }
  split; [|exact Hsig].
  intros Hbet Hwon. subst payout. rewrite Hwon, Hbet.
  change (1 * 19 / 10) with 1. lia.
Qed.

Lemma coinflip_payout_witness :
  exists ch',
    channels (snd (@CoinflipGame._reveal up_platform 2 alice flip_params
                     (flipping up_platform))) !! alice = Some ch' /\
    agentBalance ch' = 10 ^ 18 - 10 ^ 15 + 19 * 10 ^ 14 /\
    casinoBalance ch' = 5 * 10 ^ 18 + 10 ^ 15 - 19 * 10 ^ 14 /\
    nonce ch' = 1.
Proof.
  destruct (@coinflip_payout up_platform 2 alice flip_params
              (flipping up_platform) alice_channel
              (mkPending (hex_of_bytes (replicate 32 x00)) (10 ^ 15)
                 (Some "heads") "coinflip" 1))
    as (w0 & H0 & ch' & Hch' & Hab & Hcb & Hn & _).
  - vm_compute. reflexivity.
  - vm_compute. reflexivity.
  - vm_compute. discriminate.
  - vm_compute. split; discriminate.
  - vm_compute. discriminate.
  - exists ch'. vm_compute in H0. injection H0 as <-.
    split; [exact Hch'|]. split; [exact Hab|]. split; [exact Hcb|exact Hn].
Defined.

(** ** Lotto *)

Lemma Map_get_absent {V} (k : string) (m : list (string * V)) :
  k ∉ map fst m -> Map_get k m = None.
Proof.
  induction m as [|[k' v] m IH]; [reflexivity|].
  cbn [map fst Map_get]. intros Hnotin.
  apply not_elem_of_cons in Hnotin as [Hne Hrest].
  destruct (decide (k = k')); [contradiction|]. apply IH, Hrest.
Qed.

Lemma credit_winners_unclaimed winning ts (u : gmap string Z) ag :
  NoDup (map fst ts) ->
  default 0 (fst (LottoGame.credit_winners winning ts u) !! ag)
  = default 0 (u !! ag)
    + LottoGame.TICKET_PRICE * LottoGame.PAYOUT_MULTIPLIER
      * Z.of_nat (length (filter (fun t => t = winning)
                            (default [] (Map_get ag ts)))).
Proof.
  revert u. induction ts as [|[ag0 tk] ts IH]; intros u Hnodup.
  - cbn. lia.
  - cbn [map fst] in Hnodup. apply NoDup_cons in Hnodup as [Hfresh Hnodup].
    cbn [LottoGame.credit_winners Map_get].
    destruct (decide (ag = ag0)) as [->|Hne].
    + cbn [default from_option]. unfold id at 2.
      destruct (_ >? 0) eqn:Hm; cbn [fst]; rewrite IH by exact Hnodup;
        rewrite (Map_get_absent ag0 ts Hfresh); cbn [default from_option];
        rewrite filter_nil; cbn [length]; unfold id.
      * rewrite lookup_insert_eq. cbn [default from_option]. unfold id. lia.
      * zbools.
        match goal with Hle : Z.of_nat ?n <= 0 |- _ =>
          assert (Hzero : Z.of_nat n = 0) by lia; rewrite Hzero end.
        lia.
    + destruct (_ >? 0) eqn:Hm; cbn [fst]; rewrite IH by exact Hnodup;
        [rewrite lookup_insert_ne by congruence|]; reflexivity.
Qed.

Section LottoLifecycle.
  Context `{Platform}.

Lemma startNewDraw_frame now e :
    wp (LottoGame._startNewDraw now) e (fun r e' =>
      r = Ok tt /\ channels e' = channels e /\
      unclaimedWinnings (lotto e') = unclaimedWinnings (lotto e)).
  Proof.
    cbv beta delta [LottoGame._startNewDraw].
    repeat wp_step. repeat split.
  Qed.

Lemma executeDraw_result now id e d w0 :
    Map_get id (draws (lotto e)) = Some d ->
    drawn d = false ->
    NoDup (map fst (tickets d)) ->
    readUInt32BE
      (Buffer_from_hex (CommitReveal.resultHash (CommitReveal.proof_of
         (CommitReveal.computeResult (d_casinoSeed d)
            (pretty (Z.of_nat (length (tickets d))) +:+ ":"
               +:+ pretty (totalPool d)) id)))) 0 = Some w0 ->
    wp (LottoGame.executeDraw now id) e (fun r e' =>
      (exists dr, r = Ok dr /\ dr_winningNumber dr = w0 mod 100 + 1) /\
      channels e' = channels e /\
      forall ag,
        default 0 (unclaimedWinnings (lotto e') !! ag)
        = default 0 (unclaimedWinnings (lotto e) !! ag)
          + LottoGame.TICKET_PRICE * 85
            * matching_tickets (w0 mod 100 + 1) d ag).
  Proof.
    intros Hd Hfresh Hnodup H0.
    cbv beta delta [LottoGame.executeDraw].
    repeat wp_go; try congruence.
    eapply wp_conseq; [apply startNewDraw_frame|].
    intros r e' (-> & Hch & Hun). lazy beta iota.
    repeat wp_step.
    repeat match goal with x := _ |- _ => subst x end.
    cbv zeta in *. fields.
    split; [eexists; split; [reflexivity|reflexivity]|].
    split; [exact Hch|].
    intros ag. rewrite Hun. fields.
    apply credit_winners_unclaimed, Hnodup.
  Qed.

Lemma lotto_claim_result a e ch u :
    channels e !! a = Some ch ->
    unclaimedWinnings (lotto e) !! agent ch = Some u ->
    0 < u ->
    wp (LottoGame._claim a) e (fun r e' =>
      let claimed := Z.min u (casinoBalance ch) in
      exists ch',
        channels e' !! a = Some ch' /\
        agentBalance ch' = agentBalance ch + claimed /\
        casinoBalance ch' = casinoBalance ch - claimed /\
        nonce ch' = nonce ch + 1 /\
        default 0 (unclaimedWinnings (lotto e') !! agent ch) = u - claimed /\
        forall sig,
          signTypedData (agent ch) (agentBalance ch') (casinoBalance ch')
            (nonce ch') = Some sig ->
          r = Ok (RLottoClaim claimed (u - claimed) (agentBalance ch')
                    (casinoBalance ch') (nonce ch') sig)).
  Proof.
    intros Hch Hu Hpos.
    assert (Hclaim :
      (if u >? casinoBalance ch then casinoBalance ch else u)
      = Z.min u (casinoBalance ch))
      by (case_match; zbools; lia).
    cbv beta delta [LottoGame._claim].
    repeat wp_go.
    all: repeat match goal with x := _ |- _ => subst x end.
    all: cbv zeta in *; fields.
    all: rewrite ?Hu in *; cbn [default from_option] in *; unfold id in *.
    all: try (exfalso; zbools; lia).
    all: rewrite ?Hclaim in *.
    all: eexists; split; [apply lookup_insert_eq|]; fields.
    all: repeat (split; [reflexivity|]).
    all: (split;
      [ unfold LottoGame.settle_unclaimed;
        match goal with
        | |- context [if ?b then _ else _] => destruct b eqn:?
        end;
        [rewrite lookup_insert_eq|rewrite lookup_delete_eq];
        cbn [default from_option]; unfold id; zbools; lia |]).
    all: intros sig Hsig; try congruence.
    all: match goal with
         | Ha : ?f = Some ?s1, Hb : ?f = Some ?s2 |- _ =>
             rewrite Ha in Hb; injection Hb as ->
         end; reflexivity.
  Qed.
End LottoLifecycle.

(** C8. executeDraw on a draw that was not yet executed draws
    (uint32 at offset 0 of the result hash) mod 100 + 1, credits
    UnclaimedWinnings of every agent by ticketPrice * 85 * (number of the
    agent's tickets equal to that number) and leaves the channel table
    untouched. A later claim on an open channel of an agent with unclaimed
    winnings u > 0 moves exactly min(u, casinoBalance) from the house to
    the agent, leaves u - min(u, casinoBalance) unclaimed, increments the
    nonce by exactly 1 and, with the new state signed, returns that
    signature. *)
Theorem lotto_winnings_lifecycle `{Platform} (now id : Z) (e : GamingEngine)
    (d : Draw) (e2 : GamingEngine) (a : string) (ch : Channel) (u : Z) :
  Map_get id (draws (lotto e)) = Some d ->
  drawn d = false ->
  NoDup (map fst (tickets d)) ->
  channels e2 !! a = Some ch ->
  unclaimedWinnings (lotto e2) !! agent ch = Some u ->
  0 < u ->
  (let entropy :=
     pretty (Z.of_nat (length (tickets d))) +:+ ":" +:+ pretty (totalPool d) in
   let digest :=
     sha256 (d_casinoSeed d +:+ ":" +:+ entropy +:+ ":" +:+ pretty id) in
   let r := LottoGame.executeDraw now id e in
   exists w0 dr,
     readUInt32BE digest 0 = Some w0 /\
     fst r = Ok dr /\
     dr_winningNumber dr = w0 mod 100 + 1 /\
     channels (snd r) = channels e /\
     forall ag,
       default 0 (unclaimedWinnings (lotto (snd r)) !! ag)
       = default 0 (unclaimedWinnings (lotto e) !! ag)
         + LottoGame.TICKET_PRICE * 85
           * matching_tickets (dr_winningNumber dr) d ag) /\
  (let claimed := Z.min u (casinoBalance ch) in
   let r := LottoGame._claim a e2 in
   exists ch',
     channels (snd r) !! a = Some ch' /\
     agentBalance ch' = agentBalance ch + claimed /\
     casinoBalance ch' = casinoBalance ch - claimed /\
     nonce ch' = nonce ch + 1 /\
     default 0 (unclaimedWinnings (lotto (snd r)) !! agent ch) = u - claimed /\
     forall sig,
       signTypedData (agent ch) (agentBalance ch') (casinoBalance ch')
         (nonce ch') = Some sig ->
       fst r = Ok (RLottoClaim claimed (u - claimed) (agentBalance ch')
                     (casinoBalance ch') (nonce ch') sig)).
Proof.
  intros Hd Hfresh Hnodup Hch Hu Hpos. split.
  - intros entropy digest r.
    destruct (digest_read
      (d_casinoSeed d +:+ ":" +:+ entropy +:+ ":" +:+ pretty id) 0)
      as (w0 & H0 & _); [lia|].
    pose proof (executeDraw_result now id e d w0 Hd Hfresh Hnodup) as Hres.
    rewrite resultHash_buffer in Hres. specialize (Hres H0).
    destruct Hres as ((dr & Hdr & Hwin) & Hchan & Hcredit).
    exists w0, dr. split; [exact H0|]. split; [exact Hdr|].
    split; [exact Hwin|]. split; [exact Hchan|].
    intros ag. rewrite Hwin. apply Hcredit.
  - exact (lotto_claim_result a e2 ch u Hch Hu Hpos).
Qed.

Lemma lotto_winnings_lifecycle_witness :
  default 0
    (unclaimedWinnings
       (lotto (snd (@LottoGame.executeDraw up_platform 21600001 1
                      (waiting up_platform)))) !! alice)
    = 85 * 10 ^ 15 /\
  exists ch',
    channels (snd (@LottoGame._claim up_platform alice
                     (reopened up_platform))) !! alice = Some ch' /\
    agentBalance ch' = 185 * 10 ^ 15 /\
    casinoBalance ch' = 15 * 10 ^ 15 /\
    nonce ch' = 1.
Proof.
  destruct (@lotto_winnings_lifecycle up_platform 21600001 1
              (waiting up_platform) first_draw (reopened up_platform) alice
              second_channel (85 * 10 ^ 15))
    as [(w0 & dr & H0 & _ & Hwin & _ & Hcredit)
        (ch' & Hch' & Hab & Hcb & Hn & _)].
  - vm_compute. reflexivity.
  - reflexivity.
  - apply NoDup_singleton.
  - vm_compute. reflexivity.
  - vm_compute. reflexivity.
  - vm_compute. reflexivity.
  - split.
    + rewrite Hcredit, Hwin. vm_compute in H0. injection H0 as <-.
      vm_compute. reflexivity.
    + exists ch'. split; [exact Hch'|]. split; [exact Hab|].
      split; [exact Hcb|exact Hn].
Defined.

(** ** Pending commits *)

Lemma chars_app (s t : string) : chars (s +:+ t) = chars s ++ chars t.
Proof.
  induction s as [|c s IH]; [reflexivity|].
  change (String c s +:+ t) with (String c (s +:+ t)).
  cbn [chars]. rewrite IH. reflexivity.
Qed.

Lemma chars_inj (s t : string) : chars s = chars t -> s = t.
Proof.
  revert t. induction s as [|c s IH]; intros [|c' t]; cbn; try discriminate.
  - reflexivity.
  - intros [= -> Hrest]. f_equal. apply IH, Hrest.
Qed.

Lemma commitKey_inj (a1 a2 : string) (g1 g2 : Plugin) :
  g1 <> Lotto -> g2 <> Lotto ->
  commitKey a1 (Engine.plugin_name g1) = commitKey a2 (Engine.plugin_name g2) ->
  a1 = a2 /\ g1 = g2.
Proof.
  intros Hg1 Hg2 Hkey. apply (f_equal chars) in Hkey.
  unfold commitKey in Hkey. rewrite !chars_app in Hkey.
  destruct g1, g2; try contradiction; cbn [Engine.plugin_name] in Hkey.
  - apply app_inj_2 in Hkey as [Ha _]; [|reflexivity].
    split; [apply chars_inj, Ha|reflexivity].
  - apply (f_equal last) in Hkey. rewrite !last_app in Hkey. discriminate.
  - apply (f_equal last) in Hkey. rewrite !last_app in Hkey. discriminate.
  - apply app_inj_2 in Hkey as [Ha _]; [|reflexivity].
    split; [apply chars_inj, Ha|reflexivity].
Qed.

Section PendingCommits.
  Context `{Platform}.

Lemma slots_commit_pending now a p e ch pc :
    channels e !! a = Some ch ->
    pendingCommits e !! commitKey (agent ch) "slots" = Some pc ->
    wp (SlotsGame._commit now a p) e (fun r e' =>
      (exists msg, r = Throw msg) /\ e' = e).
  Proof.
    intros Hch Hpc. cbv beta delta [SlotsGame._commit].
    repeat wp_go; eauto.
  Qed.

Lemma coinflip_commit_pending now a p e ch pc :
    channels e !! a = Some ch ->
    pendingCommits e !! commitKey (agent ch) "coinflip" = Some pc ->
    wp (CoinflipGame._commit now a p) e (fun r e' =>
      (exists msg, r = Throw msg) /\ e' = e).
  Proof.
    intros Hch Hpc. cbv beta delta [CoinflipGame._commit].
    repeat wp_go; eauto.
  Qed.

Lemma slots_commit_free now a p e ch bet :
    channels e !! a = Some ch ->
    pendingCommits e !! commitKey (agent ch) "slots" = None ->
    betAmount p = Some bet ->
    BaseGame.validateBet SlotsGame.maxMultiplier ch bet 2 = Ok tt ->
    wp (SlotsGame._commit now a p) e (fun r e' =>
      exists seed commitment,
        r = Ok (RCommit commitment bet None) /\
        channels e' = channels e /\
        pendingCommits e'
          = <[commitKey (agent ch) "slots" :=
                mkPending seed bet None "slots" now]> (pendingCommits e)).
  Proof.
    intros Hch Hpc Hbet Hvalid. cbv beta delta [SlotsGame._commit].
    repeat wp_go. do 2 eexists. repeat split.
  Qed.

Lemma coinflip_commit_free now a p e ch bet :
    channels e !! a = Some ch ->
    pendingCommits e !! commitKey (agent ch) "coinflip" = None ->
    betAmount p = Some bet ->
    BaseGame.validateBet CoinflipGame.maxMultiplier ch bet 2 = Ok tt ->
    p_choice p = "heads" \/ p_choice p = "tails" ->
    wp (CoinflipGame._commit now a p) e (fun r e' =>
      exists seed commitment,
        r = Ok (RCommit commitment bet (Some (p_choice p))) /\
        channels e' = channels e /\
        pendingCommits e'
          = <[commitKey (agent ch) "coinflip" :=
                mkPending seed bet (Some (p_choice p)) "coinflip" now]>
              (pendingCommits e)).
  Proof.
    intros Hch Hpc Hbet Hvalid Hchoice.
    assert (Hok : negb (String.eqb (p_choice p) "heads"
                        || String.eqb (p_choice p) "tails") = false)
      by (destruct Hchoice as [-> | ->]; reflexivity).
    cbv beta delta [CoinflipGame._commit].
    repeat wp_go. do 2 eexists. repeat split.
  Qed.
End PendingCommits.

(** C9. Pending commits are stored under the key agent:game, which is
    different for different pairs of an agent and a game with a commit
    action, so the table holds at most one pending commit per pair. While
    an agent has a pending commit for a game, a commit to the same game,
    with any parameters and whatever else is pending, throws and leaves the
    whole engine state as it is; a commit of the same agent to the other
    game, when none is pending there, with a bet that passes its
    validateBet (and a valid choice for coinflip), returns its commitment,
    stores its own pending commit and leaves the first one in place. *)
Theorem single_pending_commit `{Platform} (g : Plugin) (now : Z)
    (a : string) (p : Params) (e : GamingEngine) (ch : Channel)
    (pc : PendingCommit) :
  g <> Lotto ->
  channels e !! a = Some ch ->
  pendingCommits e !! commitKey (agent ch) (Engine.plugin_name g) = Some pc ->
  (forall a2 g2,
     g2 <> Lotto ->
     commitKey a2 (Engine.plugin_name g2)
       = commitKey (agent ch) (Engine.plugin_name g) ->
     a2 = agent ch /\ g2 = g) /\
  (forall pc1 pc2 k,
     pendingCommits e !! k = Some pc1 -> pendingCommits e !! k = Some pc2 ->
     pc1 = pc2) /\
  (exists msg,
     Engine.plugin_handleAction g "commit" now a p e = (Throw msg, e)) /\
  (forall (g' : Plugin) (now' : Z) (p' : Params) (bet : Z),
     g' <> Lotto -> g <> g' ->
     pendingCommits e !! commitKey (agent ch) (Engine.plugin_name g') = None ->
     betAmount p' = Some bet ->
     BaseGame.validateBet (Engine.plugin_maxMultiplier g') ch bet 2 = Ok tt ->
     (g' = Coinflip -> p_choice p' = "heads" \/ p_choice p' = "tails") ->
     let r := Engine.plugin_handleAction g' "commit" now' a p' e in
     exists commitment pc',
       fst r = Ok (RCommit commitment bet (choice pc')) /\
       betWei pc' = bet /\
       pendingCommits (snd r) !! commitKey (agent ch) (Engine.plugin_name g')
         = Some pc' /\
       pendingCommits (snd r) !! commitKey (agent ch) (Engine.plugin_name g)
         = Some pc /\
       channels (snd r) = channels e).
Proof.
  intros Hg Hch Hpc.
  split; [|split; [|split]].
  - intros a2 g2 Hg2 Hkey. apply commitKey_inj; assumption.
  - intros pc1 pc2 k H1 H2. congruence.
  - destruct g; try contradiction.
    + destruct (slots_commit_pending now a p e ch pc Hch Hpc)
        as [[msg Hmsg] Hsame].
      exists msg. apply injective_projections; assumption.
    + destruct (coinflip_commit_pending now a p e ch pc Hch Hpc)
        as [[msg Hmsg] Hsame].
      exists msg. apply injective_projections; assumption.
  - intros g' now' p' bet Hg' Hne Hfree Hbet Hvalid Hchoice.
    assert (Hother :
      commitKey (agent ch) (Engine.plugin_name g')
      <> commitKey (agent ch) (Engine.plugin_name g)).
    { intros Hkey. apply commitKey_inj in Hkey as [_ ?]; congruence. }
    intros r.
    destruct g'; try contradiction.
    + destruct (slots_commit_free now' a p' e ch bet Hch Hfree Hbet Hvalid)
        as (seed0 & commitment & Hr & Hchan & Hpend).
      exists commitment, (mkPending seed0 bet None "slots" now').
      split; [exact Hr|]. split; [reflexivity|].
      unfold r. change (Engine.plugin_handleAction Slots "commit" now' a p' e)
        with (SlotsGame._commit now' a p' e).
      rewrite Hpend. split; [apply lookup_insert_eq|].
      split; [|exact Hchan].
      rewrite lookup_insert_ne by exact Hother. exact Hpc.
    + destruct (coinflip_commit_free now' a p' e ch bet Hch Hfree Hbet Hvalid
                  (Hchoice eq_refl))
        as (seed0 & commitment & Hr & Hchan & Hpend).
      exists commitment,
        (mkPending seed0 bet (Some (p_choice p')) "coinflip" now').
      split; [exact Hr|]. split; [reflexivity|].
      unfold r.
      change (Engine.plugin_handleAction Coinflip "commit" now' a p' e)
        with (CoinflipGame._commit now' a p' e).
      rewrite Hpend. split; [apply lookup_insert_eq|].
      split; [|exact Hchan].
      rewrite lookup_insert_ne by exact Hother. exact Hpc.
Qed.

Lemma single_pending_commit_witness :
  (exists msg,
     @Engine.plugin_handleAction up_platform Slots "commit" 2 alice
       spin_params (spinning up_platform)
     = (Throw msg, spinning up_platform)) /\
  exists commitment,
    fst (@Engine.plugin_handleAction up_platform Coinflip "commit" 2 alice
           flip_params (spinning up_platform))
    = Ok (RCommit commitment (10 ^ 15) (Some "heads")).
Proof.
  destruct (@single_pending_commit up_platform Slots 2 alice
              spin_params (spinning up_platform) alice_channel
              (mkPending (hex_of_bytes (replicate 32 x00)) (10 ^ 15) None
                 "slots" 1))
    as (_ & _ & Hsame & Hother).
  - discriminate.
  - vm_compute. reflexivity.
  - vm_compute. reflexivity.
  - split; [exact Hsame|].
    destruct (Hother Coinflip 2 flip_params (10 ^ 15))
      as (commitment & pc' & Hr & Hbet & Hnew & _).
    + discriminate.
    + discriminate.
    + vm_compute. reflexivity.
    + reflexivity.
    + vm_compute. reflexivity.
    + intros _. left. reflexivity.
    + exists commitment.
      assert (Hc : choice pc' = Some "heads").
      { vm_compute in Hnew. injection Hnew as <-. reflexivity. }
      rewrite <- Hc. exact Hr.
Defined.

(** ** A claim without winnings *)

Ltac signed_write :=
  unfold signed_update; fields;
  rewrite ?insert_insert_eq, lookup_insert_eq;
  do 2 eexists; split; [reflexivity|];
  split; [unfold_channels; fields; reflexivity|];
  unfold_channels; fields; eassumption.

Ltac signed_update_tac :=
  unfold thrown; repeat wp_go; intros; try discriminate; signed_write.

Section ClaimNothing.
  Context `{Platform}.

Lemma lotto_claim_nothing a e ch :
    channels e !! a = Some ch ->
    default 0 (unclaimedWinnings (lotto e) !! agent ch) = 0 ->
    wp (LottoGame._claim a) e (fun r e' =>
      r = Ok (RLottoClaimNone "0" "No unclaimed winnings") /\ e' = e).
  Proof.
    intros Hch Hzero. cbv beta delta [LottoGame._claim].
    repeat wp_go; try (split; reflexivity).
    all: exfalso; zbools; unfold_locals; congruence.
  Qed.

Lemma route_lotto_claim now a p e ch :
    channels e !! a = Some ch ->
    Engine.handleGameAction now "lotto_claim" a p e = LottoGame._claim a e.
  Proof.
    intros Hch. unfold Engine.handleGameAction.
    change (Map_get "lotto_claim" Engine.actionMap) with (Some (Lotto, "claim")).
    cbv beta iota zeta.
    change (negb (existsb (String.eqb "claim") ["status"; "history"; "info"]))
      with true.
    cbv beta iota.
    change (Engine.plugin_handleAction Lotto "claim" now a p)
      with (LottoGame._claim a).
    unfold bind at 1. unfold bind at 1.
    unfold Engine._getChannel, readChannel. rewrite Hch. reflexivity.
  Qed.

Lemma slots_reveal_signed now a p e ch :
    channels e !! a = Some ch ->
    wp (SlotsGame._reveal now a p) e
      (fun r e' => thrown r = None -> signed_update a ch e').
  Proof.
    intros Hch. cbv beta delta [SlotsGame._reveal]. signed_update_tac.
  Qed.

Lemma coinflip_reveal_signed now a p e ch :
    channels e !! a = Some ch ->
    wp (CoinflipGame._reveal now a p) e
      (fun r e' => thrown r = None -> signed_update a ch e').
  Proof.
    intros Hch. cbv beta delta [CoinflipGame._reveal]. signed_update_tac.
  Qed.

Lemma lotto_buy_signed now a p e ch :
    channels e !! a = Some ch ->
    wp (LottoGame._buy now a p) e
      (fun r e' => thrown r = None -> signed_update a ch e').
  Proof.
    intros Hch. cbv beta delta [LottoGame._buy]. signed_update_tac.
  Qed.

Lemma applyWinnings_signed a payoutWei e ch :
    channels e !! a = Some ch ->
    wp (LottoGame.applyWinnings a payoutWei) e
      (fun r e' => thrown r = None -> signed_update a ch e').
  Proof.
    intros Hch. cbv beta delta [LottoGame.applyWinnings]. signed_update_tac.
  Qed.

Lemma lotto_claim_signed a e ch :
    channels e !! a = Some ch ->
    wp (LottoGame._claim a) e (fun r e' =>
      thrown r = None ->
      (default 0 (unclaimedWinnings (lotto e) !! agent ch) = 0 /\ e' = e) \/
      signed_update a ch e').
  Proof.
    intros Hch. cbv beta delta [LottoGame._claim].
    unfold thrown; repeat wp_go; intros; try discriminate.
    - left. zbools. unfold_locals. auto.
    - right. signed_write.
  Qed.
End ClaimNothing.

(** C10. On a channel whose agent has no unclaimed lotto winnings, the
    lotto claim (called directly or through the lotto_claim route) returns
    claimed = "0" with its message and no signature, and leaves the whole
    engine state, hence agentBalance, casinoBalance, nonce and the games
    list of the channel, as it was. Every other run of a balance-changing
    action that returns leaves the channel with the nonce incremented by 1
    and has obtained a signature over that new state. *)
Theorem claim_without_winnings `{Platform} (now : Z) (a : string)
    (p : Params) (e : GamingEngine) (ch : Channel) :
  channels e !! a = Some ch ->
  default 0 (unclaimedWinnings (lotto e) !! agent ch) = 0 ->
  LottoGame._claim a e
    = (Ok (RLottoClaimNone "0" "No unclaimed winnings"), e) /\
  Engine.handleGameAction now "lotto_claim" a p e
    = (Ok (RLottoClaimNone "0" "No unclaimed winnings"), e) /\
  forall m e0 ch0,
    channels e0 !! a = Some ch0 ->
    fst (mutate m a e0) = None ->
    (m = LottoClaim /\
     default 0 (unclaimedWinnings (lotto e0) !! agent ch0) = 0 /\
     snd (mutate m a e0) = e0) \/
    exists ch' sig,
      channels (snd (mutate m a e0)) !! a = Some ch' /\
      nonce ch' = nonce ch0 + 1 /\
      signTypedData (agent ch') (agentBalance ch') (casinoBalance ch')
        (nonce ch') = Some sig.
Proof.
  intros Hch Hzero.
  assert (Hclaim : LottoGame._claim a e
                   = (Ok (RLottoClaimNone "0" "No unclaimed winnings"), e)).
  { destruct (lotto_claim_nothing a e ch Hch Hzero) as [Hr He].
    apply injective_projections; assumption. }
  split; [exact Hclaim|]. split.
  - rewrite (route_lotto_claim now a p e ch Hch). exact Hclaim.
  - intros m e0 ch0 Hch0 Hdone.
    destruct m; cbn [mutate outcome fst snd] in *.
    + right. apply (slots_reveal_signed now0 a params e0 ch0 Hch0 Hdone).
    + right. apply (coinflip_reveal_signed now0 a params e0 ch0 Hch0 Hdone).
    + right. apply (lotto_buy_signed now0 a params e0 ch0 Hch0 Hdone).
    + destruct (lotto_claim_signed a e0 ch0 Hch0 Hdone) as [[Hz He]|Hsigned].
      * left. auto.
      * right. exact Hsigned.
    + right. apply (applyWinnings_signed a payoutWei e0 ch0 Hch0 Hdone).
Qed.

Lemma claim_without_winnings_witness :
  @Engine.handleGameAction up_platform 1 "lotto_claim" alice no_params
    (table up_platform)
  = (Ok (RLottoClaimNone "0" "No unclaimed winnings"), table up_platform).
Proof.
  refine (proj1 (proj2 (@claim_without_winnings up_platform 1 alice no_params
                          (table up_platform) alice_channel _ _))).
  - vm_compute. reflexivity.
  - vm_compute. reflexivity.
Defined.

(** * Further properties of the code *)

(** ** Maps in insertion order *)

Section JsMapFacts.
  Context {K V : Type} `{EqDecision K}.
  Implicit Types (k : K) (v : V) (m : list (K * V)).

Lemma Map_get_set_eq k v m : Map_get k (Map_set k v m) = Some v.
Proof.
  induction m as [|[k' v'] m IH]; cbn.
  - destruct (decide (k = k)); congruence.
  - destruct (decide (k = k')) as [->|Hne]; cbn.
    + destruct (decide (k' = k')); congruence.
    + destruct (decide (k = k')); [contradiction|exact IH].
Qed.

Lemma Map_get_set_ne k k' v m :
  k <> k' -> Map_get k' (Map_set k v m) = Map_get k' m.
Proof.
  intros Hne. induction m as [|[k0 v0] m IH]; cbn.
  - destruct (decide (k' = k)); congruence.
  - destruct (decide (k = k0)) as [->|Hk]; cbn.
    + destruct (decide (k' = k0)); congruence.
    + destruct (decide (k' = k0)); [reflexivity|exact IH].
Qed.

Lemma Map_get_In k v m : Map_get k m = Some v -> (k, v) ∈ m.
Proof.
  induction m as [|[k' v'] m IH]; cbn; [discriminate|].
  destruct (decide (k = k')) as [->|Hne].
  - intros [= ->]. left.
  - intros Hg. right. exact (IH Hg).
Qed.

Lemma In_keys k v m : (k, v) ∈ m -> k ∈ map fst m.
Proof.
  induction m as [|[k' v'] m IH]; intros Hin; [inversion Hin|].
  cbn. apply elem_of_cons in Hin as [[= <- <-]|Hin]; [left|right; auto].
Qed.

Lemma Map_get_Some_key k v m : Map_get k m = Some v -> k ∈ map fst m.
Proof. intros Hg. eapply In_keys, Map_get_In, Hg. Qed.

Lemma Map_get_None_key k m : Map_get k m = None -> k ∉ map fst m.
Proof.
  induction m as [|[k' v'] m IH]; cbn.
  - intros _ Hin. inversion Hin.
  - destruct (decide (k = k')) as [->|Hne]; [discriminate|].
    intros Hg Hin. apply elem_of_cons in Hin as [Heq|Hin]; [contradiction|].
    exact (IH Hg Hin).
Qed.

Lemma Map_set_keys k v m :
  map fst (Map_set k v m)
  = if Map_has k m then map fst m else map fst m ++ [k].
Proof.
  unfold Map_has. induction m as [|[k' v'] m IH]; cbn; [reflexivity|].
  destruct (decide (k = k')) as [->|Hne]; cbn; [reflexivity|].
  rewrite IH. destruct (Map_get k m); reflexivity.
Qed.

Lemma Map_set_NoDup k v m :
  NoDup (map fst m) -> NoDup (map fst (Map_set k v m)).
Proof.
  intros Hnd. rewrite Map_set_keys. unfold Map_has.
  destruct (Map_get k m) eqn:Hg; [exact Hnd|].
  apply NoDup_app. split; [exact Hnd|]. split.
  - intros x Hx Hk. apply list_elem_of_singleton in Hk as ->.
    exact (Map_get_None_key _ _ Hg Hx).
  - apply NoDup_singleton.
Qed.

Lemma Map_set_Forall (P : K * V -> Prop) k v m :
  Forall P m -> P (k, v) -> Forall P (Map_set k v m).
Proof.
  intros Hm Hkv. induction m as [|[k' v'] m IH]; cbn.
  - repeat constructor. exact Hkv.
  - inversion Hm; subst.
    destruct (decide (k = k')); constructor; auto.
Qed.

(** Replacing the entry of [k] only needs the property of the others. *)
Lemma Map_set_Forall_others (P : K * V -> Prop) k v m :
  NoDup (map fst m) ->
  Forall (fun p => fst p <> k -> P p) m -> P (k, v) ->
  Forall P (Map_set k v m).
Proof.
  intros Hnd Hm Hkv. induction m as [|[k' v'] m IH]; cbn.
  - repeat constructor. exact Hkv.
  - inversion Hm as [|? ? Hp Hm']; subst.
    cbn in Hnd. apply NoDup_cons in Hnd as [Hnotin Hnd].
    destruct (decide (k = k')) as [->|Hne].
    + constructor; [exact Hkv|].
      apply Forall_forall. intros [k0 v0] Hin.
      rewrite Forall_forall in Hm'. apply (Hm' _ Hin). cbn.
      intros ->. apply Hnotin. eapply In_keys, Hin.
    + constructor; [apply Hp; cbn; congruence|]. apply IH; assumption.
Qed.

Lemma Map_get_of_In k v m :
  NoDup (map fst m) -> (k, v) ∈ m -> Map_get k m = Some v.
Proof.
  intros Hnd Hin. induction m as [|[k' v'] m IH]; [inversion Hin|].
  cbn in Hnd. apply NoDup_cons in Hnd as [Hnotin Hnd]. cbn.
  apply elem_of_cons in Hin as [[= <- <-]|Hin].
  - destruct (decide (k = k)); congruence.
  - destruct (decide (k = k')) as [->|Hne]; [|exact (IH Hnd Hin)].
    exfalso. apply Hnotin. eapply In_keys, Hin.
Qed.

End JsMapFacts.

(** The tickets of a draw after one agent's list is replaced. *)
Lemma tickets_Map_set (ag : string) (tk : list Z) (m : list (string * list Z)) :
  (length (concat (map snd (Map_set ag tk m)))
   + length (default [] (Map_get ag m))
   = length (concat (map snd m)) + length tk)%nat.
Proof.
  induction m as [|[k' v'] m IH]; cbn.
  - rewrite length_app. cbn. lia.
  - destruct (decide (ag = k')) as [->|Hne]; cbn.
    + rewrite !length_app. lia.
    + rewrite !length_app. lia.
Qed.

(** ** Commit and reveal *)

Section Commits.
  Context `{Platform}.

Lemma slots_commit_returns now a p e :
  wp (SlotsGame._commit now a p) e (fun r e' =>
    match r with
    | Throw _ => e' = e
    | Ok res =>
        exists ch bet,
          channels e !! a = Some ch /\ betAmount p = Some bet /\
          BaseGame.validateBet SlotsGame.maxMultiplier ch bet 2 = Ok tt /\
          pendingCommits e !! commitKey (agent ch) "slots" = None /\
          let sc := CommitReveal.commit (randomBytes (rngCalls e)) in
          res = RCommit (snd sc) bet None /\
          e' = set_pendingCommits
                 (insert (commitKey (agent ch) "slots")
                    (mkPending (fst sc) bet None "slots" now))
                 (set_rngCalls S e)
    end).
Proof.
  cbv beta delta [SlotsGame._commit].
  repeat wp_step; try reflexivity.
  do 2 eexists. repeat split; try eassumption.
  all: repeat match goal with u : unit |- _ => destruct u end; try assumption.
Qed.

Lemma coinflip_commit_returns now a p e :
  wp (CoinflipGame._commit now a p) e (fun r e' =>
    match r with
    | Throw _ => e' = e
    | Ok res =>
        exists ch bet,
          channels e !! a = Some ch /\ betAmount p = Some bet /\
          (p_choice p = "heads" \/ p_choice p = "tails") /\
          BaseGame.validateBet CoinflipGame.maxMultiplier ch bet 2 = Ok tt /\
          pendingCommits e !! commitKey (agent ch) "coinflip" = None /\
          let sc := CommitReveal.commit (randomBytes (rngCalls e)) in
          res = RCommit (snd sc) bet (Some (p_choice p)) /\
          e' = set_pendingCommits
                 (insert (commitKey (agent ch) "coinflip")
                    (mkPending (fst sc) bet (Some (p_choice p)) "coinflip" now))
                 (set_rngCalls S e)
    end).
Proof.
  cbv beta delta [CoinflipGame._commit].
  repeat wp_step; try reflexivity.
  do 2 eexists. repeat split; try eassumption.
  - unfold_locals.
    match goal with Hc : negb _ = false |- _ =>
      apply negb_false_iff, orb_true_iff in Hc;
      destruct Hc as [Hc|Hc]; apply String.eqb_eq in Hc; auto end.
  - match goal with u : unit |- _ => destruct u end. assumption.
Qed.

Lemma slots_reveal_proof now a p e :
  wp (SlotsGame._reveal now a p) e (fun r _ =>
    forall res, r = Ok res ->
      exists ch pc proof,
        channels e !! a = Some ch /\
        pendingCommits e !! commitKey (agent ch) "slots" = Some pc /\
        reveal_proof res = Some proof /\
        rp_casinoSeed proof = seed pc /\
        rp_agentSeed proof = agentSeed p /\
        rp_resultHash proof
          = CommitReveal.hash
              (CommitReveal.computeResult (seed pc) (agentSeed p) (nonce ch))).
Proof.
  cbv beta delta [SlotsGame._reveal].
  repeat wp_step; intros res Hres; try discriminate.
  injection Hres as <-.
  do 3 eexists. repeat split; try eassumption; reflexivity.
Qed.

Lemma coinflip_reveal_proof now a p e :
  wp (CoinflipGame._reveal now a p) e (fun r _ =>
    forall res, r = Ok res ->
      exists ch pc proof,
        channels e !! a = Some ch /\
        pendingCommits e !! commitKey (agent ch) "coinflip" = Some pc /\
        reveal_proof res = Some proof /\
        rp_casinoSeed proof = seed pc /\
        rp_agentSeed proof = agentSeed p /\
        rp_resultHash proof
          = CommitReveal.hash
              (CommitReveal.computeResult (seed pc) (agentSeed p) (nonce ch))).
Proof.
  cbv beta delta [CoinflipGame._reveal].
  repeat wp_step; intros res Hres; try discriminate.
  injection Hres as <-.
  do 3 eexists. repeat split; try eassumption; reflexivity.
Qed.

End Commits.

(** X1. Provable fairness of slots and coinflip: when a commit returned a
    commitment and the reveal that follows returns, the proof in its result
    carries the casino seed whose SHA-256 is that commitment
    (CommitReveal.verify accepts it), the agent seed of the reveal, and
    the hash that computeResult gives these two seeds and the nonce the
    channel had, so the agent can recompute the outcome. *)
Theorem reveal_opens_commitment `{Platform} (g : Plugin) (now1 now2 : Z)
    (a : string) (p1 p2 : Params) (e : GamingEngine)
    (commitment : string) (bet : Z) (c : option string) (res : Result) :
  g <> Lotto ->
  let committed := Engine.plugin_handleAction g "commit" now1 a p1 e in
  fst committed = Ok (RCommit commitment bet c) ->
  fst (Engine.plugin_handleAction g "reveal" now2 a p2 (snd committed)) = Ok res ->
  exists ch proof,
    channels e !! a = Some ch /\
    reveal_proof res = Some proof /\
    CommitReveal.verify commitment (rp_casinoSeed proof) = true /\
    rp_agentSeed proof = agentSeed p2 /\
    rp_resultHash proof
      = CommitReveal.hash
          (CommitReveal.computeResult (rp_casinoSeed proof) (agentSeed p2)
             (nonce ch)).
Proof.
  intros Hg committed Hc Hr. subst committed.
  destruct g; [|contradiction|].
  - cbn [Engine.plugin_handleAction] in *.
    unfold SlotsGame.handleAction in *. cbn [String.eqb Ascii.eqb Bool.eqb] in *.
    pose proof (slots_commit_returns now1 a p1 e) as Hcm. unfold wp in Hcm.
    rewrite Hc in Hcm. destruct Hcm as (ch & bet' & Hch & _ & _ & _ & Hres & He').
    injection Hres as Hcomm _.
    pose proof (slots_reveal_proof now2 a p2
                  (snd (SlotsGame._commit now1 a p1 e))) as Hrv.
    unfold wp in Hrv. destruct (Hrv res Hr) as (ch' & pc & proof & Hch' & Hpc & Hp & Hs & Ha & Hh).
    rewrite He' in Hch', Hpc. fields.
    rewrite Hch in Hch'. injection Hch' as <-.
    rewrite lookup_insert_eq in Hpc. injection Hpc as <-.
    exists ch, proof. repeat split; try assumption.
    + rewrite Hs, Hcomm. cbn. apply bool_decide_eq_true. reflexivity.
    + rewrite Hs. exact Hh.
  - cbn [Engine.plugin_handleAction] in *.
    unfold CoinflipGame.handleAction in *. cbn [String.eqb Ascii.eqb Bool.eqb] in *.
    pose proof (coinflip_commit_returns now1 a p1 e) as Hcm. unfold wp in Hcm.
    rewrite Hc in Hcm. destruct Hcm as (ch & bet' & Hch & _ & _ & _ & _ & Hres & He').
    injection Hres as Hcomm _.
    pose proof (coinflip_reveal_proof now2 a p2
                  (snd (CoinflipGame._commit now1 a p1 e))) as Hrv.
    unfold wp in Hrv. destruct (Hrv res Hr) as (ch' & pc & proof & Hch' & Hpc & Hp & Hs & Ha & Hh).
    rewrite He' in Hch', Hpc. fields.
    rewrite Hch in Hch'. injection Hch' as <-.
    rewrite lookup_insert_eq in Hpc. injection Hpc as <-.
    exists ch, proof. repeat split; try assumption.
    + rewrite Hs, Hcomm. cbn. apply bool_decide_eq_true. reflexivity.
    + rewrite Hs. exact Hh.
Qed.

Lemma reveal_opens_commitment_witness :
  exists ch proof,
    channels (table up_platform) !! alice = Some ch /\
    @CommitReveal.verify up_platform zero_hex (rp_casinoSeed proof) = true.
Proof.
  edestruct (@reveal_opens_commitment up_platform Slots 1 2 alice spin_params
               spin_params (table up_platform) zero_hex (10 ^ 15) None)
    as (ch & proof & Hch & _ & Hv & _).
  - discriminate.
  - vm_compute. reflexivity.
  - vm_compute. reflexivity.
  - exists ch, proof. split; assumption.
Defined.

Lemma commit_verifies `{Platform} rnd :
  CommitReveal.verify (CommitReveal.commit rnd).2 (CommitReveal.commit rnd).1
  = true.
Proof. cbn. apply bool_decide_eq_true. reflexivity. Qed.

Section RevealGuards.
  Context `{Platform}.

Lemma slots_reveal_expired now a p e ch pc :
  channels e !! a = Some ch ->
  pendingCommits e !! commitKey (agent ch) "slots" = Some pc ->
  COMMIT_TIMEOUT < now - timestamp pc ->
  SlotsGame._reveal now a p e
  = (Throw "Commitment expired (5min timeout)",
     set_pendingCommits (delete (commitKey (agent ch) "slots")) e).
Proof.
  intros Hch Hpc Hlate.
  assert (Hb : (now - timestamp pc >? COMMIT_TIMEOUT) = true)
    by (rewrite Z.gtb_ltb; apply Z.ltb_lt, Hlate).
  unfold SlotsGame._reveal, bind, readChannel, gets. rewrite Hch.
  cbv zeta. change (agent ch +:+ ":slots") with (commitKey (agent ch) "slots").
  rewrite Hpc, Hb. reflexivity.
Qed.

Lemma coinflip_reveal_expired now a p e ch pc :
  channels e !! a = Some ch ->
  pendingCommits e !! commitKey (agent ch) "coinflip" = Some pc ->
  COMMIT_TIMEOUT < now - timestamp pc ->
  CoinflipGame._reveal now a p e
  = (Throw "Commitment expired",
     set_pendingCommits (delete (commitKey (agent ch) "coinflip")) e).
Proof.
  intros Hch Hpc Hlate.
  assert (Hb : (now - timestamp pc >? COMMIT_TIMEOUT) = true)
    by (rewrite Z.gtb_ltb; apply Z.ltb_lt, Hlate).
  unfold CoinflipGame._reveal, bind, readChannel, gets. rewrite Hch.
  cbv zeta.
  change (agent ch +:+ ":coinflip") with (commitKey (agent ch) "coinflip").
  rewrite Hpc, Hb. reflexivity.
Qed.

Lemma slots_reveal_nothing now a p e ch :
  channels e !! a = Some ch ->
  pendingCommits e !! commitKey (agent ch) "slots" = None ->
  SlotsGame._reveal now a p e = (Throw "No pending slot spin", e).
Proof.
  intros Hch Hpc.
  unfold SlotsGame._reveal, bind, readChannel, gets. rewrite Hch.
  cbv zeta. change (agent ch +:+ ":slots") with (commitKey (agent ch) "slots").
  rewrite Hpc. reflexivity.
Qed.

Lemma coinflip_reveal_nothing now a p e ch :
  channels e !! a = Some ch ->
  pendingCommits e !! commitKey (agent ch) "coinflip" = None ->
  CoinflipGame._reveal now a p e = (Throw "No pending coinflip", e).
Proof.
  intros Hch Hpc.
  unfold CoinflipGame._reveal, bind, readChannel, gets. rewrite Hch.
  cbv zeta.
  change (agent ch +:+ ":coinflip") with (commitKey (agent ch) "coinflip").
  rewrite Hpc. reflexivity.
Qed.

End RevealGuards.

(** X2. A slots or coinflip commit never moves money. If it throws, the
    engine state is what it was. If it returns, the channel exists, the
    amount converted, validateBet accepted the bet against the game's
    maximum multiplier, no commit of the agent was pending for the game,
    and the only changes are the new pending commit (seed, bet, choice,
    game, time of the call) and one more draw from the random stream. *)
Theorem commit_only_records_the_bet `{Platform} (g : Plugin) (now : Z)
    (a : string) (p : Params) (e : GamingEngine) :
  g <> Lotto ->
  let r := Engine.plugin_handleAction g "commit" now a p e in
  match fst r with
  | Throw _ => snd r = e
  | Ok res =>
      exists ch bet seed commitment,
        channels e !! a = Some ch /\
        betAmount p = Some bet /\
        BaseGame.validateBet (Engine.plugin_maxMultiplier g) ch bet 2 = Ok tt /\
        pendingCommits e !! commitKey (agent ch) (Engine.plugin_name g) = None /\
        res = RCommit commitment bet
                (match g with Coinflip => Some (p_choice p) | _ => None end) /\
        snd r = set_pendingCommits
                  (insert (commitKey (agent ch) (Engine.plugin_name g))
                     (mkPending seed bet
                        (match g with
                         | Coinflip => Some (p_choice p)
                         | _ => None
                         end)
                        (Engine.plugin_name g) now))
                  (set_rngCalls S e)
  end.
Proof.
  intros Hg r. subst r. destruct g; [|contradiction|].
  - pose proof (slots_commit_returns now a p e) as Hc. unfold wp in Hc.
    change (Engine.plugin_handleAction Slots "commit" now a p e)
      with (SlotsGame._commit now a p e).
    destruct (fst (SlotsGame._commit now a p e)); [|exact Hc].
    destruct Hc as (ch & bet & ? & ? & ? & ? & ? & ?).
    exists ch, bet. eauto 10.
  - pose proof (coinflip_commit_returns now a p e) as Hc. unfold wp in Hc.
    change (Engine.plugin_handleAction Coinflip "commit" now a p e)
      with (CoinflipGame._commit now a p e).
    destruct (fst (CoinflipGame._commit now a p e)); [|exact Hc].
    destruct Hc as (ch & bet & ? & ? & ? & ? & ? & ? & ?).
    exists ch, bet. eauto 10.
Qed.

Lemma commit_only_records_the_bet_witness :
  exists ch bet,
    channels (table up_platform) !! alice = Some ch /\
    betAmount spin_params = Some bet /\
    BaseGame.validateBet SlotsGame.maxMultiplier ch bet 2 = Ok tt.
Proof.
  pose proof (@commit_only_records_the_bet up_platform Slots 1 alice spin_params
                (table up_platform) ltac:(discriminate)) as Hc.
  cbv zeta in Hc.
  destruct (fst (@Engine.plugin_handleAction up_platform Slots "commit" 1 alice
                   spin_params (table up_platform))) as [res|msg] eqn:E.
  - destruct Hc as (ch & bet & seed & c & Hch & Hbet & Hv & _). eauto.
  - vm_compute in E. discriminate E.
Defined.

(** X3. The guards of a slots or coinflip reveal. Without a pending commit
    of the agent for the game it throws and changes nothing. With a
    pending commit older than COMMIT_TIMEOUT (5 minutes) it throws, and
    the only change is that the pending commit is deleted, so the agent
    can commit again; the channel table is untouched. *)
Theorem reveal_needs_a_live_commit `{Platform} (g : Plugin) (now : Z)
    (a : string) (p : Params) (e : GamingEngine) (ch : Channel) :
  g <> Lotto ->
  channels e !! a = Some ch ->
  let key := commitKey (agent ch) (Engine.plugin_name g) in
  let r := Engine.plugin_handleAction g "reveal" now a p e in
  match pendingCommits e !! key with
  | None => exists msg, r = (Throw msg, e)
  | Some pc =>
      COMMIT_TIMEOUT < now - timestamp pc ->
      (exists msg, r = (Throw msg, set_pendingCommits (delete key) e)) /\
      pendingCommits (snd r) !! key = None /\
      channels (snd r) = channels e
  end.
Proof.
  intros Hg Hch key r. subst key r. destruct g; [|contradiction|].
  - change (Engine.plugin_handleAction Slots "reveal" now a p e)
      with (SlotsGame._reveal now a p e).
    change (Engine.plugin_name Slots) with "slots".
    destruct (pendingCommits e !! commitKey (agent ch) "slots") as [pc|] eqn:Hpc.
    + intros Hlate. rewrite (slots_reveal_expired now a p e ch pc Hch Hpc Hlate).
      split; [eauto|]. cbn [snd]. fields. split; [apply lookup_delete_eq|reflexivity].
    + rewrite (slots_reveal_nothing now a p e ch Hch Hpc). eauto.
  - change (Engine.plugin_handleAction Coinflip "reveal" now a p e)
      with (CoinflipGame._reveal now a p e).
    change (Engine.plugin_name Coinflip) with "coinflip".
    destruct (pendingCommits e !! commitKey (agent ch) "coinflip") as [pc|] eqn:Hpc.
    + intros Hlate. rewrite (coinflip_reveal_expired now a p e ch pc Hch Hpc Hlate).
      split; [eauto|]. cbn [snd]. fields. split; [apply lookup_delete_eq|reflexivity].
    + rewrite (coinflip_reveal_nothing now a p e ch Hch Hpc). eauto.
Qed.

Lemma reveal_needs_a_live_commit_witness :
  pendingCommits
    (snd (@Engine.plugin_handleAction up_platform Slots "reveal" 300002 alice
            spin_params (spinning up_platform))) !! commitKey alice "slots"
  = None.
Proof.
  pose proof (@reveal_needs_a_live_commit up_platform Slots 300002 alice
                spin_params (spinning up_platform) alice_channel
                ltac:(discriminate) ltac:(vm_compute; reflexivity)) as Hr.
  cbv zeta in Hr.
  destruct (pendingCommits (spinning up_platform)
              !! commitKey (agent alice_channel) (Engine.plugin_name Slots))
    as [pc|] eqn:E.
  - apply Hr. vm_compute in E. injection E as <-. vm_compute. reflexivity.
  - vm_compute in E. discriminate E.
Defined.







Lemma slots_reveal_multiplier `{Platform} now a p e :
  wp (SlotsGame._reveal now a p) e (fun r _ =>
    forall names reels mult payout ab cb n sig pr,
      r = Ok (RSlotsReveal names reels mult payout ab cb n sig pr) ->
      exists ch pc w0 w1 w2,
        channels e !! a = Some ch /\
        pendingCommits e !! commitKey (agent ch) "slots" = Some pc /\
        let digest :=
          sha256 (seed pc +:+ ":" +:+ agentSeed p +:+ ":" +:+ pretty (nonce ch)) in
        readUInt32BE digest 0 = Some w0 /\
        readUInt32BE digest 4 = Some w1 /\
        readUInt32BE digest 8 = Some w2 /\
        mult = line_multiplier (w0 mod 100) (w1 mod 100) (w2 mod 100)).
Proof.
  cbv beta delta [SlotsGame._reveal].
  repeat wp_step; intros names reels0 mult payout ab cb n sig pr Hres;
    try discriminate.
  injection Hres as _ _ Hmult _ _ _ _ _ _.
  subst hashBuf proof.
  repeat match goal with
  | Hr : readUInt32BE _ _ = Some _ |- _ =>
      rewrite resultHash_buffer in Hr; revert Hr
  end.
  intros. do 5 eexists. repeat split; try eassumption.
  subst mult. reflexivity.
Qed.

(** X6. The multiplier in the result of a slots reveal is the one that
    _getSymbol and PAYOUTS give the three reel values (uint32 at offsets
    0, 4, 8 of the digest, modulo 100); added up over all 100^3 triples
    of reel values and divided by their number, the multipliers give
    exactly the 0.95 that the rtp getter of the game declares. *)
Theorem slots_paytable_returns_95_percent `{Platform} :
  (forall now a p e names reels mult payout ab cb n sig pr,
     fst (SlotsGame._reveal now a p e)
       = Ok (RSlotsReveal names reels mult payout ab cb n sig pr) ->
     exists ch pc w0 w1 w2,
       channels e !! a = Some ch /\
       pendingCommits e !! commitKey (agent ch) "slots" = Some pc /\
       let digest :=
         sha256 (seed pc +:+ ":" +:+ agentSeed p +:+ ":" +:+ pretty (nonce ch)) in
       readUInt32BE digest 0 = Some w0 /\
       readUInt32BE digest 4 = Some w1 /\
       readUInt32BE digest 8 = Some w2 /\
       mult = line_multiplier (w0 mod 100) (w1 mod 100) (w2 mod 100)) /\
  (inject_Z (total_multiplier 100) / inject_Z (100 ^ 3) == rtp Slots)%Q.
Proof.
  split.
  - intros now a p e. exact (slots_reveal_multiplier now a p e).
  - vm_compute. reflexivity.
Qed.

(** ** Invariants of a running engine *)

Lemma credit_winners_payouts `{Platform} winning ts (u : gmap string Z) :
  Forall (fun w => 0 < w_payout w) (snd (LottoGame.credit_winners winning ts u)).
Proof.
  revert u. induction ts as [|[ag tk] ts IH]; intros u; cbn [LottoGame.credit_winners].
  - constructor.
  - destruct (_ >? 0) eqn:Hm; [|apply IH].
    cbn [snd]. constructor; [|apply IH].
    cbn [w_payout]. zbools.
    apply Z.mul_pos_pos; [reflexivity|lia].
Qed.

Lemma wp_both {A} (m : M A) e (Q1 Q2 : Res A -> GamingEngine -> Prop) :
  wp m e Q1 -> wp m e Q2 -> wp m e (fun r e' => Q1 r e' /\ Q2 r e').
Proof. unfold wp. auto. Qed.

Section Reachable.
  Context `{Platform} (I : GamingEngine -> Prop) (legal : Engine.Op -> Prop).

Hypothesis I_slots_commit : forall now a p e,
    I e -> wp (SlotsGame._commit now a p) e (fun _ e' => I e').
Hypothesis I_slots_reveal : forall now a p e,
    I e -> wp (SlotsGame._reveal now a p) e (fun _ e' => I e').
Hypothesis I_coinflip_commit : forall now a p e,
    I e -> wp (CoinflipGame._commit now a p) e (fun _ e' => I e').
Hypothesis I_coinflip_reveal : forall now a p e,
    I e -> wp (CoinflipGame._reveal now a p) e (fun _ e' => I e').
Hypothesis I_lotto_buy : forall now a p e,
    I e -> wp (LottoGame._buy now a p) e (fun _ e' => I e').
Hypothesis I_lotto_claim : forall a e,
    I e -> wp (LottoGame._claim a) e (fun _ e' => I e').
Hypothesis I_applyWinnings : forall a payoutWei e,
    0 < payoutWei -> I e ->
    wp (LottoGame.applyWinnings a payoutWei) e (fun _ e' => I e').
Hypothesis I_executeDraw : forall now id e,
    I e -> wp (LottoGame.executeDraw now id) e (fun _ e' => I e').
Hypothesis I_openChannel : forall now a ad cd e,
    legal (Engine.OpenChannel a ad cd) -> I e ->
    wp (Engine.openChannel now a ad cd) e (fun _ e' => I e').
Hypothesis I_closeChannel : forall a e,
    I e -> wp (Engine.closeChannel a) e (fun _ e' => I e').

Lemma plugin_handleAction_keeps g action now a p e :
  I e -> wp (Engine.plugin_handleAction g action now a p) e (fun _ e' => I e').
Proof.
  intros HI.
  destruct g; cbv beta iota delta
    [Engine.plugin_handleAction SlotsGame.handleAction
     LottoGame.handleAction CoinflipGame.handleAction].
  all: repeat match goal with
       | |- wp (if ?b then _ else _) _ _ => destruct b
       end.
  all: first
    [ apply I_slots_commit | apply I_slots_reveal
    | apply I_coinflip_commit | apply I_coinflip_reveal
    | apply I_lotto_buy | apply I_lotto_claim
    | cbv beta delta [LottoGame._status LottoGame._history]; repeat wp_step ];
    assumption.
Qed.

Lemma handleGameAction_keeps now route a p e :
  I e -> wp (Engine.handleGameAction now route a p) e (fun _ e' => I e').
Proof.
  intros HI. cbv beta delta [Engine.handleGameAction Engine._getChannel].
  destruct (Map_get route Engine.actionMap) as [[g action]|];
    [|wp_step; assumption].
  wp_let. wp_step.
  destruct (negb _).
  - repeat wp_step; try assumption. apply plugin_handleAction_keeps, HI.
  - repeat wp_step. apply plugin_handleAction_keeps, HI.
Qed.

Lemma executeDraw_winners now id e :
  wp (LottoGame.executeDraw now id) e (fun r _ =>
    match r with
    | Ok dr => Forall (fun w => 0 < w_payout w) (winners dr)
    | Throw _ => True
    end).
Proof.
  cbv beta delta [LottoGame.executeDraw LottoGame._startNewDraw].
  repeat wp_step; try exact Logic.I.
  unfold_locals. cbn [winners]. apply credit_winners_payouts.
Qed.

Lemma apply_winners_keeps ws e :
  I e -> Forall (fun w => 0 < w_payout w) ws ->
  wp (Engine.apply_winners ws) e (fun _ e' => I e').
Proof.
  revert e. induction ws as [|w ws IH]; intros e HI Hws;
    cbn [Engine.apply_winners]; [wp_step; assumption|].
  inversion Hws as [|? ? Hw Hws']; subst.
  wp_step. wp_step. destruct (channels e !! w_agent w).
  - wp_step. eapply wp_conseq; [apply I_applyWinnings; assumption|].
    intros [ap|msg] e1 HI1; lazy beta iota; [|assumption].
    wp_step. eapply wp_conseq; [apply IH; assumption|].
    intros [rest|msg] e2 HI2; lazy beta iota; [|assumption].
    wp_step. assumption.
  - wp_step. eapply wp_conseq; [apply IH; assumption|].
    intros [rest|msg] e2 HI2; lazy beta iota; [|assumption].
    wp_step. assumption.
Qed.

Lemma run_draws_keeps now ids e :
  I e -> wp (Engine.run_draws now ids) e (fun _ e' => I e').
Proof.
  revert e. induction ids as [|id ids IH]; intros e HI;
    cbn [Engine.run_draws]; [wp_step; assumption|].
  assert (Hrest : forall r e1, I e1 ->
    wp (rest <- Engine.run_draws now ids;;
        ret (match r with Some x => x :: rest | None => rest end)) e1
      (fun _ e' => I e')).
  { intros r e1 HI1. wp_step. eapply wp_conseq; [apply IH, HI1|].
    intros [rest|?] e3 HI3; lazy beta iota; [wp_step|]; assumption. }
  wp_step. apply wp_try_catch. wp_step.
  eapply wp_conseq;
    [apply wp_both; [apply I_executeDraw, HI|apply executeDraw_winners]|].
  intros [dr|?] e1 [HI1 Hws]; lazy beta iota;
    [|apply (Hrest None), HI1].
  wp_step. eapply wp_conseq; [apply apply_winners_keeps; assumption|].
  intros [ap|?] e2 HI2; lazy beta iota.
  - wp_step. apply (Hrest (Some (dr, ap))), HI2.
  - apply (Hrest None), HI2.
Qed.

Lemma run_op_keeps now op e :
  legal op -> I e -> I (Engine.run_op now op e).
Proof.
  intros Hlegal HI. destruct op; cbn [Engine.run_op].
  - apply I_openChannel; assumption.
  - cbv beta delta [Engine.getChannelStatus].
    change (wp (existing <- gets (fun e0 => channels e0 !! agentAddress);;
                match existing with
                | None => ret None
                | Some ch =>
                    let totalDeposits := agentDeposit ch + casinoDeposit ch in
                    let totalBalances := agentBalance ch + casinoBalance ch in
                    ret (Some (mkStatus "open" (agentBalance ch) (casinoBalance ch)
                           (nonce ch) (Z.of_nat (length (games ch)))
                           (totalDeposits =? totalBalances)))
                end) e (fun _ e' => I e')).
    repeat wp_step; assumption.
  - apply I_closeChannel, HI.
  - apply handleGameAction_keeps, HI.
  - cbv beta delta [Engine.runScheduledTasks LottoGame.getPendingDraws].
    change (wp (pendingDraws <- gets (fun e0 =>
                  map fst (List.filter
                    (fun p => negb (drawn (snd p)) && (drawTime (snd p) <=? now))
                    (draws (lotto e0))));;
                Engine.run_draws now pendingDraws) e (fun _ e' => I e')).
    wp_step. wp_step. apply run_draws_keeps, HI.
Qed.

Lemma run_ops_keeps ops e :
  Forall (fun p => legal (snd p)) ops -> I e -> I (Engine.run_ops ops e).
Proof.
  revert e. induction ops as [|[now op] ops IH]; intros e Hlegal HI;
    [exact HI|].
  inversion Hlegal; subst. cbn [Engine.run_ops fold_left fst snd].
  apply IH; [assumption|]. apply run_op_keeps; assumption.
Qed.

End Reachable.

Lemma moved_all_conserved a e e' :
  moved a e e' -> all_conserved e -> all_conserved e'.
Proof.
  unfold all_conserved.
  intros [Heq | (x & ch & ch' & Hch & Htr & Heq)] Hall; rewrite Heq;
    [exact Hall|].
  apply map_Forall_insert_2; [|exact Hall].
  eapply transfer_conserved; [exact Htr|]. exact (Hall a ch Hch).
Qed.

Section Conservation.
  Context `{Platform}.

Lemma executeDraw_channels now id e :
  wp (LottoGame.executeDraw now id) e (fun _ e' => channels e' = channels e).
Proof.
  cbv beta delta [LottoGame.executeDraw LottoGame._startNewDraw].
  repeat wp_step; reflexivity.
Qed.

Lemma reachable_conserved t0 ops :
  all_conserved (Engine.run_ops ops (Engine.createEngine t0)).
Proof.
  apply (run_ops_keeps all_conserved (fun _ => True)).
  - intros now a p e HI. eapply wp_conseq; [apply slots_commit_returns|].
    intros [res|msg] e'; lazy beta iota.
    + intros (ch & bet & _ & _ & _ & _ & _ & ->). exact HI.
    + intros ->. exact HI.
  - intros now a p e HI. eapply wp_conseq; [apply slots_reveal_moved|].
    intros ? e' Hm; lazy beta in Hm. eapply moved_all_conserved; eassumption.
  - intros now a p e HI. eapply wp_conseq; [apply coinflip_commit_returns|].
    intros [res|msg] e'; lazy beta iota.
    + intros (ch & bet & _ & _ & _ & _ & _ & _ & ->). exact HI.
    + intros ->. exact HI.
  - intros now a p e HI. eapply wp_conseq; [apply coinflip_reveal_moved|].
    intros ? e' Hm; lazy beta in Hm. eapply moved_all_conserved; eassumption.
  - intros now a p e HI. eapply wp_conseq; [apply lotto_buy_moved|].
    intros ? e' Hm; lazy beta in Hm. eapply moved_all_conserved; eassumption.
  - intros a e HI. eapply wp_conseq; [apply lotto_claim_moved|].
    intros ? e' Hm; lazy beta in Hm. eapply moved_all_conserved; eassumption.
  - intros a payoutWei e _ HI. eapply wp_conseq; [apply applyWinnings_moved|].
    intros ? e' Hm; lazy beta in Hm. eapply moved_all_conserved; eassumption.
  - intros now id e HI. eapply wp_conseq; [apply executeDraw_channels|].
    intros ? e' Heq; lazy beta in Heq. unfold all_conserved. rewrite Heq. exact HI.
  - intros now a ad cd e _ HI. cbv beta delta [Engine.openChannel].
    repeat wp_step; try exact HI.
    unfold all_conserved; fields. apply map_Forall_insert_2; [|exact HI].
    unfold conserved; unfold_channels; fields. reflexivity.
  - intros a e HI. cbv beta delta [Engine.closeChannel Engine._getChannel].
    repeat wp_step; try exact HI.
    unfold all_conserved; fields. apply map_Forall_delete, HI.
  - apply Forall_forall. intros; exact Logic.I.
  - unfold all_conserved.
    pose proof (startNewDraw_frame t0 Engine.engine0) as Hf. unfold wp in Hf.
    destruct Hf as (_ & Hch & _). unfold Engine.createEngine. rewrite Hch.
    apply map_Forall_empty.
Qed.

End Conservation.

(** X7. Conservation holds in every state an engine can reach: after any
    sequence of openChannel, getChannelStatus, closeChannel,
    handleGameAction and runScheduledTasks from a fresh engine, the
    balances of every channel add up to its deposits, getChannelStatus
    reports invariantOk = true, and closeChannel never throws INVARIANT
    VIOLATION. *)
Theorem invariant_always_reported `{Platform} (t0 : Z)
    (ops : list (Z * Engine.Op)) (a : string) (ch : Channel) :
  let e := Engine.run_ops ops (Engine.createEngine t0) in
  channels e !! a = Some ch ->
  conserved ch /\
  Engine.getChannelStatus a e
    = (Ok (Some (mkStatus "open" (agentBalance ch) (casinoBalance ch) (nonce ch)
                   (Z.of_nat (length (games ch))) true)), e) /\
  fst (Engine.closeChannel a e) <> Throw "INVARIANT VIOLATION".
Proof.
  intros e Hch.
  assert (Hc : conserved ch) by exact (reachable_conserved t0 ops a ch Hch).
  split; [exact Hc|]. unfold conserved in Hc. split.
  - unfold Engine.getChannelStatus, bind, gets, ret. rewrite Hch.
    cbv zeta. rewrite <- Hc, Z.eqb_refl. reflexivity.
  - unfold Engine.closeChannel, Engine._getChannel, bind, readChannel.
    rewrite Hch. cbv zeta. rewrite <- Hc, Z.eqb_refl. cbn [negb].
    unfold signState. destruct (signTypedData _ _ _ _); cbn; discriminate.
Qed.

Lemma invariant_always_reported_witness :
  conserved busy_channel /\
  fst (@Engine.closeChannel up_platform alice
         (@Engine.run_ops up_platform busy_ops (@Engine.createEngine up_platform 0)))
    <> Throw "INVARIANT VIOLATION".
Proof.
  destruct (@invariant_always_reported up_platform 0 busy_ops alice busy_channel)
    as (Hc & _ & Hclose).
  - vm_compute. reflexivity.
  - split; assumption.
Defined.

(** ** The lotto *)

(** X10. A lotto buy that passes its checks (number in 1..100, 1 to 10
    tickets, at most 10 tickets of the agent in the draw, cost covered by
    the agent, maximum payout covered by the house) and is signed: moves
    ticketPrice * count from the agent to the house, increments the nonce
    by 1, records the round in the channel, appends count copies of the
    number to the agent's tickets of the current draw, leaves the tickets
    of every other agent alone, adds the cost to the pool of the draw and
    returns these values with the draw time and the signature. *)
Theorem lotto_buy_sells_tickets `{Platform} (now : Z) (a : string)
    (p : Params) (e : GamingEngine) (ch : Channel) (d : Draw) (sig : string) :
  channels e !! a = Some ch ->
  let pick := pickedNumber p in
  let n := default 1 (ticketCount p) in
  let cost := LottoGame.TICKET_PRICE * n in
  let current := currentDrawId (lotto e) in
  1 <= pick <= LottoGame.RANGE ->
  1 <= n <= LottoGame.MAX_TICKETS_PER_DRAW ->
  cost <= agentBalance ch ->
  LottoGame.TICKET_PRICE * LottoGame.PAYOUT_MULTIPLIER * n <= casinoBalance ch ->
  Map_get current (draws (lotto e)) = Some d ->
  let mine := default [] (Map_get (agent ch) (tickets d)) in
  Z.of_nat (length mine) + n <= LottoGame.MAX_TICKETS_PER_DRAW ->
  signTypedData (agent ch) (agentBalance ch - cost) (casinoBalance ch + cost)
    (nonce ch + 1) = Some sig ->
  let r := LottoGame._buy now a p e in
  fst r = Ok (RLottoBuy current pick n cost
                (LottoGame.TICKET_PRICE * LottoGame.PAYOUT_MULTIPLIER * n)
                (drawTime d) (agentBalance ch - cost) (casinoBalance ch + cost)
                (nonce ch + 1) sig) /\
  channels (snd r) !! a
    = Some (push_game
              (with_state ch (agentBalance ch - cost) (casinoBalance ch + cost)
                 (nonce ch + 1))
              (LottoRound (nonce ch + 1) current pick n cost now)) /\
  exists d',
    Map_get current (draws (lotto (snd r))) = Some d' /\
    Map_get (agent ch) (tickets d')
      = Some (mine ++ replicate (Z.to_nat n) pick) /\
    (forall other, other <> agent ch ->
       Map_get other (tickets d') = Map_get other (tickets d)) /\
    totalPool d' = totalPool d + cost.
Proof.
  intros Hch pick n cost current Hpick Hn Hcost Hcover Hd mine Hcap Hsig r.
  assert (Hb1 : (pick <? 1) || (pick >? LottoGame.RANGE) = false) by lia.
  assert (Hb2 : (n <? 1) || (n >? LottoGame.MAX_TICKETS_PER_DRAW) = false) by lia.
  assert (Hb3 : (agentBalance ch <? cost) = false) by lia.
  assert (Hb4 : (LottoGame.TICKET_PRICE * LottoGame.PAYOUT_MULTIPLIER * n
                   >? casinoBalance ch) = false) by lia.
  set (tickets0 := if Map_has (agent ch) (tickets d) then tickets d
                   else Map_set (agent ch) [] (tickets d)).
  assert (Hmine : default [] (Map_get (agent ch) tickets0) = mine).
  { subst tickets0 mine. unfold Map_has.
    destruct (Map_get (agent ch) (tickets d)) eqn:Hg.
    - rewrite Hg. reflexivity.
    - rewrite Map_get_set_eq. reflexivity. }
  assert (Hb5 : (Z.of_nat (length (default [] (Map_get (agent ch) tickets0))) + n
                   >? LottoGame.MAX_TICKETS_PER_DRAW) = false)
    by (rewrite Hmine; lia).
  subst r.
  change (wp (LottoGame._buy now a p) e (fun r e' =>
    r = Ok (RLottoBuy current pick n cost
              (LottoGame.TICKET_PRICE * LottoGame.PAYOUT_MULTIPLIER * n)
              (drawTime d) (agentBalance ch - cost) (casinoBalance ch + cost)
              (nonce ch + 1) sig) /\
    channels e' !! a
      = Some (push_game
                (with_state ch (agentBalance ch - cost) (casinoBalance ch + cost)
                   (nonce ch + 1))
                (LottoRound (nonce ch + 1) current pick n cost now)) /\
    exists d',
      Map_get current (draws (lotto e')) = Some d' /\
      Map_get (agent ch) (tickets d')
        = Some (mine ++ replicate (Z.to_nat n) pick) /\
      (forall other, other <> agent ch ->
         Map_get other (tickets d') = Map_get other (tickets d)) /\
      totalPool d' = totalPool d + cost)).
  cbv beta delta [LottoGame._buy].
  repeat wp_go. fields.
  repeat match goal with x := _ |- _ => subst x end.
  split; [reflexivity|]. split; [apply lookup_insert_eq|].
  unfold LottoGame.set_draws; fields.
  eexists. split; [apply Map_get_set_eq|].
  cbn [LottoGame.with_tickets tickets totalPool].
  split; [rewrite Map_get_set_eq, Hmine; reflexivity|].
  split; [|reflexivity].
  intros other Hother. rewrite Map_get_set_ne by congruence.
  destruct (Map_has (agent ch) (tickets d)); [reflexivity|].
  apply Map_get_set_ne. congruence.
Qed.

Lemma lotto_buy_sells_tickets_witness :
  exists d',
    Map_get 1 (draws (lotto (snd (@LottoGame._buy up_platform 1 alice
                                    (ticket_params 7 3) (table up_platform)))))
      = Some d' /\
    Map_get alice (tickets d') = Some [7; 7; 7] /\
    totalPool d' = 3 * 10 ^ 15.
Proof.
  edestruct (@lotto_buy_sells_tickets up_platform 1 alice (ticket_params 7 3)
               (table up_platform) alice_channel
               (mkDraw 1 zero_hex zero_hex 21600000 [] 0 None false None))
    as (_ & _ & d' & Hd' & Hmine & _ & Hpool).
  - vm_compute. reflexivity.
  - vm_compute. split; discriminate.
  - vm_compute. split; discriminate.
  - vm_compute. discriminate.
  - vm_compute. discriminate.
  - vm_compute. reflexivity.
  - vm_compute. discriminate.
  - vm_compute. reflexivity.
  - exists d'. split; [exact Hd'|]. split; [exact Hmine|exact Hpool].
Defined.

(** X11. A lotto buy with a number outside 1..100, a ticket count outside
    1..10, a cost above the agent's balance or a maximum payout above the
    house balance throws and leaves the engine state as it was. *)
Theorem lotto_buy_rejections `{Platform} (now : Z) (a : string) (p : Params)
    (e : GamingEngine) (ch : Channel) :
  channels e !! a = Some ch ->
  let pick := pickedNumber p in
  let n := default 1 (ticketCount p) in
  pick < 1 \/ LottoGame.RANGE < pick \/
  n < 1 \/ LottoGame.MAX_TICKETS_PER_DRAW < n \/
  agentBalance ch < LottoGame.TICKET_PRICE * n \/
  casinoBalance ch < LottoGame.TICKET_PRICE * LottoGame.PAYOUT_MULTIPLIER * n ->
  exists msg, LottoGame._buy now a p e = (Throw msg, e).
Proof.
  intros Hch pick n Hbad.
  unfold LottoGame._buy, bind, readChannel. rewrite Hch. cbv zeta.
  fold pick n.
  destruct ((pick <? 1) || (pick >? LottoGame.RANGE)) eqn:Hb1; [eauto|].
  destruct ((n <? 1) || (n >? LottoGame.MAX_TICKETS_PER_DRAW)) eqn:Hb2; [eauto|].
  destruct (agentBalance ch <? LottoGame.TICKET_PRICE * n) eqn:Hb3; [eauto|].
  destruct (LottoGame.TICKET_PRICE * LottoGame.PAYOUT_MULTIPLIER * n
              >? casinoBalance ch) eqn:Hb4; [eauto|].
  exfalso. lia.
Qed.

Lemma lotto_buy_rejections_witness :
  exists msg,
    @LottoGame._buy up_platform 1 alice (ticket_params 0 1) (table up_platform)
    = (Throw msg, table up_platform).
Proof.
  apply (@lotto_buy_rejections up_platform 1 alice (ticket_params 0 1)
           (table up_platform) alice_channel).
  - vm_compute. reflexivity.
  - left. vm_compute. reflexivity.
Defined.

Section LottoInvariant.
  Context `{Platform}.

Lemma lotto_ok_current L :
  lotto_ok L ->
  exists d, Map_get (currentDrawId L) (draws L) = Some d /\
            draw_ok (currentDrawId L) (currentDrawId L, d).
Proof.
  intros [Hnd Hall [d Hd] Hw]. exists d. split; [exact Hd|].
  rewrite Forall_forall in Hall. apply Hall, Map_get_In, Hd.
Qed.

Lemma lotto_ok_lookup L id d :
  lotto_ok L -> Map_get id (draws L) = Some d -> draw_ok (currentDrawId L) (id, d).
Proof.
  intros [Hnd Hall _ _] Hd.
  rewrite Forall_forall in Hall. apply Hall, Map_get_In, Hd.
Qed.

Lemma lotto_ok_unclaimed f L :
  lotto_ok L -> lotto_ok (LottoGame.set_unclaimed f L).
Proof. intros [? ? ? ?]. split; assumption. Qed.

Lemma lotto_ok_tickets L d t pool u sold td stats' :
  lotto_ok L ->
  Map_get (currentDrawId L) (draws L) = Some d ->
  NoDup (map fst t) -> Forall ticket_ok t ->
  pool = LottoGame.TICKET_PRICE * Z.of_nat (length (concat (map snd t))) ->
  totalWagered stats' = LottoGame.TICKET_PRICE * sold ->
  lotto_ok (mkLotto
    (Map_set (currentDrawId L) (LottoGame.with_tickets d t pool) (draws L))
    (currentDrawId L) u sold td stats').
Proof.
  intros HL Hd Hnd Ht Hpool Hw.
  pose proof (lotto_ok_lookup L _ d HL Hd) as [Hid Hrange Hopen Hfair _ _ _ Hnum].
  destruct HL as [Hids Hall Hcur _].
  split; cbn [draws currentDrawId lotto_stats totalTicketsSold].
  - apply Map_set_NoDup, Hids.
  - apply Map_set_Forall; [exact Hall|].
    split; cbn [fst snd LottoGame.with_tickets drawId drawn commitment
                d_casinoSeed tickets totalPool winningNumber] in *;
      try assumption.
  - rewrite Map_get_set_eq. eauto.
  - exact Hw.
Qed.

Lemma track_payout_wagered ws s :
  totalWagered (fold_left LottoGame.track_payout ws s) = totalWagered s.
Proof.
  revert s. induction ws as [|w ws IH]; intros s; cbn [fold_left]; [reflexivity|].
  rewrite IH. reflexivity.
Qed.

Lemma lotto_ok_draw L id d w now seed comm t u td stats' :
  lotto_ok L ->
  Map_get id (draws L) = Some d -> drawn d = false ->
  1 <= w <= LottoGame.RANGE ->
  CommitReveal.verify comm seed = true ->
  totalWagered stats' = LottoGame.TICKET_PRICE * totalTicketsSold L ->
  lotto_ok (mkLotto
    (Map_set (currentDrawId L + 1)
       (mkDraw (currentDrawId L + 1) seed comm t [] 0 None false None)
       (Map_set id
          (mkDraw (drawId d) (d_casinoSeed d) (commitment d) (drawTime d)
             (tickets d) (totalPool d) (Some w) true (Some now))
          (draws L)))
    (currentDrawId L + 1) u (totalTicketsSold L) td stats').
Proof.
  intros HL Hd Hundrawn Hw Hfair Hwag.
  pose proof (lotto_ok_lookup L _ d HL Hd)
    as [Hid Hrange Hopen Hfair' Hag Htk Hpool Hnum].
  cbn [fst snd] in *.
  assert (Hcur : id = currentDrawId L).
  { rewrite Hundrawn in Hopen. symmetry in Hopen.
    apply negb_false_iff, Z.eqb_eq in Hopen. exact Hopen. }
  destruct HL as [Hids Hall _ _].
  split; cbn [draws currentDrawId lotto_stats totalTicketsSold].
  - do 2 apply Map_set_NoDup. exact Hids.
  - apply Map_set_Forall.
    + apply Map_set_Forall_others; [exact Hids| |].
      * rewrite Forall_forall in Hall |- *. intros [i di] Hin Hne.
        destruct (Hall _ Hin) as [? ? Ho ? ? ? ? Hn]. cbn [fst snd] in *.
        assert (Hd' : drawn di = true).
        { rewrite Ho. apply negb_true_iff, Z.eqb_neq. congruence. }
        split; cbn [fst snd]; try assumption. 1: lia.
        rewrite Hd'. symmetry. apply negb_true_iff, Z.eqb_neq. lia.
      * split; cbn [fst snd drawId drawn commitment d_casinoSeed tickets
                    totalPool winningNumber]; try assumption; try lia.
        all: try (symmetry; apply negb_true_iff, Z.eqb_neq; lia); eauto.
    + split; cbn [fst snd drawId drawn commitment d_casinoSeed tickets
                  totalPool winningNumber map concat length];
        try reflexivity; try assumption.
      * lia.
      * rewrite Z.eqb_refl. reflexivity.
      * constructor.
      * constructor.
  - rewrite Map_get_set_eq. eauto.
  - exact Hwag.
Qed.

Lemma executeDraw_lotto_ok now id e :
  lotto_ok (lotto e) ->
  wp (LottoGame.executeDraw now id) e (fun _ e' => lotto_ok (lotto e')).
Proof.
  intros Hok.
  cbv beta delta [LottoGame.executeDraw LottoGame._startNewDraw].
  repeat wp_step; try exact Hok.
  fields. unfold LottoGame.set_draws; fields.
  match goal with Hr : readUInt32BE _ _ = Some ?z |- _ =>
    pose proof (readUInt32BE_range _ _ _ Hr) as Hz end.
  unfold_locals. repeat match goal with x := _ |- _ => subst x end.
  apply lotto_ok_draw; try assumption.
  - unfold LottoGame.RANGE.
    pose proof (Z.mod_pos_bound z 100 ltac:(lia)). lia.
  - apply commit_verifies.
  - case_match; cbn [totalWagered]; rewrite track_payout_wagered;
      apply Hok.
Qed.

Lemma tickets0_facts ag (t : list (string * list Z)) :
  NoDup (map fst t) -> Forall ticket_ok t ->
  let t0 := if Map_has ag t then t else Map_set ag [] t in
  NoDup (map fst t0) /\ Forall ticket_ok t0 /\
  length (concat (map snd t0)) = length (concat (map snd t)).
Proof.
  intros Hnd Hall t0. subst t0. unfold Map_has.
  destruct (Map_get ag t) eqn:Hg; [auto|].
  split; [apply Map_set_NoDup, Hnd|]. split.
  - apply Map_set_Forall; [exact Hall|].
    split; cbn; [unfold LottoGame.MAX_TICKETS_PER_DRAW; lia|constructor].
  - pose proof (tickets_Map_set ag [] t) as Hlen. rewrite Hg in Hlen.
    cbn in Hlen. lia.
Qed.

Lemma tickets1_facts ag pick n (t0 : list (string * list Z)) :
  NoDup (map fst t0) -> Forall ticket_ok t0 ->
  1 <= pick <= LottoGame.RANGE -> 0 <= n ->
  let old := default [] (Map_get ag t0) in
  Z.of_nat (length old) + n <= LottoGame.MAX_TICKETS_PER_DRAW ->
  let t1 := Map_set ag (old ++ replicate (Z.to_nat n) pick) t0 in
  NoDup (map fst t1) /\ Forall ticket_ok t1 /\
  Z.of_nat (length (concat (map snd t1)))
  = Z.of_nat (length (concat (map snd t0))) + n.
Proof.
  intros Hnd Hall Hpick Hn old Hmax t1. subst t1.
  split; [apply Map_set_NoDup, Hnd|]. split.
  - apply Map_set_Forall; [exact Hall|].
    split; cbn [snd].
    + rewrite length_app, length_replicate. lia.
    + apply Forall_app. split.
      * subst old. destruct (Map_get ag t0) as [tk|] eqn:Hg; [|constructor].
        rewrite Forall_forall in Hall.
        exact (proj2 (Hall _ (Map_get_In _ _ _ Hg))).
      * apply Forall_replicate. exact Hpick.
  - pose proof (tickets_Map_set ag (old ++ replicate (Z.to_nat n) pick) t0)
      as Hlen.
    fold old in Hlen. rewrite length_app, length_replicate in Hlen. lia.
Qed.

(** The two writes of a buy to the current draw. *)
Lemma lotto_ok_buy L d ag pick n :
  lotto_ok L ->
  Map_get (currentDrawId L) (draws L) = Some d ->
  let t0 := if Map_has ag (tickets d) then tickets d
            else Map_set ag [] (tickets d) in
  let old := default [] (Map_get ag t0) in
  let d0 := LottoGame.with_tickets d t0 (totalPool d) in
  lotto_ok (mkLotto (Map_set (currentDrawId L) d0 (draws L)) (currentDrawId L)
              (unclaimedWinnings L) (totalTicketsSold L) (totalDraws L)
              (lotto_stats L)) /\
  (1 <= pick <= LottoGame.RANGE -> 0 <= n ->
   Z.of_nat (length old) + n <= LottoGame.MAX_TICKETS_PER_DRAW ->
   forall u td stats',
     totalWagered stats'
       = totalWagered (lotto_stats L) + LottoGame.TICKET_PRICE * n ->
     lotto_ok (mkLotto
       (Map_set (currentDrawId L)
          (LottoGame.with_tickets d
             (Map_set ag (old ++ replicate (Z.to_nat n) pick) t0)
             (totalPool d + LottoGame.TICKET_PRICE * n))
          (Map_set (currentDrawId L) d0 (draws L)))
       (currentDrawId L) u (totalTicketsSold L + n) td stats')).
Proof.
  intros Hok Hd t0 old d0.
  pose proof (lotto_ok_lookup _ _ d Hok Hd) as [_ _ _ _ Hag Htk Hpool _].
  cbn [fst snd] in Hag, Htk, Hpool.
  destruct (tickets0_facts ag (tickets d) Hag Htk) as (Hnd0 & Hall0 & Hlen0).
  fold t0 in Hnd0, Hall0, Hlen0.
  assert (Hstep : lotto_ok (mkLotto
            (Map_set (currentDrawId L) d0 (draws L)) (currentDrawId L)
            (unclaimedWinnings L) (totalTicketsSold L) (totalDraws L)
            (lotto_stats L))).
  { apply lotto_ok_tickets; try assumption;
      [rewrite Hlen0, Hpool; reflexivity|apply Hok]. }
  split; [exact Hstep|].
  intros Hpick Hn Hcap u td stats' Hw.
  destruct (tickets1_facts ag pick n t0 Hnd0 Hall0 Hpick Hn Hcap)
    as (Hnd1 & Hall1 & Hlen1).
  subst old.
  apply (lotto_ok_tickets _ d0 _ _ _ _ _ _ Hstep); cbn [draws currentDrawId];
    try assumption.
  - apply Map_get_set_eq.
  - rewrite Hlen1, Hlen0, Hpool. unfold LottoGame.total_tickets. lia.
  - rewrite Hw, (lk_wagered _ Hok). lia.
Qed.

Lemma buy_lotto_ok now a p e :
  lotto_ok (lotto e) ->
  wp (LottoGame._buy now a p) e (fun _ e' => lotto_ok (lotto e')).
Proof.
  intros Hok.
  cbv beta delta [LottoGame._buy].
  repeat wp_step; try exact Hok.
  all: fields; unfold LottoGame.set_draws; fields.
  all: zbools.
  all: repeat match goal with x := _ |- _ => subst x end.
  all: match goal with
       | Hd : Map_get _ _ = Some ?d, Hc : channels _ !! _ = Some ?c |- _ =>
           destruct (lotto_ok_buy _ d (agent c) (pickedNumber p)
                       (default 1 (ticketCount p)) Hok Hd) as [Hone Htwo];
           cbv zeta in Hone, Htwo
       end.
  all: first [exact Hone | apply Htwo; [lia|lia|lia|reflexivity]].
Qed.

End LottoInvariant.

Section LottoReachable.
  Context `{Platform}.

Lemma slots_reveal_lotto now a p e :
  wp (SlotsGame._reveal now a p) e (fun _ e' => lotto e' = lotto e).
Proof.
  cbv beta delta [SlotsGame._reveal]. repeat wp_step; reflexivity.
Qed.

Lemma coinflip_reveal_lotto now a p e :
  wp (CoinflipGame._reveal now a p) e (fun _ e' => lotto e' = lotto e).
Proof.
  cbv beta delta [CoinflipGame._reveal]. repeat wp_step; reflexivity.
Qed.

Lemma slots_commit_lotto now a p e :
  wp (SlotsGame._commit now a p) e (fun _ e' => lotto e' = lotto e).
Proof.
  cbv beta delta [SlotsGame._commit]. repeat wp_step; reflexivity.
Qed.

Lemma coinflip_commit_lotto now a p e :
  wp (CoinflipGame._commit now a p) e (fun _ e' => lotto e' = lotto e).
Proof.
  cbv beta delta [CoinflipGame._commit]. repeat wp_step; reflexivity.
Qed.

(** A claim and a payout only touch the unclaimed winnings of the lotto. *)
Lemma lotto_claim_draws a e :
  wp (LottoGame._claim a) e (fun _ e' =>
    exists f, lotto e' = LottoGame.set_unclaimed f (lotto e)).
Proof.
  cbv beta delta [LottoGame._claim].
  repeat wp_step; fields;
    first [ exists id; destruct (lotto e); reflexivity | eexists; reflexivity ].
Qed.

Lemma applyWinnings_draws a payoutWei e :
  wp (LottoGame.applyWinnings a payoutWei) e (fun _ e' =>
    exists f, lotto e' = LottoGame.set_unclaimed f (lotto e)).
Proof.
  cbv beta delta [LottoGame.applyWinnings].
  repeat wp_step; fields;
    first [ exists id; destruct (lotto e); reflexivity | eexists; reflexivity ].
Qed.

Lemma openChannel_lotto now a ad cd e :
  wp (Engine.openChannel now a ad cd) e (fun _ e' => lotto e' = lotto e).
Proof.
  cbv beta delta [Engine.openChannel]. repeat wp_step; reflexivity.
Qed.

Lemma closeChannel_lotto a e :
  wp (Engine.closeChannel a) e (fun _ e' => lotto e' = lotto e).
Proof.
  cbv beta delta [Engine.closeChannel Engine._getChannel].
  repeat wp_step; reflexivity.
Qed.

Lemma createEngine_lotto_ok t0 : lotto_ok (lotto (Engine.createEngine t0)).
Proof.
  unfold Engine.createEngine.
  change (lotto (LottoGame._startNewDraw t0 Engine.engine0).2)
    with (mkLotto
            [(1, mkDraw 1 (CommitReveal.commit (randomBytes 0)).1
                   (CommitReveal.commit (randomBytes 0)).2
                   (t0 + LottoGame.DRAW_INTERVAL) [] 0 None false None)]
            1 ∅ 0 0 Stats0).
  split; cbn [draws currentDrawId lotto_stats totalTicketsSold map fst].
  - apply NoDup_singleton.
  - repeat constructor; cbn [fst snd drawId drawn tickets]; try lia.
    apply commit_verifies.
  - cbn. eauto.
  - reflexivity.
Qed.

Lemma draws_kept_refl e e' : lotto e' = lotto e -> draws_kept e e'.
Proof. intros Heq id d Hd. rewrite Heq. eauto. Qed.

Lemma draws_kept_unclaimed e e' f :
  lotto e' = LottoGame.set_unclaimed f (lotto e) -> draws_kept e e'.
Proof.
  intros Heq id d Hd. rewrite Heq. cbn [LottoGame.set_unclaimed draws]. eauto.
Qed.

Lemma draws_kept_trans e0 e1 e2 :
  draws_kept e0 e1 -> draws_kept e1 e2 -> draws_kept e0 e2.
Proof.
  intros H01 H12 id d Hd.
  destruct (H01 id d Hd) as (d1 & Hd1 & Hc1 & Hs1).
  destruct (H12 id d1 Hd1) as (d2 & Hd2 & Hc2 & Hs2).
  exists d2. split; [exact Hd2|]. split; congruence.
Qed.

Lemma same_draws_refl ds : same_draws ds ds.
Proof. intros id d Hd. eauto. Qed.

(** A step that rewrites the draw of [k] with the same seed and
    commitment keeps the draws. *)
Lemma same_draws_set ds ds' k dk dk' :
  same_draws ds ds' ->
  Map_get k ds' = Some dk ->
  commitment dk' = commitment dk -> d_casinoSeed dk' = d_casinoSeed dk ->
  same_draws ds (Map_set k dk' ds').
Proof.
  intros Hsame Hk Hc Hs id d Hd.
  destruct (Hsame id d Hd) as (d1 & Hd1 & Hc1 & Hs1).
  destruct (decide (k = id)) as [->|Hne].
  - rewrite Map_get_set_eq. exists dk'. split; [reflexivity|].
    split; congruence.
  - rewrite Map_get_set_ne by exact Hne. eauto.
Qed.

Lemma same_draws_new ds ds' k dk :
  same_draws ds ds' -> Map_get k ds' = None ->
  same_draws ds (Map_set k dk ds').
Proof.
  intros Hsame Hk id d Hd.
  destruct (Hsame id d Hd) as (d1 & Hd1 & Hc1 & Hs1).
  destruct (decide (k = id)) as [->|Hne]; [congruence|].
  rewrite Map_get_set_ne by exact Hne. eauto.
Qed.

Lemma buy_draws_kept now a p e :
  wp (LottoGame._buy now a p) e (fun _ e' => draws_kept e e').
Proof.
  cbv beta delta [LottoGame._buy].
  repeat wp_step; try (apply draws_kept_refl; reflexivity).
  all: unfold draws_kept; fields; unfold LottoGame.set_draws; fields.
  all: repeat (eapply same_draws_set;
               [ | first [eassumption | apply Map_get_set_eq]
                 | reflexivity | reflexivity ]).
  all: apply same_draws_refl.
Qed.

Lemma lotto_ok_next L : lotto_ok L -> Map_get (currentDrawId L + 1) (draws L) = None.
Proof.
  intros Hok. destruct (Map_get _ _) as [d|] eqn:Hd; [|reflexivity].
  pose proof (lotto_ok_lookup _ _ _ Hok Hd) as [_ Hr _ _ _ _ _ _].
  cbn [fst] in Hr. lia.
Qed.

Lemma executeDraw_draws_kept now id e :
  lotto_ok (lotto e) ->
  wp (LottoGame.executeDraw now id) e (fun _ e' => draws_kept e e').
Proof.
  intros Hok.
  cbv beta delta [LottoGame.executeDraw LottoGame._startNewDraw].
  repeat wp_step; try (apply draws_kept_refl; reflexivity).
  unfold draws_kept; fields; unfold LottoGame.set_draws; fields.
  apply same_draws_new.
  - eapply same_draws_set;
      [apply same_draws_refl|eassumption|reflexivity|reflexivity].
  - pose proof (lotto_ok_next _ Hok) as Hnext.
    destruct (decide (id = currentDrawId (lotto e) + 1)) as [->|Hne];
      [congruence|].
    rewrite Map_get_set_ne by exact Hne. exact Hnext.
Qed.

Lemma lotto_since_frame e0 e e' :
  lotto_since e0 e -> lotto e' = lotto e -> lotto_since e0 e'.
Proof.
  intros [Hok Hk] Heq. split; [rewrite Heq; exact Hok|].
  eapply draws_kept_trans; [exact Hk|]. apply draws_kept_refl, Heq.
Qed.

Lemma lotto_since_unclaimed e0 e e' f :
  lotto_since e0 e -> lotto e' = LottoGame.set_unclaimed f (lotto e) ->
  lotto_since e0 e'.
Proof.
  intros [Hok Hk] Heq. split; [rewrite Heq; apply lotto_ok_unclaimed, Hok|].
  eapply draws_kept_trans; [exact Hk|]. eapply draws_kept_unclaimed, Heq.
Qed.

Lemma run_ops_lotto_since e0 ops :
  lotto_ok (lotto e0) -> lotto_since e0 (Engine.run_ops ops e0).
Proof.
  intros Hok0.
  apply (run_ops_keeps (lotto_since e0) (fun _ => True)).
  - intros now a p e HI. eapply wp_conseq; [apply slots_commit_lotto|].
    intros ? e' Heq; lazy beta in Heq. eapply lotto_since_frame; eassumption.
  - intros now a p e HI. eapply wp_conseq; [apply slots_reveal_lotto|].
    intros ? e' Heq; lazy beta in Heq. eapply lotto_since_frame; eassumption.
  - intros now a p e HI. eapply wp_conseq; [apply coinflip_commit_lotto|].
    intros ? e' Heq; lazy beta in Heq. eapply lotto_since_frame; eassumption.
  - intros now a p e HI. eapply wp_conseq; [apply coinflip_reveal_lotto|].
    intros ? e' Heq; lazy beta in Heq. eapply lotto_since_frame; eassumption.
  - intros now a p e [Hok Hk].
    eapply wp_conseq;
      [apply wp_both; [apply buy_lotto_ok, Hok|apply buy_draws_kept]|].
    intros ? e' [Hok' Hk']. split; [exact Hok'|].
    eapply draws_kept_trans; eassumption.
  - intros a e HI. eapply wp_conseq; [apply lotto_claim_draws|].
    intros ? e' [f Heq]. eapply lotto_since_unclaimed; eassumption.
  - intros a payoutWei e _ HI. eapply wp_conseq; [apply applyWinnings_draws|].
    intros ? e' [f Heq]. eapply lotto_since_unclaimed; eassumption.
  - intros now id e [Hok Hk].
    eapply wp_conseq;
      [apply wp_both;
         [apply executeDraw_lotto_ok, Hok|apply executeDraw_draws_kept, Hok]|].
    intros ? e' [Hok' Hk']. split; [exact Hok'|].
    eapply draws_kept_trans; eassumption.
  - intros now a ad cd e _ HI. eapply wp_conseq; [apply openChannel_lotto|].
    intros ? e' Heq; lazy beta in Heq. eapply lotto_since_frame; eassumption.
  - intros a e HI. eapply wp_conseq; [apply closeChannel_lotto|].
    intros ? e' Heq; lazy beta in Heq. eapply lotto_since_frame; eassumption.
  - apply Forall_forall. intros; exact Logic.I.
  - split; [exact Hok0|]. apply draws_kept_refl. reflexivity.
Qed.

Lemma reachable_lotto_ok t0 ops :
  lotto_ok (lotto (Engine.run_ops ops (Engine.createEngine t0))).
Proof. apply run_ops_lotto_since, createEngine_lotto_ok. Qed.

Lemma route_lotto_status now a p e :
  Engine.handleGameAction now "lotto_status" a p e = LottoGame._status e.
Proof.
  unfold Engine.handleGameAction.
  change (Map_get "lotto_status" Engine.actionMap) with (Some (Lotto, "status")).
  reflexivity.
Qed.

Lemma route_lotto_history now a p e :
  Engine.handleGameAction now "lotto_history" a p e = LottoGame._history p e.
Proof.
  unfold Engine.handleGameAction.
  change (Map_get "lotto_history" Engine.actionMap)
    with (Some (Lotto, "history")).
  reflexivity.
Qed.

End LottoReachable.

(** X14. The commitment of a lotto draw is binding: if lotto_status showed
    a draw id with a commitment in some reachable state, then after any
    further operations a completed lotto_history of that id shows the same
    commitment, a casino seed whose SHA-256 is that commitment, and a
    winning number between 1 and 100. *)
Theorem lotto_commitment_is_binding `{Platform} (t0 : Z)
    (ops ops' : list (Z * Engine.Op)) (now1 now2 : Z) (a1 a2 : string)
    (p1 p2 : Params) (id : Z) (comm : string) (time total pool : Z)
    (w : option Z) (seed comm' : string) (pool' : Z) (at' : option Z) :
  let e := Engine.run_ops ops (Engine.createEngine t0) in
  let e' := Engine.run_ops ops' e in
  fst (Engine.handleGameAction now1 "lotto_status" a1 p1 e)
    = Ok (RLottoStatus id comm time total pool) ->
  p_drawId p2 = id ->
  fst (Engine.handleGameAction now2 "lotto_history" a2 p2 e')
    = Ok (RLottoHistoryCompleted id w seed comm' pool' at') ->
  comm' = comm /\
  CommitReveal.verify comm seed = true /\
  exists n, w = Some n /\ 1 <= n <= LottoGame.RANGE.
Proof.
  intros e e' Hst Hid Hh.
  pose proof (reachable_lotto_ok t0 ops) as Hok. fold e in Hok.
  destruct (run_ops_lotto_since e ops' Hok) as [Hok' Hkept]. fold e' in Hok', Hkept.
  rewrite route_lotto_status in Hst. rewrite route_lotto_history in Hh.
  unfold LottoGame._status, bind, gets in Hst.
  destruct (Map_get (currentDrawId (lotto e)) (draws (lotto e))) as [d|] eqn:Hd;
    [|discriminate].
  cbn in Hst. injection Hst as Hcur Hcomm _ _ _.
  destruct (Hkept _ d Hd) as (d' & Hd' & Hc' & Hs').
  unfold LottoGame._history, bind, gets in Hh.
  rewrite Hid, <- Hcur, Hd' in Hh.
  destruct (drawn d') eqn:Hdrawn; cbn in Hh; [|discriminate].
  pose proof (lotto_ok_lookup _ _ _ Hok' Hd') as [_ _ _ Hfair _ _ _ Hnum].
  cbn [fst snd] in *. rewrite Hdrawn in Hnum.
  inversion Hh; subst. split; [congruence|]. split; [|exact Hnum].
  rewrite <- Hc'. exact Hfair.
Qed.

Lemma lotto_commitment_is_binding_witness :
  @CommitReveal.verify up_platform zero_hex zero_hex = true /\
  exists n, Some 1 = Some n /\ 1 <= n <= LottoGame.RANGE.
Proof.
  edestruct (@lotto_commitment_is_binding up_platform 0 waiting_ops
               [(21600001, Engine.RunScheduledTasks)] 3 21600002 alice alice
               no_params (history_params 1) 1 zero_hex 21600000 1 (10 ^ 15)
               (Some 1) zero_hex zero_hex)
    as (_ & Hv & Hn).
  - vm_compute. reflexivity.
  - reflexivity.
  - vm_compute. reflexivity.
  - split; assumption.
Defined.




Lemma filter_keys_single {V} (f : Z * V -> bool) (k : Z) (l : list (Z * V)) :
  NoDup (map fst l) ->
  (forall p, p ∈ l -> f p = true -> fst p = k) ->
  map fst (List.filter f l) = [] \/ map fst (List.filter f l) = [k].
Proof.
  induction l as [|p l IH]; intros Hnd Hk; [left; reflexivity|].
  cbn in Hnd. apply NoDup_cons in Hnd as [Hnotin Hnd].
  cbn [List.filter]. destruct (f p) eqn:Hp.
  - right. assert (Hnone : List.filter f l = []).
    { destruct (List.filter f l) as [|q qs] eqn:Hq; [reflexivity|].
      assert (Hin : In q (List.filter f l)) by (rewrite Hq; left; reflexivity).
      apply filter_In in Hin as [Hin Hfq]. exfalso. apply Hnotin.
      apply list_elem_of_In in Hin.
      rewrite (Hk p (list_elem_of_here _ _) Hp).
      rewrite <- (Hk q (list_elem_of_further _ _ _ Hin) Hfq).
      destruct q. eapply In_keys, Hin. }
    rewrite Hnone. cbn. rewrite (Hk p (list_elem_of_here _ _) Hp). reflexivity.
  - apply IH; [exact Hnd|]. intros q Hq. apply Hk. right. exact Hq.
Qed.

Section Scheduler.
  Context `{Platform}.

Lemma pending_cases now L :
  lotto_ok L ->
  (map fst (List.filter (is_due now) (draws L)) = [] /\ not_due now L) \/
  map fst (List.filter (is_due now) (draws L)) = [currentDrawId L].
Proof.
  intros Hok.
  destruct (filter_keys_single (is_due now) (currentDrawId L) (draws L))
    as [Hnone|Hone]; [apply Hok| |left|right; exact Hone].
  - intros [i d] Hin Hdue. unfold is_due in Hdue. cbn [snd fst] in *.
    apply andb_true_iff in Hdue as [Hundrawn _].
    destruct Hok as [_ Hall _ _]. rewrite Forall_forall in Hall.
    destruct (Hall _ Hin) as [_ _ Hopen _ _ _ _ _]. cbn [fst snd] in Hopen.
    rewrite Hopen, negb_involutive in Hundrawn. apply Z.eqb_eq, Hundrawn.
  - split; [exact Hnone|].
    destruct (lotto_ok_current _ Hok) as (d & Hd & [_ _ Hopen _ _ _ _ _]).
    cbn [fst snd] in Hopen. rewrite Z.eqb_refl in Hopen.
    exists d. split; [exact Hd|].
    destruct (Z.ltb_spec now (drawTime d)) as [Hlt|Hge]; [exact Hlt|].
    exfalso.
    assert (Hin : In (currentDrawId L, d) (List.filter (is_due now) (draws L))).
    { apply filter_In. split.
      - apply list_elem_of_In, Map_get_In, Hd.
      - unfold is_due. cbn [snd]. rewrite Hopen. cbn. apply Z.leb_le, Hge. }
    apply (in_map fst) in Hin. rewrite Hnone in Hin. exact Hin.
Qed.

Lemma not_due_pending now L :
  lotto_ok L -> not_due now L ->
  map fst (List.filter (is_due now) (draws L)) = [].
Proof.
  intros Hok (d & Hd & Hlt).
  destruct (pending_cases now L Hok) as [[Hnone _]|Hone]; [exact Hnone|].
  exfalso.
  assert (Hin : In (currentDrawId L) (map fst (List.filter (is_due now) (draws L))))
    by (rewrite Hone; left; reflexivity).
  apply in_map_iff in Hin as ([i d'] & Hi & Hin). cbn in Hi. subst i.
  apply filter_In in Hin as [Hin Hdue].
  apply list_elem_of_In in Hin.
  rewrite (Map_get_of_In _ _ _ (lk_ids _ Hok) Hin) in Hd. injection Hd as ->.
  unfold is_due in Hdue. cbn [snd] in Hdue.
  apply andb_true_iff in Hdue as [_ Hdue]. apply Z.leb_le in Hdue. lia.
Qed.

Lemma not_due_unclaimed now f L :
  not_due now L -> not_due now (LottoGame.set_unclaimed f L).
Proof. intros H0. exact H0. Qed.

Lemma apply_winners_draws ws e :
  wp (Engine.apply_winners ws) e (fun _ e' =>
    exists f, lotto e' = LottoGame.set_unclaimed f (lotto e)).
Proof.
  revert e. induction ws as [|w ws IH]; intros e; cbn [Engine.apply_winners].
  - wp_step. exists id. destruct (lotto e); reflexivity.
  - wp_step. wp_step. destruct (channels e !! w_agent w).
    + wp_step. eapply wp_conseq; [apply applyWinnings_draws|].
      intros [ap|msg] e1 [f Hf]; lazy beta iota; [|eauto].
      wp_step. eapply wp_conseq; [apply IH|].
      intros [rest|msg] e2 [g Hg]; lazy beta iota; [wp_step|];
        exists (fun u => g (f u)); rewrite Hg, Hf; reflexivity.
    + wp_step. eapply wp_conseq; [apply IH|].
      intros [rest|msg] e2 [g Hg]; lazy beta iota; [wp_step|]; eauto.
Qed.

Lemma executeDraw_next now id e d :
  Map_get id (draws (lotto e)) = Some d -> drawn d = false ->
  wp (LottoGame.executeDraw now id) e (fun r e' =>
    (exists dr, r = Ok dr) /\ not_due now (lotto e')).
Proof.
  intros Hd Hundrawn.
  cbv beta delta [LottoGame.executeDraw LottoGame._startNewDraw].
  wp_step. wp_step. rewrite Hd, Hundrawn.
  do 3 wp_let. wp_step.
  destruct (digest_read
              (d_casinoSeed d +:+ ":" +:+ agentEntropy +:+ ":" +:+ pretty id) 0
              ltac:(lia)) as (v & Hv & _).
  apply wp_read32. subst hashBuf proof. rewrite resultHash_buffer, Hv.
  repeat wp_step. split; [eauto|].
  fields. unfold LottoGame.set_draws; fields.
  eexists. split; [apply Map_get_set_eq|].
  cbn [drawTime]. unfold LottoGame.DRAW_INTERVAL. lia.
Qed.

End Scheduler.

(** X15. After runScheduledTasks ran at a time, in any reachable state and
    whether or not applying winnings failed, no draw is pending at that
    time: getPendingDraws returns the empty list, and the current draw is
    open with its draw time in the future. *)
Theorem scheduler_leaves_nothing_due `{Platform} (t0 : Z)
    (ops : list (Z * Engine.Op)) (now : Z) :
  let e := Engine.run_ops ops (Engine.createEngine t0) in
  let e' := snd (Engine.runScheduledTasks now e) in
  LottoGame.getPendingDraws now e' = (Ok [], e') /\
  exists d,
    Map_get (currentDrawId (lotto e')) (draws (lotto e')) = Some d /\
    drawn d = false /\ now < drawTime d.
Proof.
  intros e e'.
  assert (Hok : lotto_ok (lotto e)) by apply reachable_lotto_ok.
  assert (Hok' : lotto_ok (lotto e')).
  { pose proof (reachable_lotto_ok t0 (ops ++ [(now, Engine.RunScheduledTasks)]))
      as Hr.
    unfold Engine.run_ops in Hr. rewrite fold_left_app in Hr. exact Hr. }
  assert (Hnot : not_due now (lotto e')).
  { subst e'. unfold Engine.runScheduledTasks, LottoGame.getPendingDraws.
    unfold bind at 1. unfold gets at 1.
    change (fun p : Z * Draw => negb (drawn p.2) && (drawTime p.2 <=? now))
      with (is_due now).
    destruct (pending_cases now _ Hok) as [[-> Hn]| ->]; [exact Hn|].
    change (wp (Engine.run_draws now [currentDrawId (lotto e)]) e
              (fun _ e2 => not_due now (lotto e2))).
    cbn [Engine.run_draws].
    destruct (lotto_ok_current _ Hok) as (d & Hd & [_ _ Hopen _ _ _ _ _]).
    cbn [fst snd] in Hopen. rewrite Z.eqb_refl in Hopen.
    wp_step. apply wp_try_catch. wp_step.
    eapply wp_conseq; [apply (executeDraw_next now _ e d Hd Hopen)|].
    intros r e1 [[dr ->] Hn1]; lazy beta iota.
    wp_step. eapply wp_conseq; [apply apply_winners_draws|].
    intros [ap|msg] e2 [f Hf]; lazy beta iota.
    - repeat wp_step. rewrite Hf. exact Hn1.
    - repeat wp_step. rewrite Hf. exact Hn1. }
  split.
  - unfold LottoGame.getPendingDraws, gets.
    change (fun p : Z * Draw => negb (drawn p.2) && (drawTime p.2 <=? now))
      with (is_due now).
    rewrite (not_due_pending now _ Hok' Hnot). reflexivity.
  - destruct Hnot as (d & Hd & Hlt). exists d. split; [exact Hd|].
    split; [|exact Hlt].
    pose proof (lotto_ok_lookup _ _ _ Hok' Hd) as [_ _ Hopen _ _ _ _ _].
    cbn [fst snd] in Hopen. rewrite Z.eqb_refl in Hopen. exact Hopen.
Qed.

(** ** Routing and closing *)

Lemma actionMap_routes :
  Engine.actionMap
  = [("slots_commit", (Slots, "commit")); ("slots_reveal", (Slots, "reveal"));
     ("lotto_buy", (Lotto, "buy")); ("lotto_status", (Lotto, "status"));
     ("lotto_history", (Lotto, "history")); ("lotto_claim", (Lotto, "claim"));
     ("coinflip_commit", (Coinflip, "commit"));
     ("coinflip_reveal", (Coinflip, "reveal"))].
Proof. reflexivity. Qed.

Lemma no_channel_throws `{Platform} (now : Z) (route a : string)
    (p : Params) (e : GamingEngine) :
  channels e !! a = None ->
  route <> "lotto_status" -> route <> "lotto_history" ->
  exists msg, Engine.handleGameAction now route a p e = (Throw msg, e).
Proof.
  intros Hch Hs Hh. unfold Engine.handleGameAction.
  rewrite actionMap_routes. cbn [Map_get].
  repeat match goal with
  | |- context [decide (route = ?r)] =>
      destruct (decide (route = r)) as [->|?]
  end; try contradiction.
  all: cbv beta iota zeta; cbn [existsb String.eqb Ascii.eqb Bool.eqb negb orb].
  all: try (unfold bind at 1; unfold bind at 1;
            unfold Engine._getChannel, readChannel; rewrite Hch).
  all: eexists; reflexivity.
Qed.

Lemma lotto_query_reads `{Platform} (now : Z) (route a : string)
    (p : Params) (e : GamingEngine) :
  route = "lotto_status" \/ route = "lotto_history" ->
  snd (Engine.handleGameAction now route a p e) = e.
Proof.
  intros [-> | ->].
  - rewrite route_lotto_status. unfold LottoGame._status, bind, gets.
    destruct (Map_get _ _); reflexivity.
  - rewrite route_lotto_history. unfold LottoGame._history, bind, gets.
    destruct (Map_get _ _) as [d|]; [destruct (drawn d)|]; reflexivity.
Qed.

(** X8. Routing for an agent without a channel: lotto_status and
    lotto_history leave the engine state as it was; every other route,
    known or unknown, throws and leaves the engine state as it was. *)
Theorem no_channel_no_play `{Platform} (now : Z) (route a : string)
    (p : Params) (e : GamingEngine) :
  channels e !! a = None ->
  if bool_decide (route = "lotto_status" \/ route = "lotto_history")
  then snd (Engine.handleGameAction now route a p e) = e
  else exists msg, Engine.handleGameAction now route a p e = (Throw msg, e).
Proof.
  intros Hch. case_bool_decide as Hr.
  - apply lotto_query_reads, Hr.
  - apply no_channel_throws; [exact Hch|intros ->; auto..].
Qed.

Lemma no_channel_no_play_witness :
  exists msg,
    @Engine.handleGameAction up_platform 1 "slots_commit" alice spin_params
      (@Engine.createEngine up_platform 0)
    = (Throw msg, @Engine.createEngine up_platform 0).
Proof.
  apply (@no_channel_no_play up_platform 1 "slots_commit" alice spin_params
           (@Engine.createEngine up_platform 0)).
  vm_compute. reflexivity.
Defined.

(** X9. closeChannel of the engine. On a channel whose balances do not add
    up to its deposits it throws INVARIANT VIOLATION, and when the signer
    fails it throws the signer's error, both with the state unchanged. When
    the signer answers it returns the balances, the nonce, the signature
    and the number of games, and removes the channel and nothing else:
    pending commits and the lotto (draws, tickets, unclaimed winnings) stay.
    After that getChannelStatus answers not found and every route other
    than lotto_status and lotto_history throws for this agent. *)
Theorem close_is_final `{Platform} (a : string) (e : GamingEngine)
    (ch : Channel) :
  channels e !! a = Some ch ->
  let e' := set_channels (delete a) e in
  (~ conserved ch ->
   Engine.closeChannel a e = (Throw "INVARIANT VIOLATION", e)) /\
  (conserved ch ->
   match signTypedData a (agentBalance ch) (casinoBalance ch) (nonce ch) with
   | None => Engine.closeChannel a e = (Throw "signTypedData failed", e)
   | Some sig =>
       Engine.closeChannel a e
         = (Ok (mkClose (agentBalance ch) (casinoBalance ch) (nonce ch) sig
                  (Z.of_nat (length (games ch)))), e')
   end) /\
  Engine.getChannelStatus a e' = (Ok None, e') /\
  (forall now route p,
     route <> "lotto_status" -> route <> "lotto_history" ->
     exists msg, Engine.handleGameAction now route a p e' = (Throw msg, e')) /\
  pendingCommits e' = pendingCommits e /\
  lotto e' = lotto e.
Proof.
  intros Hch e'.
  assert (Hgone : channels e' !! a = None) by apply lookup_delete_eq.
  split; [|split; [|split; [|split; [|split; reflexivity]]]].
  - intros Hnc. unfold Engine.closeChannel, Engine._getChannel, bind, readChannel.
    rewrite Hch. cbv zeta.
    destruct (_ =? _) eqn:Heq; [|reflexivity].
    apply Z.eqb_eq in Heq. exfalso. apply Hnc. unfold conserved. lia.
  - intros Hc. unfold conserved in Hc.
    unfold Engine.closeChannel, Engine._getChannel, bind, readChannel.
    rewrite Hch. cbv zeta. rewrite <- Hc, Z.eqb_refl. cbn [negb].
    unfold signState. destruct (signTypedData _ _ _ _); reflexivity.
  - unfold Engine.getChannelStatus, bind, gets. rewrite Hgone. reflexivity.
  - intros now route p Hs Hh. apply no_channel_throws; assumption.
Qed.

Lemma close_is_final_witness :
  @Engine.closeChannel up_platform alice (table up_platform)
  = (Ok (mkClose (10 ^ 18) (5 * 10 ^ 18) 0 alice_sig 0),
     set_channels (delete alice) (table up_platform)).
Proof.
  destruct (@close_is_final up_platform alice (table up_platform) alice_channel)
    as (_ & Hclose & _).
  - vm_compute. reflexivity.
  - apply Hclose. reflexivity.
Defined.

(** ** The contracts *)

(** *** Settlement *)

Section SettleFacts.
  Context `{ChannelManager.Chain}.
  Import ChannelManager.

Lemma pay_spec to amount s s' :
  pay to amount s = inr s' ->
  casino s' = casino s /\ paused s' = paused s /\
  channels s' = channels s /\ totalLocked s' = totalLocked s /\
  maxExposure s' = maxExposure s /\ fundBalance s' = fundBalance s /\
  (forall other, other <> to -> owed s' other = owed s other) /\
  ((amount <= 0 /\ s' = s) \/
   (0 < amount /\ accepts to = true /\ balance s' = balance s - amount /\
    owed s' to = owed s to /\ trace s' = trace s ++ [Transfer to amount]) \/
   (0 < amount /\ balance s' = balance s /\
    owed s' to = owed s to + amount /\
    trace s' = trace s ++ [WithdrawalPending to amount])).
Proof.
  unfold pay, owed. intros Hpay.
  destruct (amount >? 0) eqn:Hpos; zbools.
  - destruct (accepts to && (amount <=? balance s)) eqn:Hgo.
    + injection Hpay as <-. cbn. apply andb_true_iff in Hgo as [Hacc _].
      repeat split; auto. right. left. auto.
    + unfold checked_add in Hpay.
      destruct (_ <=? UINT256_MAX); [|discriminate].
      injection Hpay as <-. cbn.
      repeat split; auto.
      * intros other Hne. rewrite lookup_insert_ne by congruence. reflexivity.
      * right. right. rewrite lookup_insert_eq. cbn. auto.
  - injection Hpay as <-. repeat split; auto.
Qed.

End SettleFacts.



(** *** Disputes, pull payments and the pause *)

Section DisputeFacts.
  Context `{ChannelManager.Chain}.
  Import ChannelManager Disputes.

Lemma channel_of_Some s agent ch :
  channels s !! agent = Some ch -> channel_of s agent = ch.
Proof. unfold channel_of. intros ->. reflexivity. Qed.

Lemma channel_of_set s agent ch :
  channel_of (set_channel agent ch s) agent = ch.
Proof. unfold channel_of, set_channel. cbn. rewrite lookup_insert_eq. reflexivity. Qed.

Lemma disputed_is_stored s agent :
  state (channel_of s agent) = CSDisputed ->
  channels s !! agent = Some (channel_of s agent).
Proof.
  unfold channel_of. destruct (channels s !! agent); [reflexivity|].
  cbn. discriminate.
Qed.

Lemma checks_pass s ch agent ab cb n sig :
  ab + cb = agentDeposit ch + casinoDeposit ch -> ab + cb <= UINT256_MAX ->
  recover agent ab cb n sig = Some (casino s) ->
  _checkBalanceInvariant ch ab cb = inr tt /\
  _verifyCasinoSig s agent ab cb n sig = inr tt.
Proof.
  intros Hsum Hmax Hsig. split.
  - unfold _checkBalanceInvariant, checked_add. rewrite <- Hsum.
    destruct (ab + cb <=? UINT256_MAX) eqn:Hle; [|zbools; lia].
    rewrite Z.eqb_refl. reflexivity.
  - unfold _verifyCasinoSig. rewrite Hsig, String.eqb_refl. reflexivity.
Qed.

Lemma checks_passed s ch agent ab cb n sig :
  _checkBalanceInvariant ch ab cb = inr tt ->
  _verifyCasinoSig s agent ab cb n sig = inr tt ->
  ab + cb = agentDeposit ch + casinoDeposit ch /\
  recover agent ab cb n sig = Some (casino s).
Proof.
  unfold _checkBalanceInvariant, _verifyCasinoSig, checked_add. intros Hb Hv.
  split.
  - destruct (ab + cb <=? UINT256_MAX); [|discriminate].
    destruct (agentDeposit ch + casinoDeposit ch <=? UINT256_MAX); [|discriminate].
    destruct (_ =? _) eqn:Heq; [|discriminate]. zbools. exact Heq.
  - destruct (recover agent ab cb n sig) as [signer|]; [|discriminate].
    destruct (String.eqb signer (casino s)) eqn:Heq; [|discriminate].
    apply String.eqb_eq in Heq. congruence.
Qed.

End DisputeFacts.

(** X17. The dispute of an agent. startChallenge on an open channel with a
    higher nonce, balances that add up to the deposits and the casino's
    signature stores these balances and the nonce, marks the channel
    Disputed with the deadline block.timestamp + CHALLENGE_PERIOD and emits
    ChallengeStarted. The channel is then not playable; closeChannel,
    emergencyExit and a second startChallenge of the agent revert with
    ChannelNotOpen; resolveChallenge, by any sender, reverts with
    ChallengePeriodActive before the deadline and from the deadline on
    settles the channel with the challenged balances and emits
    ChallengeResolved. *)
Theorem challenge_then_resolve `{ChannelManager.Chain}
    (m : ChannelManager.Msg) (ab cb n : Z) (sig : string)
    (s : ChannelManager.State) (ch : ChannelManager.Channel) :
  ChannelManager.channels s !! ChannelManager.sender m = Some ch ->
  ChannelManager.state ch = ChannelManager.CSOpen ->
  ChannelManager.nonce ch < n ->
  ab + cb = ChannelManager.agentDeposit ch + ChannelManager.casinoDeposit ch ->
  ab + cb <= ChannelManager.UINT256_MAX ->
  ChannelManager.recover (ChannelManager.sender m) ab cb n sig
    = Some (ChannelManager.casino s) ->
  ChannelManager.timestamp m + ChannelManager.CHALLENGE_PERIOD
    <= ChannelManager.UINT256_MAX ->
  let agent := ChannelManager.sender m in
  let deadline := ChannelManager.timestamp m + ChannelManager.CHALLENGE_PERIOD in
  let ch' := ChannelManager.mkCh (ChannelManager.agentDeposit ch)
               (ChannelManager.casinoDeposit ch) ab cb n
               (ChannelManager.openedAt ch) deadline ChannelManager.CSDisputed in
  let s1 := Disputes.set_channel agent ch' s in
  Disputes.startChallenge m ab cb n sig s
    = inr (s1, Disputes.ChallengeStarted agent ab n deadline) /\
  Disputes.isPlayable agent s1 = false /\
  (forall m2 ab2 cb2 n2 sig2,
     ChannelManager.sender m2 = agent ->
     ChannelManager.closeChannel m2 ab2 cb2 n2 sig2 s1
       = inl ChannelManager.ChannelNotOpen /\
     ChannelManager.emergencyExit m2 s1 = inl ChannelManager.ChannelNotOpen /\
     Disputes.startChallenge m2 ab2 cb2 n2 sig2 s1
       = inl (Disputes.Base ChannelManager.ChannelNotOpen)) /\
  (forall m2,
     ChannelManager.timestamp m2 < deadline ->
     Disputes.resolveChallenge m2 agent s1 = inl Disputes.ChallengePeriodActive) /\
  (forall m2,
     deadline <= ChannelManager.timestamp m2 ->
     Disputes.resolveChallenge m2 agent s1
     = match ChannelManager._settle agent ch' ab cb s1 with
       | inl e => inl (Disputes.Base e)
       | inr s2 => inr (s2, Disputes.ChallengeResolved agent ab cb)
       end).
Proof.
  intros Hch Hopen Hn Hsum Hmax Hsig Htime agent deadline ch' s1.
  destruct (checks_pass s ch agent ab cb n sig Hsum Hmax Hsig) as [Hb Hv].
  split; [|split; [|split; [|split]]].
  - unfold Disputes.startChallenge. subst s1 ch' agent.
    rewrite (channel_of_Some _ _ _ Hch), Hopen. cbn [ChannelManager.state_eqb negb].
    destruct (n <=? ChannelManager.nonce ch) eqn:Hle; [zbools; lia|].
    rewrite Hb, Hv. unfold ChannelManager.checked_add.
    fold deadline.
    destruct (deadline <=? ChannelManager.UINT256_MAX) eqn:Hd;
      [reflexivity|zbools; subst deadline; lia].
  - unfold Disputes.isPlayable. subst s1. rewrite channel_of_set. reflexivity.
  - intros m2 ab2 cb2 n2 sig2 Hm2.
    unfold ChannelManager.closeChannel, ChannelManager.emergencyExit,
      Disputes.startChallenge.
    rewrite Hm2. subst s1. rewrite channel_of_set. auto.
  - intros m2 Hearly. unfold Disputes.resolveChallenge.
    subst s1. rewrite channel_of_set. cbn [ChannelManager.state ch'
      ChannelManager.state_eqb negb ChannelManager.disputeDeadline].
    destruct (_ <? _) eqn:Hlt; [reflexivity|zbools; lia].
  - intros m2 Hlate. unfold Disputes.resolveChallenge.
    subst s1. rewrite channel_of_set. cbn [ChannelManager.state ch'
      ChannelManager.state_eqb negb ChannelManager.disputeDeadline].
    destruct (_ <? _) eqn:Hlt; [zbools; lia|]. reflexivity.
Qed.

Lemma challenge_then_resolve_witness :
  @Disputes.startChallenge fixed_chain (ChannelManager.mkMsg alice 0 5000)
    (15 * 10 ^ 15) (5 * 10 ^ 15) 3
    "signed:0x1111111111111111111111111111111111111111:3"
    (funded house alice (10 ^ 18) 100)
  = inr (challenged,
         Disputes.ChallengeStarted alice (15 * 10 ^ 15) 3 91400) /\
  @Disputes.resolveChallenge fixed_chain (ChannelManager.mkMsg bob 0 91399)
    alice challenged
  = inl Disputes.ChallengePeriodActive.
Proof.
  destruct (@challenge_then_resolve fixed_chain
    (ChannelManager.mkMsg alice 0 5000) (15 * 10 ^ 15) (5 * 10 ^ 15) 3
    "signed:0x1111111111111111111111111111111111111111:3"
    (funded house alice (10 ^ 18) 100) funded_channel)
    as (Hstart & _ & _ & Hearly & _).
  - reflexivity.
  - reflexivity.
  - cbn. lia.
  - reflexivity.
  - vm_compute. discriminate.
  - vm_compute. reflexivity.
  - vm_compute. discriminate.
  - split; [exact Hstart|].
    apply (Hearly (ChannelManager.mkMsg bob 0 91399)). vm_compute. reflexivity.
Defined.

(** X18. A counterChallenge that goes through was sent before the dispute
    deadline of a Disputed channel, with a nonce above the stored one,
    balances that add up to the deposits and a signature of the casino; it
    replaces the stored balances and nonce, keeps the deposits, restarts the
    challenge period from the block time and emits ChallengeCountered;
    resolveChallenge then waits for the new deadline and settles with the
    countered balances. *)
Theorem counter_challenge_needs_newer_state `{ChannelManager.Chain}
    (m : ChannelManager.Msg) (agent : string) (ab cb n : Z) (sig : string)
    (s s' : ChannelManager.State) (ev : Disputes.Event) :
  Disputes.counterChallenge m agent ab cb n sig s = inr (s', ev) ->
  exists ch,
    ChannelManager.channels s !! agent = Some ch /\
    ChannelManager.state ch = ChannelManager.CSDisputed /\
    ChannelManager.timestamp m < ChannelManager.disputeDeadline ch /\
    ChannelManager.nonce ch < n /\
    ab + cb = ChannelManager.agentDeposit ch + ChannelManager.casinoDeposit ch /\
    ChannelManager.recover agent ab cb n sig = Some (ChannelManager.casino s) /\
    let deadline :=
      ChannelManager.timestamp m + ChannelManager.CHALLENGE_PERIOD in
    let ch' := ChannelManager.mkCh (ChannelManager.agentDeposit ch)
                 (ChannelManager.casinoDeposit ch) ab cb n
                 (ChannelManager.openedAt ch) deadline
                 ChannelManager.CSDisputed in
    s' = Disputes.set_channel agent ch' s /\
    ev = Disputes.ChallengeCountered agent ab n deadline /\
    (forall m2,
       ChannelManager.timestamp m2 < deadline ->
       Disputes.resolveChallenge m2 agent s' = inl Disputes.ChallengePeriodActive) /\
    (forall m2,
       deadline <= ChannelManager.timestamp m2 ->
       Disputes.resolveChallenge m2 agent s'
       = match ChannelManager._settle agent ch' ab cb s' with
         | inl e => inl (Disputes.Base e)
         | inr s2 => inr (s2, Disputes.ChallengeResolved agent ab cb)
         end).
Proof.
  unfold Disputes.counterChallenge. intros Hc.
  set (ch := ChannelManager.channel_of s agent) in *.
  destruct (ChannelManager.state ch) eqn:Hstate;
    cbn [ChannelManager.state_eqb negb] in Hc; try discriminate.
  destruct (_ >=? _) eqn:Hexp; [discriminate|].
  destruct (n <=? ChannelManager.nonce ch) eqn:Hn; [discriminate|].
  destruct (ChannelManager._checkBalanceInvariant ch ab cb) as [?|[]] eqn:Hb;
    [discriminate|].
  destruct (ChannelManager._verifyCasinoSig s agent ab cb n sig) as [?|[]] eqn:Hv;
    [discriminate|].
  unfold ChannelManager.checked_add in Hc.
  destruct (_ <=? ChannelManager.UINT256_MAX); [|discriminate].
  injection Hc as <- <-.
  destruct (checks_passed s ch agent ab cb n sig Hb Hv) as [Hsum Hsig].
  zbools.
  exists ch. split; [apply disputed_is_stored, Hstate|].
  split; [exact Hstate|]. split; [lia|]. split; [lia|].
  split; [exact Hsum|]. split; [exact Hsig|].
  cbv zeta.
  split; [reflexivity|]. split; [reflexivity|]. split.
  - intros m2 Hearly. unfold Disputes.resolveChallenge.
    rewrite channel_of_set. cbn [ChannelManager.state
      ChannelManager.state_eqb negb ChannelManager.disputeDeadline].
    destruct (_ <? _) eqn:Hlt; [reflexivity|zbools; lia].
  - intros m2 Hlate. unfold Disputes.resolveChallenge.
    rewrite channel_of_set. cbn [ChannelManager.state
      ChannelManager.state_eqb negb ChannelManager.disputeDeadline].
    destruct (_ <? _) eqn:Hlt; [zbools; lia|]. reflexivity.
Qed.

Lemma counter_challenge_needs_newer_state_witness :
  exists s' ev,
    @Disputes.counterChallenge fixed_chain (ChannelManager.mkMsg house 0 6000)
      alice (5 * 10 ^ 15) (15 * 10 ^ 15) 5
      "signed:0x1111111111111111111111111111111111111111:5" challenged
    = inr (s', ev) /\
    ev = Disputes.ChallengeCountered alice (5 * 10 ^ 15) 5 92400.
Proof.
  destruct (@Disputes.counterChallenge fixed_chain
              (ChannelManager.mkMsg house 0 6000) alice (5 * 10 ^ 15)
              (15 * 10 ^ 15) 5
              "signed:0x1111111111111111111111111111111111111111:5" challenged)
    as [e|[s' ev]] eqn:Hc.
  - vm_compute in Hc. discriminate Hc.
  - exists s', ev. split; [reflexivity|].
    destruct (@counter_challenge_needs_newer_state fixed_chain _ _ _ _ _ _ _
                s' ev Hc) as (ch & _ & _ & _ & _ & _ & _ & _ & Hev & _).
    exact Hev.
Defined.

(** X19. withdrawPending reverts with NothingPending when nothing is owed
    to the sender and with TransferFailed when the sender refuses the
    transfer or the contract lacks the amount, and never with another
    error. When it goes through it sends exactly what was owed, sets the
    sender's entry to 0, leaves the other entries and the channels alone,
    and a second call of the sender reverts with NothingPending. *)
Theorem withdrawPending_pays_once `{ChannelManager.Chain}
    (m : ChannelManager.Msg) (s : ChannelManager.State) :
  let account := ChannelManager.sender m in
  let amount := owed s account in
  match Disputes.withdrawPending m s with
  | inl Disputes.NothingPending => amount = 0
  | inl Disputes.TransferFailed =>
      amount <> 0 /\
      (ChannelManager.accepts account = false \/
       ChannelManager.balance s < amount)
  | inl _ => False
  | inr s' =>
      amount <> 0 /\
      ChannelManager.accepts account = true /\
      ChannelManager.balance s' = ChannelManager.balance s - amount /\
      owed s' account = 0 /\
      (forall other, other <> account -> owed s' other = owed s other) /\
      ChannelManager.channels s' = ChannelManager.channels s /\
      ChannelManager.trace s'
        = ChannelManager.trace s ++ [ChannelManager.Transfer account amount] /\
      forall m2,
        ChannelManager.sender m2 = account ->
        Disputes.withdrawPending m2 s' = inl Disputes.NothingPending
  end.
Proof.
  intros account amount. unfold Disputes.withdrawPending.
  fold account. change (default 0 (ChannelManager.pendingWithdrawals s !! account))
    with amount.
  destruct (amount =? 0) eqn:Hz; zbools; [exact Hz|].
  destruct (ChannelManager.accepts account) eqn:Hacc; cbn [andb].
  - destruct (amount <=? ChannelManager.balance s) eqn:Hle; zbools.
    + split; [exact Hz|]. split; [reflexivity|]. cbn.
      split; [reflexivity|]. unfold owed. cbn.
      split; [rewrite lookup_insert_eq; reflexivity|].
      split; [intros other Hne; rewrite lookup_insert_ne by congruence; reflexivity|].
      split; [reflexivity|]. split; [reflexivity|].
      intros m2 ->. rewrite lookup_insert_eq. reflexivity.
    + split; [exact Hz|]. right. lia.
  - split; [exact Hz|]. left. reflexivity.
Qed.

(** X20. The pause flag stops openChannel with EnforcedPause and nothing
    else: fundCasinoSide, closeChannel, emergencyExit, startChallenge,
    counterChallenge, resolveChallenge and withdrawPending revert or go
    through, with the same effects, whatever the flag is, and leave it as
    it was. *)
Theorem pause_blocks_only_openChannel `{ChannelManager.Chain}
    (b : bool) (s : ChannelManager.State) :
  (forall m, ChannelManager.openChannel m (set_paused true s)
             = inl ChannelManager.EnforcedPause) /\
  (forall m agent,
     ChannelManager.fundCasinoSide m agent (set_paused b s)
     = sum_map id (set_paused b) (ChannelManager.fundCasinoSide m agent s)) /\
  (forall m ab cb n sig,
     ChannelManager.closeChannel m ab cb n sig (set_paused b s)
     = sum_map id (set_paused b) (ChannelManager.closeChannel m ab cb n sig s)) /\
  (forall m,
     ChannelManager.emergencyExit m (set_paused b s)
     = sum_map id (set_paused b) (ChannelManager.emergencyExit m s)) /\
  (forall m ab cb n sig,
     Disputes.startChallenge m ab cb n sig (set_paused b s)
     = sum_map id (prod_map (set_paused b) id)
         (Disputes.startChallenge m ab cb n sig s)) /\
  (forall m agent ab cb n sig,
     Disputes.counterChallenge m agent ab cb n sig (set_paused b s)
     = sum_map id (prod_map (set_paused b) id)
         (Disputes.counterChallenge m agent ab cb n sig s)) /\
  (forall m agent,
     Disputes.resolveChallenge m agent (set_paused b s)
     = sum_map id (prod_map (set_paused b) id)
         (Disputes.resolveChallenge m agent s)) /\
  (forall m,
     Disputes.withdrawPending m (set_paused b s)
     = sum_map id (set_paused b) (Disputes.withdrawPending m s)).
Proof.
  assert (Hpay : forall to amount s0,
    ChannelManager.pay to amount (set_paused b s0)
    = sum_map id (set_paused b) (ChannelManager.pay to amount s0)).
  { intros to amount s0. unfold ChannelManager.pay. cbn.
    destruct (amount >? 0); [|reflexivity].
    destruct (_ && _); [reflexivity|].
    destruct (ChannelManager.checked_add _ _); reflexivity. }
  assert (Hsettle : forall agent ch ap cp s0,
    ChannelManager._settle agent ch ap cp (set_paused b s0)
    = sum_map id (set_paused b) (ChannelManager._settle agent ch ap cp s0)).
  { intros agent ch ap cp s0. unfold ChannelManager._settle.
    change (ChannelManager.totalLocked (set_paused b s0))
      with (ChannelManager.totalLocked s0).
    change (ChannelManager.unlockCollateral (ChannelManager.casinoDeposit ch)
              (set_paused b s0))
      with (ChannelManager.unlockCollateral (ChannelManager.casinoDeposit ch) s0).
    destruct (if ChannelManager.casinoDeposit ch >? 0 then _ else _);
      [reflexivity|].
    destruct (if cp >? ChannelManager.casinoDeposit ch then _ else _);
      [reflexivity|].
    cbv zeta. cbn [ChannelManager.balance set_paused].
    destruct (_ && _); [reflexivity|].
    match goal with
    | |- match ChannelManager.pay _ _ ?s1 with _ => _ end
         = sum_map _ _ (match ChannelManager.pay _ _ ?s2 with _ => _ end) =>
        change s1 with (set_paused b s2)
    end.
    rewrite Hpay.
    destruct (ChannelManager.pay agent ap _) as [?|s2]; [reflexivity|].
    cbn [sum_map]. change (ChannelManager.casino (set_paused b s0))
      with (ChannelManager.casino s0).
    rewrite Hpay.
    destruct (ChannelManager.pay (ChannelManager.casino s0) _ s2) as [?|s3];
      reflexivity. }
  repeat split.
  - intros m ag. unfold ChannelManager.fundCasinoSide. cbn.
    destruct (negb _); [reflexivity|].
    change (ChannelManager.channel_of (set_paused b s) ag)
      with (ChannelManager.channel_of s ag).
    destruct (negb _); [reflexivity|].
    change (ChannelManager.lockCollateral (ChannelManager.value m) (set_paused b s))
      with (ChannelManager.lockCollateral (ChannelManager.value m) s).
    destruct (ChannelManager.lockCollateral _ s); [reflexivity|].
    destruct (ChannelManager.checked_add _ _); [reflexivity|].
    destruct (ChannelManager.checked_add _ _); reflexivity.
  - intros m ab cb n sig. unfold ChannelManager.closeChannel.
    change (ChannelManager.channel_of (set_paused b s) (ChannelManager.sender m))
      with (ChannelManager.channel_of s (ChannelManager.sender m)).
    destruct (negb _); [reflexivity|]. destruct (_ <=? _); [reflexivity|].
    destruct (ChannelManager._checkBalanceInvariant _ _ _); [reflexivity|].
    change (ChannelManager._verifyCasinoSig (set_paused b s))
      with (ChannelManager._verifyCasinoSig s).
    destruct (ChannelManager._verifyCasinoSig _ _ _ _ _ _); [reflexivity|].
    apply Hsettle.
  - intros m. unfold ChannelManager.emergencyExit.
    change (ChannelManager.channel_of (set_paused b s) (ChannelManager.sender m))
      with (ChannelManager.channel_of s (ChannelManager.sender m)).
    destruct (negb _); [reflexivity|]. destruct (negb _); [reflexivity|].
    destruct (ChannelManager.checked_add _ _); [reflexivity|].
    destruct (_ <? _); [reflexivity|]. apply Hsettle.
  - intros m ab cb n sig. unfold Disputes.startChallenge.
    change (ChannelManager.channel_of (set_paused b s) (ChannelManager.sender m))
      with (ChannelManager.channel_of s (ChannelManager.sender m)).
    destruct (negb _); [reflexivity|]. destruct (_ <=? _); [reflexivity|].
    destruct (ChannelManager._checkBalanceInvariant _ _ _); [reflexivity|].
    change (ChannelManager._verifyCasinoSig (set_paused b s))
      with (ChannelManager._verifyCasinoSig s).
    destruct (ChannelManager._verifyCasinoSig _ _ _ _ _ _); [reflexivity|].
    destruct (ChannelManager.checked_add _ _); reflexivity.
  - intros m ag ab cb n sig. unfold Disputes.counterChallenge.
    change (ChannelManager.channel_of (set_paused b s) ag)
      with (ChannelManager.channel_of s ag).
    destruct (negb _); [reflexivity|]. destruct (_ >=? _); [reflexivity|].
    destruct (_ <=? _); [reflexivity|].
    destruct (ChannelManager._checkBalanceInvariant _ _ _); [reflexivity|].
    change (ChannelManager._verifyCasinoSig (set_paused b s))
      with (ChannelManager._verifyCasinoSig s).
    destruct (ChannelManager._verifyCasinoSig _ _ _ _ _ _); [reflexivity|].
    destruct (ChannelManager.checked_add _ _); reflexivity.
  - intros m ag. unfold Disputes.resolveChallenge.
    change (ChannelManager.channel_of (set_paused b s) ag)
      with (ChannelManager.channel_of s ag).
    destruct (negb _); [reflexivity|]. destruct (_ <? _); [reflexivity|].
    cbv zeta. rewrite Hsettle.
    destruct (ChannelManager._settle _ _ _ _ s); reflexivity.
  - intros m. unfold Disputes.withdrawPending. cbn.
    destruct (_ =? 0); [reflexivity|]. destruct (_ && _); reflexivity.
Qed.

(** *** Solvency over sequences of transactions *)

Section Totals.
  Context {A : Type} (f : A -> Z).

Lemma total_empty : total f ∅ = 0.
Proof. unfold total. apply map_fold_empty. Qed.

Lemma total_insert_new m k v :
  m !! k = None -> total f (<[k := v]> m) = f v + total f m.
Proof.
  intros Hk. unfold total.
  rewrite map_fold_insert_L; [reflexivity| |exact Hk].
  intros. lia.
Qed.

Lemma total_delete m k v :
  m !! k = Some v -> total f (delete k m) = total f m - f v.
Proof.
  intros Hk. rewrite <- (insert_delete_id m k v Hk) at 2.
  rewrite total_insert_new by apply lookup_delete_eq. lia.
Qed.

Lemma total_insert m k v v0 :
  m !! k = Some v0 -> total f (<[k := v]> m) = total f m - f v0 + f v.
Proof.
  intros Hk. rewrite <- insert_delete_eq.
  rewrite total_insert_new by apply lookup_delete_eq.
  rewrite (total_delete m k v0 Hk). lia.
Qed.

Lemma total_nonneg m :
  map_Forall (fun _ v => 0 <= f v) m -> 0 <= total f m.
Proof.
  induction m as [|k v m Hk IH] using map_ind.
  - rewrite total_empty. lia.
  - intros Hall. rewrite total_insert_new by exact Hk.
    apply map_Forall_insert in Hall as [Hv Hm]; [|exact Hk].
    specialize (IH Hm). lia.
Qed.

Lemma total_bounds m k v :
  map_Forall (fun _ v => 0 <= f v) m -> m !! k = Some v -> f v <= total f m.
Proof.
  intros Hall Hk.
  pose proof (total_delete m k v Hk) as Hd.
  assert (0 <= total f (delete k m)).
  { apply total_nonneg. apply map_Forall_delete. exact Hall. }
  lia.
Qed.

End Totals.

Lemma total_set_pending (m : gmap string Z) k v :
  total id (<[k := v]> m) = total id m - default 0 (m !! k) + v.
Proof.
  destruct (m !! k) as [v0|] eqn:Hk; cbn.
  - rewrite (total_insert id m k v v0 Hk). reflexivity.
  - rewrite total_insert_new by exact Hk. unfold id. lia.
Qed.

Section Solvency.
  Context `{ChannelManager.Chain}.
  Import ChannelManager Disputes.

Lemma held_mk ad cd ab cb n t d st : held (mkCh ad cd ab cb n t d st) = ad + cd.
Proof. reflexivity. Qed.

Lemma held_eq ch : held ch = agentDeposit ch + casinoDeposit ch.
Proof. reflexivity. Qed.

Lemma stored_channel s agent :
  state (channel_of s agent) <> CSNone ->
  channels s !! agent = Some (channel_of s agent).
Proof.
  unfold channel_of. destruct (channels s !! agent); [reflexivity|].
  cbn. congruence.
Qed.

Lemma unstored_channel s agent :
  map_Forall (fun _ ch => channel_ok ch) (channels s) ->
  state (channel_of s agent) = CSNone ->
  channels s !! agent = None.
Proof.
  unfold channel_of. intros Hall.
  destruct (channels s !! agent) as [ch|] eqn:Hch; [|reflexivity].
  cbn. intros Hs. destruct (ok_state ch (Hall _ _ Hch)); congruence.
Qed.

(** A payment takes the amount out of the balance or adds it to what is
    owed. *)
Lemma pay_keeps to amount s s' :
  pay to amount s = inr s' -> 0 <= amount ->
  map_Forall (fun _ v => 0 <= v) (pendingWithdrawals s) ->
  casino s' = casino s /\ channels s' = channels s /\
  totalLocked s' = totalLocked s /\
  map_Forall (fun _ v => 0 <= v) (pendingWithdrawals s') /\
  balance s' - total id (pendingWithdrawals s')
    = balance s - total id (pendingWithdrawals s) - amount.
Proof.
  unfold pay. intros Hpay Hamount Hpend.
  destruct (amount >? 0) eqn:Hpos; zbools.
  - destruct (accepts to && (amount <=? balance s)).
    + injection Hpay as <-. cbn. repeat split; auto. lia.
    + unfold checked_add in Hpay.
      destruct (_ <=? UINT256_MAX); [|discriminate].
      injection Hpay as <-. cbn. repeat split; auto.
      * apply map_Forall_insert_2; [|exact Hpend].
        destruct (pendingWithdrawals s !! to) as [v|] eqn:Hv; cbn; [|lia].
        specialize (Hpend _ _ Hv). cbn in Hpend. lia.
      * rewrite total_set_pending. lia.
  - injection Hpay as <-. repeat split; auto. lia.
Qed.

Lemma insurance_bounds cd cp scaled :
  0 <= cd ->
  (if cp >? cd then checked_mul (cp - cd) INSURANCE_BPS else inr 0) = inr scaled ->
  0 <= scaled / 10000 /\ scaled / 10000 <= cp - cd \/ (cp <= cd /\ scaled = 0).
Proof.
  intros Hcd. destruct (cp >? cd) eqn:Hgt; zbools.
  - unfold checked_mul, INSURANCE_BPS.
    destruct (_ <=? UINT256_MAX); [|discriminate].
    intros [= <-]. left. split.
    + apply Z.div_pos; lia.
    + apply Z.div_le_upper_bound; lia.
  - intros [= <-]. right. split; [lia|reflexivity].
Qed.

(** A settlement of a stored channel with payouts that add up to its
    deposits keeps the contract solvent. *)
Lemma settle_keeps agent ch ap cp s s' :
  solvent s -> channels s !! agent = Some ch ->
  0 <= ap -> 0 <= cp -> ap + cp = held ch ->
  _settle agent ch ap cp s = inr s' -> solvent s'.
Proof.
  intros [Hchs Hpend Hlocked Hbal] Hch Hap Hcp Hsum. unfold _settle.
  pose proof (Hchs _ _ Hch) as Hok. cbn in Hok.
  destruct (if casinoDeposit ch >? 0 then _ else _) as [?|locked] eqn:Hunlock;
    [discriminate|].
  destruct (if cp >? casinoDeposit ch then _ else _) as [?|scaled] eqn:Hscaled;
    [discriminate|].
  cbv zeta.
  destruct (_ && _); [discriminate|].
  pose proof (insurance_bounds _ _ _ (ok_casinoDeposit _ Hok) Hscaled) as Hins.
  assert (Hins' : 0 <= scaled / 10000 <= cp).
  { pose proof (ok_casinoDeposit _ Hok).
    destruct Hins as [[? ?]|[? ->]]; try (change (0 / 10000) with 0); lia. }
  assert (Hl : locked = totalLocked s - casinoDeposit ch).
  { destruct (casinoDeposit ch >? 0) eqn:Hcd; zbools.
    - unfold unlockCollateral in Hunlock.
      destruct (_ >? totalLocked s); [discriminate|]. congruence.
    - pose proof (ok_casinoDeposit _ Hok). injection Hunlock as <-. lia. }
  match goal with
  | |- match pay agent ap ?s1 with _ => _ end = _ -> _ =>
      destruct (pay agent ap s1) as [?|s2] eqn:Hp1; [discriminate|];
      apply pay_keeps in Hp1 as (Hc1 & Hch1 & Hl1 & Hpend1 & Hb1);
        [|exact Hap|exact Hpend]
  end.
  cbn in Hc1, Hch1, Hl1, Hb1.
  destruct (pay (casino s) _ s2) as [?|s3] eqn:Hp2; [discriminate|].
  apply pay_keeps in Hp2 as (Hc2 & Hch2 & Hl2 & Hpend2 & Hb2);
    [|lia|exact Hpend1].
  intros [= <-]. split; cbn.
  - rewrite Hch2, Hch1. apply map_Forall_delete. exact Hchs.
  - exact Hpend2.
  - rewrite Hl2, Hl1, Hch2, Hch1, Hl.
    rewrite (total_delete _ _ _ _ Hch). lia.
  - unfold liabilities in *. cbn. rewrite Hch2, Hch1.
    rewrite (total_delete _ _ _ _ Hch). lia.
Qed.

Lemma transact_keeps c s :
  unsigned_args c -> solvent s -> solvent (transact c s).
Proof.
  intros Hargs Hs. pose proof Hs as [Hchs Hpend Hlocked Hbal].
  destruct c as [m|m agent|m ab cb n sig|m ab cb n sig|m agent ab cb n sig
                |m agent|m|m]; cbn [transact unsigned_args] in *.
  - (* openChannel *)
    unfold openChannel.
    destruct (paused s); [exact Hs|].
    destruct (_ || _) eqn:Hrange; [exact Hs|].
    destruct (negb _) eqn:Hnone; [exact Hs|].
    apply negb_false_iff in Hnone.
    assert (Hfree : channels s !! sender m = None).
    { apply unstored_channel; [exact Hchs|].
      destruct (state (channel_of s (sender m))); try discriminate. reflexivity. }
    split; cbn.
    + apply map_Forall_insert_2; [|exact Hchs].
      split; cbn; unfold held; cbn; auto; lia.
    + exact Hpend.
    + rewrite total_insert_new by exact Hfree. cbn. lia.
    + unfold liabilities in *. cbn.
      rewrite total_insert_new by exact Hfree. unfold held at 1. cbn. lia.
  - (* fundCasinoSide *)
    unfold fundCasinoSide.
    destruct (negb (String.eqb _ _)); [exact Hs|].
    destruct (negb _) eqn:Hopen; [exact Hs|].
    apply negb_false_iff in Hopen.
    assert (Hch : channels s !! agent = Some (channel_of s agent)).
    { apply stored_channel. destruct (state (channel_of s agent)); discriminate. }
    pose proof (Hchs _ _ Hch) as Hok. cbn in Hok. destruct Hok.
    unfold lockCollateral, checked_add.
    destruct (totalLocked s + value m <=? UINT256_MAX); [|exact Hs].
    destruct (_ >? maxExposure s); [exact Hs|].
    destruct (casinoDeposit _ + value m <=? UINT256_MAX); [|exact Hs].
    destruct (casinoBalance _ + value m <=? UINT256_MAX); [|exact Hs].
    split; cbn.
    + apply map_Forall_insert_2; [|exact Hchs].
      split; unfold held in *; cbn; auto; lia.
    + exact Hpend.
    + rewrite (total_insert _ _ _ _ _ Hch). cbn. lia.
    + unfold liabilities in *. cbn.
      rewrite (total_insert _ _ _ _ _ Hch), held_mk.
      rewrite (held_eq (channel_of _ _)). lia.
  - (* closeChannel *)
    unfold closeChannel.
    destruct (negb _) eqn:Hopen; [exact Hs|].
    apply negb_false_iff in Hopen.
    assert (Hch : channels s !! sender m = Some (channel_of s (sender m))).
    { apply stored_channel.
      destruct (state (channel_of s (sender m))); discriminate. }
    destruct (_ <=? _); [exact Hs|].
    destruct (_checkBalanceInvariant _ _ _) as [?|[]] eqn:Hb; [exact Hs|].
    destruct (_verifyCasinoSig _ _ _ _ _ _) as [?|[]] eqn:Hv; [exact Hs|].
    destruct (checks_passed _ _ _ _ _ _ _ Hb Hv) as [Hsum _].
    destruct (_settle _ _ _ _ _) as [?|s'] eqn:Hsettle; [exact Hs|].
    cbn. refine (settle_keeps _ _ _ _ _ _ Hs Hch _ _ _ Hsettle); tauto.
  - (* startChallenge *)
    unfold startChallenge.
    destruct (negb _) eqn:Hopen; [exact Hs|].
    apply negb_false_iff in Hopen.
    assert (Hch : channels s !! sender m = Some (channel_of s (sender m))).
    { apply stored_channel.
      destruct (state (channel_of s (sender m))); discriminate. }
    pose proof (Hchs _ _ Hch) as Hok. cbn in Hok. destruct Hok.
    destruct (_ <=? _); [exact Hs|].
    destruct (_checkBalanceInvariant _ _ _) as [?|[]] eqn:Hb; [exact Hs|].
    destruct (_verifyCasinoSig _ _ _ _ _ _) as [?|[]] eqn:Hv; [exact Hs|].
    destruct (checks_passed _ _ _ _ _ _ _ Hb Hv) as [Hsum _].
    destruct (checked_add _ _); [exact Hs|].
    split; cbn.
    + apply map_Forall_insert_2; [|exact Hchs].
      split; unfold held in *; cbn; auto; lia.
    + exact Hpend.
    + rewrite (total_insert _ _ _ _ _ Hch). cbn. lia.
    + unfold liabilities in *. cbn.
      rewrite (total_insert _ _ _ _ _ Hch), held_mk.
      rewrite (held_eq (channel_of _ _)). lia.
  - (* counterChallenge *)
    unfold counterChallenge.
    destruct (negb _) eqn:Hdisp; [exact Hs|].
    apply negb_false_iff in Hdisp.
    assert (Hch : channels s !! agent = Some (channel_of s agent)).
    { apply stored_channel. destruct (state (channel_of s agent)); discriminate. }
    pose proof (Hchs _ _ Hch) as Hok. cbn in Hok. destruct Hok.
    destruct (_ >=? _); [exact Hs|].
    destruct (_ <=? _); [exact Hs|].
    destruct (_checkBalanceInvariant _ _ _) as [?|[]] eqn:Hb; [exact Hs|].
    destruct (_verifyCasinoSig _ _ _ _ _ _) as [?|[]] eqn:Hv; [exact Hs|].
    destruct (checks_passed _ _ _ _ _ _ _ Hb Hv) as [Hsum _].
    destruct (checked_add _ _); [exact Hs|].
    split; cbn.
    + apply map_Forall_insert_2; [|exact Hchs].
      split; unfold held in *; cbn; auto; lia.
    + exact Hpend.
    + rewrite (total_insert _ _ _ _ _ Hch). cbn. lia.
    + unfold liabilities in *. cbn.
      rewrite (total_insert _ _ _ _ _ Hch), held_mk.
      rewrite (held_eq (channel_of _ _)). lia.
  - (* resolveChallenge *)
    unfold resolveChallenge.
    destruct (negb _) eqn:Hdisp; [exact Hs|].
    apply negb_false_iff in Hdisp.
    assert (Hch : channels s !! agent = Some (channel_of s agent)).
    { apply stored_channel. destruct (state (channel_of s agent)); discriminate. }
    pose proof (Hchs _ _ Hch) as Hok. cbn in Hok. destruct Hok.
    destruct (_ <? _); [exact Hs|]. cbv zeta.
    destruct (_settle _ _ _ _ _) as [?|s'] eqn:Hsettle; [exact Hs|].
    cbn. refine (settle_keeps _ _ _ _ _ _ Hs Hch _ _ _ Hsettle); auto.
  - (* emergencyExit *)
    unfold emergencyExit.
    destruct (negb _) eqn:Hopen; [exact Hs|].
    apply negb_false_iff in Hopen.
    assert (Hch : channels s !! sender m = Some (channel_of s (sender m))).
    { apply stored_channel.
      destruct (state (channel_of s (sender m))); discriminate. }
    pose proof (Hchs _ _ Hch) as Hok. cbn in Hok. destruct Hok.
    destruct (negb (_ =? 0)); [exact Hs|].
    destruct (checked_add _ _); [exact Hs|].
    destruct (_ <? _); [exact Hs|].
    destruct (_settle _ _ _ _ _) as [?|s'] eqn:Hsettle; [exact Hs|].
    cbn. refine (settle_keeps _ _ _ _ _ _ Hs Hch _ _ _ Hsettle); auto.
  - (* withdrawPending *)
    unfold withdrawPending.
    destruct (_ =? 0); [exact Hs|].
    destruct (_ && _); [|exact Hs].
    split; cbn.
    + exact Hchs.
    + apply map_Forall_insert_2; [lia|exact Hpend].
    + exact Hlocked.
    + unfold liabilities in *. cbn. rewrite total_set_pending. lia.
Qed.

Lemma transact_all_keeps cs s :
  Forall unsigned_args cs -> solvent s -> solvent (transact_all cs s).
Proof.
  unfold transact_all. revert s.
  induction cs as [|c cs IH]; intros s Hargs Hs; [exact Hs|].
  cbn. apply IH; [eapply Forall_inv_tail; eauto|].
  apply transact_keeps; [eapply Forall_inv; eauto|exact Hs].
Qed.

Lemma deployed_solvent house limit : solvent (deployed house limit).
Proof.
  split; cbn.
  - apply map_Forall_empty.
  - apply map_Forall_empty.
  - rewrite total_empty. reflexivity.
  - unfold liabilities. cbn. rewrite !total_empty. reflexivity.
Qed.

End Solvency.

Section Liveness.
  Context `{ChannelManager.Chain}.
  Import ChannelManager Disputes.

Lemma owed_bounds s account :
  map_Forall (fun _ v => 0 <= v) (pendingWithdrawals s) ->
  0 <= owed s account <= total id (pendingWithdrawals s).
Proof.
  intros Hpend. unfold owed.
  destruct (pendingWithdrawals s !! account) as [v|] eqn:Hv; cbn.
  - split; [exact (Hpend _ _ Hv)|].
    exact (total_bounds id _ _ _ Hpend Hv).
  - split; [lia|]. apply total_nonneg. exact Hpend.
Qed.

Lemma liabilities_bounds s :
  solvent s ->
  0 <= total held (channels s) /\ 0 <= total id (pendingWithdrawals s).
Proof.
  intros [Hchs Hpend _ _]. split.
  - apply total_nonneg. intros k ch Hch. destruct (Hchs _ _ Hch).
    unfold held. lia.
  - apply total_nonneg. exact Hpend.
Qed.

Lemma held_bounds s agent ch :
  solvent s -> channels s !! agent = Some ch ->
  held ch <= total held (channels s) /\
  casinoDeposit ch <= totalLocked s.
Proof.
  intros [Hchs Hpend Hlocked _] Hch. split.
  - apply (total_bounds held _ agent); [|exact Hch].
    intros k c Hc. destruct (Hchs _ _ Hc). unfold held. lia.
  - rewrite Hlocked. apply (total_bounds casinoDeposit _ agent); [|exact Hch].
    intros k c Hc. destruct (Hchs _ _ Hc). assumption.
Qed.



(** No transaction changes the casino or maxExposure, and the locked
    collateral stays below maxExposure. *)
Lemma transact_exposure c s :
  maxExposure (transact c s) = maxExposure s /\
  casino (transact c s) = casino s /\
  (totalLocked s <= maxExposure s ->
   totalLocked (transact c s) <= maxExposure s).
Proof.
  assert (Hsettle : forall agent ch ap cp s',
    _settle agent ch ap cp s = inr s' ->
    maxExposure s' = maxExposure s /\ casino s' = casino s /\
    (totalLocked s <= maxExposure s -> totalLocked s' <= maxExposure s)).
  { intros agent ch ap cp s'. unfold _settle.
    destruct (if casinoDeposit ch >? 0 then _ else _) as [?|locked] eqn:Hunlock;
      [discriminate|].
    assert (Hl : locked <= totalLocked s).
    { destruct (casinoDeposit ch >? 0) eqn:Hpos; zbools.
      - unfold unlockCollateral in Hunlock.
        destruct (_ >? totalLocked s); [discriminate|].
        injection Hunlock as <-. lia.
      - injection Hunlock as <-. lia. }
    destruct (if cp >? casinoDeposit ch then _ else _); [discriminate|].
    cbv zeta. destruct (_ && _); [discriminate|].
    destruct (pay agent ap _) as [?|s2] eqn:Hp1; [discriminate|].
    apply pay_spec in Hp1 as (Hc1 & _ & _ & Hl1 & Hm1 & _).
    destruct (pay (casino s) _ s2) as [?|s3] eqn:Hp2; [discriminate|].
    apply pay_spec in Hp2 as (Hc2 & _ & _ & Hl2 & Hm2 & _).
    intros [= <-]. cbn in *. rewrite Hl2, Hl1, Hm2, Hm1, Hc2, Hc1.
    repeat split; try reflexivity. lia. }
  destruct c as [m|m agent|m ab cb n sig|m ab cb n sig|m agent ab cb n sig
                |m agent|m|m]; cbn [transact].
  - unfold openChannel. destruct (paused s); [auto|].
    destruct (_ || _); [auto|]. destruct (negb _); auto.
  - unfold fundCasinoSide. destruct (negb (String.eqb _ _)); [auto|].
    destruct (negb _); [auto|].
    unfold lockCollateral, checked_add.
    destruct (totalLocked s + value m <=? UINT256_MAX); [|auto].
    destruct (_ >? maxExposure s) eqn:Hgt; [auto|]. zbools.
    destruct (casinoDeposit _ + value m <=? UINT256_MAX); [|auto].
    destruct (casinoBalance _ + value m <=? UINT256_MAX); [|auto].
    cbn. auto.
  - unfold closeChannel. destruct (negb _); [auto|].
    destruct (_ <=? _); [auto|].
    destruct (_checkBalanceInvariant _ _ _); [auto|].
    destruct (_verifyCasinoSig _ _ _ _ _ _); [auto|].
    destruct (_settle _ _ _ _ _) eqn:Hs; [auto|]. cbn. eauto.
  - unfold startChallenge. destruct (negb _); [auto|].
    destruct (_ <=? _); [auto|].
    destruct (_checkBalanceInvariant _ _ _); [auto|].
    destruct (_verifyCasinoSig _ _ _ _ _ _); [auto|].
    destruct (checked_add _ _); cbn; auto.
  - unfold counterChallenge. destruct (negb _); [auto|].
    destruct (_ >=? _); [auto|]. destruct (_ <=? _); [auto|].
    destruct (_checkBalanceInvariant _ _ _); [auto|].
    destruct (_verifyCasinoSig _ _ _ _ _ _); [auto|].
    destruct (checked_add _ _); cbn; auto.
  - unfold resolveChallenge. destruct (negb _); [auto|].
    destruct (_ <? _); [auto|]. cbv zeta.
    destruct (_settle _ _ _ _ _) eqn:Hs; [auto|]. cbn. eauto.
  - unfold emergencyExit. destruct (negb _); [auto|].
    destruct (negb _); [auto|]. destruct (checked_add _ _); [auto|].
    destruct (_ <? _); [auto|].
    destruct (_settle _ _ _ _ _) eqn:Hs; [auto|]. cbn. eauto.
  - unfold withdrawPending. destruct (_ =? 0); [auto|].
    destruct (_ && _); cbn; auto.
Qed.

Lemma transact_all_exposure cs s :
  maxExposure (transact_all cs s) = maxExposure s /\
  casino (transact_all cs s) = casino s /\
  (totalLocked s <= maxExposure s ->
   totalLocked (transact_all cs s) <= maxExposure s).
Proof.
  unfold transact_all. revert s.
  induction cs as [|c cs IH]; intros s; [auto|].
  cbn. destruct (transact_exposure c s) as (H1 & H2 & H3).
  destruct (IH (transact c s)) as (H4 & H5 & H6).
  rewrite H4, H5, H1, H2. repeat split; try reflexivity.
  intros Hcap. rewrite H1 in H6. apply H6, H3, Hcap.
Qed.

End Liveness.

(** X21. Solvency of the ChannelManager. After any sequence of calls to
    openChannel, fundCasinoSide, closeChannel, startChallenge,
    counterChallenge, resolveChallenge, emergencyExit and withdrawPending
    on a freshly deployed contract, reverted or not: the balance of the
    contract is the sum of the deposits of the stored channels and of the
    pending withdrawals; the collateral locked in the bankroll manager is
    the sum of the casino deposits and at most maxExposure; every stored
    channel is Open or Disputed with non-negative balances that add up to
    its deposits; and no pending withdrawal exceeds the balance. *)
Theorem contract_holds_what_it_owes `{ChannelManager.Chain}
    (house : string) (limit : Z) (cs : list Call) :
  0 <= limit ->
  Forall unsigned_args cs ->
  let s := transact_all cs (ChannelManager.deployed house limit) in
  ChannelManager.balance s = liabilities s /\
  ChannelManager.totalLocked s
    = total ChannelManager.casinoDeposit (ChannelManager.channels s) /\
  ChannelManager.totalLocked s <= limit /\
  (forall agent ch,
     ChannelManager.channels s !! agent = Some ch ->
     channel_ok ch /\
     ChannelManager.casinoDeposit ch <= ChannelManager.totalLocked s /\
     held ch <= ChannelManager.balance s) /\
  (forall account, 0 <= owed s account <= ChannelManager.balance s).
Proof.
  intros Hlimit Hargs s.
  assert (Hs : solvent s).
  { apply transact_all_keeps; [exact Hargs|apply deployed_solvent]. }
  pose proof (transact_all_exposure cs (ChannelManager.deployed house limit))
    as (_ & _ & Hexp). cbn in Hexp. specialize (Hexp Hlimit). fold s in Hexp.
  pose proof (liabilities_bounds s Hs) as [Hh Hp].
  pose proof Hs as [Hchs Hpend Hlocked Hbal].
  split; [exact Hbal|]. split; [exact Hlocked|]. split; [exact Hexp|].
  unfold liabilities in Hbal. split.
  - intros agent ch Hch. split; [exact (Hchs _ _ Hch)|].
    pose proof (held_bounds s agent ch Hs Hch). lia.
  - intros account. pose proof (owed_bounds s account Hpend). lia.
Qed.

Lemma contract_holds_what_it_owes_witness :
  ChannelManager.balance drain_contract = liabilities drain_contract /\
  ChannelManager.totalLocked drain_contract <= 10 ^ 20.
Proof.
  destruct (@contract_holds_what_it_owes fixed_chain house (10 ^ 20)
    [COpenChannel (ChannelManager.mkMsg alice (10 ^ 17) 100);
     CFundCasinoSide (ChannelManager.mkMsg house (5 * 10 ^ 19) 200) alice])
    as (Hbal & _ & Hcap & _).
  - lia.
  - repeat constructor; cbn; lia.
  - split; [exact Hbal|exact Hcap].
Defined.



(** *** From the engine to the contract *)



(** *** Ownership and the insurance fund *)

(** X24. CasinoOwnable. The casino changes only by an acceptCasino that
    passes _canTransfer, sent by the pending casino, which is not the zero
    address, at least OWNERSHIP_TRANSFER_DELAY (2 days) after the request
    time; it clears the pending casino and the request time. A pending
    casino other than the zero address is set only by a transferCasino of
    the casino that passes _canTransfer, to an address other than the
    casino, with the block time as request time. *)
Theorem ownership_needs_nomination_and_delay
    (c : CasinoOwnable.Call) (s : CasinoOwnable.State) :
  let s' := CasinoOwnable.transact c s in
  (CasinoOwnable.casino s' <> CasinoOwnable.casino s ->
   exists now,
     c = CasinoOwnable.AcceptCasino true (CasinoOwnable.pendingCasino s) now /\
     CasinoOwnable.pendingCasino s <> CasinoOwnable.zero_address /\
     CasinoOwnable.transferRequestTime s + CasinoOwnable.OWNERSHIP_TRANSFER_DELAY
       <= now /\
     s' = CasinoOwnable.mkOwnable (CasinoOwnable.pendingCasino s)
            CasinoOwnable.zero_address 0) /\
  (CasinoOwnable.pendingCasino s' <> CasinoOwnable.pendingCasino s ->
   CasinoOwnable.pendingCasino s' <> CasinoOwnable.zero_address ->
   exists now,
     c = CasinoOwnable.TransferCasino true (CasinoOwnable.casino s) now
           (CasinoOwnable.pendingCasino s') /\
     CasinoOwnable.pendingCasino s' <> CasinoOwnable.casino s /\
     s' = CasinoOwnable.mkOwnable (CasinoOwnable.casino s)
            (CasinoOwnable.pendingCasino s') now) /\
  (CasinoOwnable.transferRequestTime s' <> CasinoOwnable.transferRequestTime s ->
   CasinoOwnable.transferRequestTime s' = 0 \/
   exists can sender _new,
     c = CasinoOwnable.TransferCasino can sender
           (CasinoOwnable.transferRequestTime s') _new).
Proof.
  intros s'. subst s'. unfold CasinoOwnable.transact.
  destruct c as [can sender now new|can sender now|sender];
    cbn [CasinoOwnable.call].
  - unfold CasinoOwnable.transferCasino.
    destruct (String.eqb sender _) eqn:Hsender; cbn [negb];
      [|repeat split; intros; congruence].
    apply String.eqb_eq in Hsender. subst sender.
    destruct (String.eqb new CasinoOwnable.zero_address) eqn:Hzero;
      [repeat split; intros; congruence|].
    destruct (String.eqb new (CasinoOwnable.casino s)) eqn:Hown;
      [repeat split; intros; congruence|].
    destruct can; cbn [negb]; [|repeat split; intros; congruence].
    unfold CasinoOwnable.checked_add.
    destruct (_ <=? _); [|repeat split; intros; congruence].
    cbn. apply String.eqb_neq in Hown.
    repeat split; intros; try congruence; eauto.
  - unfold CasinoOwnable.acceptCasino.
    destruct (String.eqb sender _) eqn:Hsender; cbn [negb];
      [|repeat split; intros; congruence].
    apply String.eqb_eq in Hsender. subst sender.
    destruct (String.eqb _ CasinoOwnable.zero_address) eqn:Hzero;
      [repeat split; intros; congruence|].
    apply String.eqb_neq in Hzero.
    unfold CasinoOwnable.checked_add.
    destruct (_ <=? _); [|repeat split; intros; congruence].
    destruct (now <? _) eqn:Hready; [repeat split; intros; congruence|].
    zbools.
    destruct can; cbn [negb]; [|repeat split; intros; congruence].
    cbn. repeat split; intros; try congruence; eauto.
  - unfold CasinoOwnable.cancelTransferCasino.
    destruct (String.eqb sender _); cbn [negb];
      [|repeat split; intros; congruence].
    destruct (String.eqb _ CasinoOwnable.zero_address);
      [repeat split; intros; congruence|].
    cbn. repeat split; intros; try congruence; eauto.
Qed.

Lemma ownership_needs_nomination_and_delay_witness :
  CasinoOwnable.transact (CasinoOwnable.AcceptCasino true bob 172900)
    (CasinoOwnable.mkOwnable house bob 100)
  = CasinoOwnable.mkOwnable bob CasinoOwnable.zero_address 0.
Proof.
  destruct (ownership_needs_nomination_and_delay
              (CasinoOwnable.AcceptCasino true bob 172900)
              (CasinoOwnable.mkOwnable house bob 100)) as (Hmoved & _).
  destruct Hmoved as (now & _ & _ & _ & Hs').
  - vm_compute. discriminate.
  - exact Hs'.
Defined.


